(** * PDR generalizers (muz_qe/pdr_generalizers.cpp)

    A shallow embedding of the five core generalizers of the PDR engine:
    [core_bool_inductive_generalizer], [core_multi_generalizer],
    [core_farkas_generalizer], [core_arith_inductive_generalizer] and
    [core_induction_generalizer], together with the properties their
    specification states about them.

    Collaborators that live outside the translated file (the inductiveness
    oracle of the predicate transformer, the Farkas learner, the SMT kernel,
    the PDR manager's connective helpers, the theory rewriter and the
    variable-substitution utilities) are abstracted as section variables;
    every external call is recorded in a ghost log carried by the [world]. *)

From Stdlib Require Import QArith Qcanon Qcabs DecimalString DecimalN.
From stdpp Require Import base decidable option list strings.

Set Default Proof Using "Type".
Local Open Scope nat_scope.

(** ** Terms *)

(** Modelled from the spec: the term language ([ast.h], [arith_decl_plugin.h])
    is not part of the translated sources.  A literal or term is an
    immutable, structurally shared symbolic expression whose equality is
    structural (hash-consed): a variable (de Bruijn index with its sort), an
    application of a function declaration, or a quantifier.  Pointer
    equality of the source is structural equality here; numerals carry a
    rational in canonical form. *)

Inductive symbol :=
| str_symbol (s : string)
| num_symbol (n : nat).

Inductive sort :=
| bool_sort
| int_sort
| real_sort
| user_sort (name : symbol).

Inductive decl_kind :=
| OP_TRUE | OP_FALSE | OP_NOT | OP_AND | OP_OR | OP_EQ | OP_IFF | OP_IMPLIES
| OP_LE | OP_GE | OP_LT | OP_GT | OP_ADD | OP_MUL | OP_MOD | OP_UMINUS
| OP_NUM (r : Qc)
| OP_UNINTERPRETED.

Record func_decl := mk_func_decl {
  get_name   : symbol;
  get_kind   : decl_kind;
  get_domain : list sort;
  get_range  : sort
}.

#[warnings="-register-all"]
Inductive expr :=
| var (idx : nat) (s : sort)
| app (d : func_decl) (args : list expr)
| quantifier (is_forall : bool) (sorts : list sort) (names : list symbol)
             (body : expr).

Definition get_arity (f : func_decl) : nat := length (get_domain f).

#[global] Instance symbol_eq_dec : EqDecision symbol.
Proof. solve_decision. Defined.

#[global] Instance sort_eq_dec : EqDecision sort.
Proof. solve_decision. Defined.

#[global] Instance Qc_eq_decision : EqDecision Qc := Qc_eq_dec.

#[global] Instance decl_kind_eq_dec : EqDecision decl_kind.
Proof. solve_decision. Defined.

#[global] Instance func_decl_eq_dec : EqDecision func_decl.
Proof. solve_decision. Defined.

Definition expr_eq_dec_aux : ∀ x y : expr, {x = y} + {x ≠ y}.
Proof.
  fix IH 1.
  intros [i s|d args|q ss ns b] [i' s'|d' args'|q' ss' ns' b'];
    try (right; discriminate).
  - destruct (decide (i = i')) as [->|]; [|right; congruence].
    destruct (decide (s = s')) as [->|]; [left; reflexivity|right; congruence].
  - destruct (decide (d = d')) as [->|]; [|right; congruence].
    destruct (@list_eq_dec _ IH args args') as [->|];
      [left; reflexivity|right; congruence].
  - destruct (decide (q = q')) as [->|]; [|right; congruence].
    destruct (decide (ss = ss')) as [->|]; [|right; congruence].
    destruct (decide (ns = ns')) as [->|]; [|right; congruence].
    destruct (IH b b') as [->|]; [left; reflexivity|right; congruence].
Defined.

#[global] Instance expr_eq_dec : EqDecision expr := expr_eq_dec_aux.

Definition get_sort (e : expr) : sort :=
  match e with
  | var _ s => s
  | app d _ => get_range d
  | quantifier _ _ _ _ => bool_sort
  end.

(** *** Constructors of [ast_manager] and [arith_util] *)

Definition builtin (name : string) (k : decl_kind) (dom : list sort)
    (rng : sort) : func_decl :=
  mk_func_decl (str_symbol name) k dom rng.

Definition mk_true : expr := app (builtin "true" OP_TRUE [] bool_sort) [].
Definition mk_false : expr := app (builtin "false" OP_FALSE [] bool_sort) [].
Definition mk_not (e : expr) : expr :=
  app (builtin "not" OP_NOT [bool_sort] bool_sort) [e].
Definition mk_or2 (a b : expr) : expr :=
  app (builtin "or" OP_OR [bool_sort; bool_sort] bool_sort) [a; b].
Definition mk_eq (a b : expr) : expr :=
  app (builtin "=" OP_EQ [get_sort a; get_sort a] bool_sort) [a; b].
Definition mk_iff (a b : expr) : expr :=
  app (builtin "iff" OP_IFF [bool_sort; bool_sort] bool_sort) [a; b].
Definition mk_implies (a b : expr) : expr :=
  app (builtin "=>" OP_IMPLIES [bool_sort; bool_sort] bool_sort) [a; b].
Definition mk_le (x y : expr) : expr :=
  app (builtin "<=" OP_LE [get_sort x; get_sort x] bool_sort) [x; y].
Definition mk_ge (x y : expr) : expr :=
  app (builtin ">=" OP_GE [get_sort x; get_sort x] bool_sort) [x; y].
Definition mk_mod (x y : expr) : expr :=
  app (builtin "mod" OP_MOD [int_sort; int_sort] int_sort) [x; y].
Definition mk_uminus (x : expr) : expr :=
  app (builtin "-" OP_UMINUS [get_sort x] (get_sort x)) [x].
Definition mk_numeral (r : Qc) (is_int : bool) : expr :=
  app (mk_func_decl (str_symbol "numeral") (OP_NUM r) []
         (if is_int then int_sort else real_sort)) [].
Definition mk_const (d : func_decl) : expr := app d [].
Definition mk_exists (sorts : list sort) (names : list symbol) (b : expr) :=
  quantifier false sorts names b.
Definition mk_forall (sorts : list sort) (names : list symbol) (b : expr) :=
  quantifier true sorts names b.

(** *** Recognisers *)

Definition is_app_of (e : expr) (k : decl_kind) : option (list expr) :=
  match e with
  | app d args => if decide (get_kind d = k) then Some args else None
  | _ => None
  end.

Definition is_not (e : expr) : option expr :=
  match is_app_of e OP_NOT with
  | Some [e1] => Some e1
  | _ => None
  end.

Definition is_le (e : expr) : option (expr * expr) :=
  match is_app_of e OP_LE with
  | Some [x; y] => Some (x, y)
  | _ => None
  end.

Definition is_ge (e : expr) : option (expr * expr) :=
  match is_app_of e OP_GE with
  | Some [x; y] => Some (x, y)
  | _ => None
  end.

Definition is_numeral (e : expr) : option Qc :=
  match e with
  | app d _ => match get_kind d with OP_NUM r => Some r | _ => None end
  | _ => None
  end.

Definition is_int (e : expr) : bool := bool_decide (get_sort e = int_sort).

Definition is_true (e : expr) : bool := bool_decide (e = mk_true).

(** *** Rationals *)

Definition Qc_of_Z (z : Z) : Qc := Q2Qc (inject_Z z).
Definition Qc_is_neg (r : Qc) : bool :=
  match (r ?= Qc_of_Z 0)%Qc with Lt => true | _ => false end.
Definition Qc_geb (a b : Qc) : bool :=
  match (a ?= b)%Qc with Lt => false | _ => true end.

(** *** Unsigned machine integers *)

Definition wrap32 (z : Z) : N := Z.to_N (z mod 2 ^ 32).

(** ** Proof-search nodes and predicate transformers *)

Record app_atom := mk_atom {
  get_decl : func_decl;
  get_args : list expr
}.

Definition atom_expr (a : app_atom) : expr := app (get_decl a) (get_args a).

(** A Horn rule: its head atom and its tail, split into the uninterpreted
    atoms (positions below [get_uninterpreted_tail_size]) and the interpreted
    ones that follow them. *)
Record rule := mk_rule {
  get_head : app_atom;
  uninterpreted_tail : list app_atom;
  interpreted_tail : list app_atom
}.

Definition get_uninterpreted_tail_size (r : rule) : nat :=
  length (uninterpreted_tail r).
Definition get_tail_size (r : rule) : nat :=
  length (uninterpreted_tail r) + length (interpreted_tail r).

(** The static part of a predicate transformer.  Its frames, and with them
    [check_inductive], [get_formulas] and [get_propagation_formula], belong
    to the external state.  A transformer is identified by its head
    declaration: the context keeps exactly one per predicate. *)
Record pred_transformer := mk_pt {
  head  : func_decl;
  sig   : nat → func_decl;
  rules : list rule
}.

Definition same_pt (a b : pred_transformer) : bool :=
  bool_decide (head a = head b).

#[warnings="-register-all"]
Inductive model_node := mk_node {
  pt     : pred_transformer;
  level  : N;
  parent : option model_node
}.

Inductive lbool := l_false | l_undef | l_true.

(** The PDR context, as far as the generalizers read it: the table of
    predicate transformers.  [obj_map::find] asserts that the key is present,
    so the lookup is a total function here. *)
Record context := mk_context {
  get_pred_transformers : func_decl → pred_transformer
}.

(** ** The world: external state and ghost logs of the external calls *)

Record ind_call := mk_ind_call {
  ic_pt     : pred_transformer;
  ic_level  : N;
  ic_core   : list expr;      (* the core handed to check_inductive *)
  ic_result : bool;
  ic_left   : list expr       (* the core as the call left it *)
}.

Record world (ext : Type) := mk_world {
  w_ext : ext;
  w_ind : list ind_call;          (* check_inductive calls, oldest first *)
  w_itp : list (expr * expr);     (* get_lemma_guesses requests *)
  w_smt : list expr               (* goals handed to a fresh SMT kernel *)
}.
Arguments mk_world {ext}.
Arguments w_ext {ext}.
Arguments w_ind {ext}.
Arguments w_itp {ext}.
Arguments w_smt {ext}.

(** Result of running a loop of the source with a step budget: it finishes,
    it indexes a vector out of range, or the budget runs out. *)
Inductive outcome (A : Type) :=
| Done (a : A)
| OutOfRange
| OutOfFuel.
Arguments Done {A}.
Arguments OutOfRange {A}.
Arguments OutOfFuel {A}.

Definition core_state (ext : Type) : Type := list expr * bool * world ext.

(** ** Containers *)

(** [obj_hashtable<expr>] as a duplicate-free list. *)
Definition set_insert (e : expr) (s : list expr) : list expr :=
  if bool_decide (e ∈ s) then s else s ++ [e].
Definition set_union (tgt : list expr) (src : list expr) : list expr :=
  foldl (λ s e, set_insert e s) tgt src.
Definition set_intersection (tgt src : list expr) : list expr :=
  filter (λ e, e ∈ src) tgt.
Definition contains (s : list expr) (e : expr) : bool := bool_decide (e ∈ s).

(** ** The generalizers *)

Section generalizers.
Context {ext : Type}.

(** [pred_transformer::check_inductive(level, core, uses_level)].  Its
    declaration is outside the translated sources; the call sites pass the
    core vector and the flag as lvalues and the loop of the bool generalizer
    re-reads [core.size()] after every call, so the call is modelled as
    handing back the core and the flag as it leaves them, together with the
    new external state.  An implementation that only reads the core hands
    it back unchanged. *)
Variable check_inductive :
  ext → pred_transformer → N → list expr → bool →
  bool * list expr * bool * ext.

Definition call_check_inductive (w : world ext) (p : pred_transformer)
    (lvl : N) (core : list expr) (uses_level : bool)
  : bool * list expr * bool * world ext :=
  let '(res, core', uses_level', x') :=
    check_inductive (w_ext w) p lvl core uses_level in
  (res, core', uses_level',
   mk_world x' (w_ind w ++ [mk_ind_call p lvl core res core'])
            (w_itp w) (w_smt w)).

(** *** core_bool_inductive_generalizer *)

Record bool_state := mk_bool_state {
  bs_core         : list expr;
  bs_uses_level   : bool;
  bs_world        : world ext;
  bs_i            : nat;
  bs_num_failures : N;
  bs_processed    : list expr
}.

(** [(!m_failure_limit || num_failures <= m_failure_limit)] and the two
    size tests of the [while]. *)
Definition bool_guard (m_failure_limit : N) (s : bool_state) : bool :=
  (bs_i s <? length (bs_core s))
  && (1 <? length (bs_core s))
  && ((m_failure_limit =? 0)%N
      || (bs_num_failures s <=? m_failure_limit)%N).

(** [for (i = 0; i < core.size() && processed.contains(core[i]); ++i);] *)
Fixpoint skip_processed (processed core : list expr) : nat :=
  match core with
  | [] => 0
  | e :: rest =>
      if contains processed e then S (skip_processed processed rest) else 0
  end.

Definition bool_body (n : model_node) (s : bool_state)
  : option bool_state :=
  lit ← bs_core s !! bs_i s;
  let core1 := <[bs_i s := mk_true]> (bs_core s) in
  let '(res, core2, ul, w) :=
    call_check_inductive (bs_world s) (pt n) (level n) core1
                         (bs_uses_level s) in
  if res then
    Some (mk_bool_state core2 ul w (skip_processed (bs_processed s) core2)
                        0%N (bs_processed s))
  else if bs_i s <? length core2 then
    Some (mk_bool_state (<[bs_i s := lit]> core2) ul w (S (bs_i s))
            (wrap32 (Z.of_N (bs_num_failures s) + 1))
            (bs_processed s ++ [lit]))
  else None.

Fixpoint bool_loop (m_failure_limit : N) (fuel : nat) (n : model_node)
    (s : bool_state) : outcome bool_state :=
  if bool_guard m_failure_limit s then
    match fuel with
    | 0 => OutOfFuel
    | S fuel' =>
        match bool_body n s with
        | Some s' => bool_loop m_failure_limit fuel' n s'
        | None => OutOfRange
        end
    end
  else Done s.

Definition bool_result (o : outcome bool_state) : outcome (core_state ext) :=
  match o with
  | Done s => Done (bs_core s, bs_uses_level s, bs_world s)
  | OutOfRange => OutOfRange
  | OutOfFuel => OutOfFuel
  end.

Definition core_bool_inductive_generalizer (m_failure_limit : N)
    (fuel : nat) (n : model_node) (core : list expr) (uses_level : bool)
    (w : world ext) : outcome (core_state ext) :=
  if length core <=? 1 then Done (core, uses_level, w)
  else bool_result
         (bool_loop m_failure_limit fuel n
            (mk_bool_state core uses_level w 0 0%N [])).

(** *** core_multi_generalizer *)

Definition cores : Type := list (list expr * bool).

(** [core1[i] = core1.back(); core1.pop_back();] *)
Definition swap_remove (i : nat) (l : list expr) : option (list expr) :=
  b ← last l;
  if i <? length l then Some (take (length l - 1) (<[i := b]> l))
  else None.

Record multi_state := mk_multi_state {
  ms_new_cores  : cores;
  ms_core_exprs : list expr;
  ms_world      : world ext
}.

(** One iteration of the [for] over [old_core]. *)
Definition multi_body (m_failure_limit : N) (fuel : nat) (n : model_node)
    (old_core : list expr) (uses_level : bool) (i : nat)
    (s : multi_state) : outcome multi_state :=
  match old_core !! i with
  | None => OutOfRange
  | Some lit =>
      if contains (ms_core_exprs s) lit then
        match swap_remove i old_core with
        | None => OutOfRange
        | Some core1 =>
            match core_bool_inductive_generalizer m_failure_limit fuel n
                    core1 uses_level (ms_world s) with
            | Done (core1', uses_level1, w) =>
                if length core1' <? length old_core then
                  Done (mk_multi_state
                          (ms_new_cores s ++ [(core1', uses_level1)])
                          (set_intersection (ms_core_exprs s)
                                            (set_union [] core1'))
                          w)
                else Done (mk_multi_state (ms_new_cores s)
                                          (ms_core_exprs s) w)
            | OutOfRange => OutOfRange
            | OutOfFuel => OutOfFuel
            end
        end
      else Done s
  end.

Fixpoint multi_loop (m_failure_limit : N) (fuel : nat) (n : model_node)
    (old_core : list expr) (uses_level : bool) (idxs : list nat)
    (s : multi_state) : outcome multi_state :=
  match idxs with
  | [] => Done s
  | i :: rest =>
      match multi_body m_failure_limit fuel n old_core uses_level i s with
      | Done s' =>
          multi_loop m_failure_limit fuel n old_core uses_level rest s'
      | OutOfRange => OutOfRange
      | OutOfFuel => OutOfFuel
      end
  end.

(** The multi-core entry point.  As in the source, [old_core] is
    constructed empty ([expr_ref_vector old_core(m), core0(core);]) and is
    never assigned afterwards. *)
Definition core_multi_generalizer (m_failure_limit : N) (fuel : nat)
    (n : model_node) (core : list expr) (uses_level : bool)
    (new_cores : cores) (w : world ext) : outcome (cores * world ext) :=
  let old_core : list expr := [] in
  let core0 := core in
  match core_bool_inductive_generalizer m_failure_limit fuel n core0
          uses_level w with
  | Done (core0', uses_level1, w1) =>
      let s0 := mk_multi_state (new_cores ++ [(core0', uses_level1)])
                               (set_union [] core0') w1 in
      match multi_loop m_failure_limit fuel n old_core uses_level
              (seq 0 (length old_core)) s0 with
      | Done s => Done (ms_new_cores s, ms_world s)
      | OutOfRange => OutOfRange
      | OutOfFuel => OutOfFuel
      end
  | OutOfRange => OutOfRange
  | OutOfFuel => OutOfFuel
  end.

(** *** core_farkas_generalizer *)

(** Helpers of the PDR manager and of [datalog]: conjunction and
    disjunction of a vector, decomposition of a formula into its top-level
    disjuncts, and flattening of a formula into a vector of conjuncts
    (appended to the vector passed in). *)
Variable mk_and : list expr → expr.
Variable mk_or : list expr → expr.
Variable get_or : expr → list expr.
Variable flatten_and : expr → list expr → list expr.

Variable get_propagation_formula :
  ext → context → pred_transformer → N → expr.

(** [farkas_learner::get_lemma_guesses(A, B, lemmas)]. *)
Variable get_lemma_guesses : ext → expr → expr → bool * list expr * ext.

Definition call_get_lemma_guesses (w : world ext) (A B : expr)
  : bool * list expr * world ext :=
  let '(ok, lemmas, x') := get_lemma_guesses (w_ext w) A B in
  (ok, lemmas,
   mk_world x' (w_ind w) (w_itp w ++ [(A, B)]) (w_smt w)).

Record farkas_state := mk_farkas_state {
  fs_Bs     : list expr;
  fs_C      : option expr;      (* the local [C]; null until assigned *)
  fs_change : bool;
  fs_world  : world ext
}.

(** One iteration of the [for] over the disjuncts. *)
Definition farkas_body (A B : expr) (s : farkas_state) (i : nat)
  : farkas_state :=
  let C := fs_Bs s !! i in
  let '(ok, lemmas, w) := call_get_lemma_guesses (fs_world s) A B in
  if ok then mk_farkas_state (<[i := mk_and lemmas]> (fs_Bs s)) C true w
  else mk_farkas_state (fs_Bs s) C (fs_change s) w.

Definition core_farkas_generalizer (ctx : context) (n : model_node)
    (core : list expr) (uses_level : bool) (w : world ext)
  : core_state ext :=
  match core with
  | [] => (core, uses_level, w)
  | _ =>
      let B := mk_and core in
      let Bs := get_or B in
      let A := get_propagation_formula (w_ext w) ctx (pt n) (level n) in
      let s := foldl (farkas_body A B)
                     (mk_farkas_state Bs None false w)
                     (seq 0 (length Bs)) in
      if fs_change s then
        let C := mk_or (fs_Bs s) in
        (flatten_and C [], true, fs_world s)
      else (core, uses_level, fs_world s)
  end.

(** *** core_arith_inductive_generalizer *)

Definition term_loc_t : Type := expr * nat.

(** Modelled from the spec: the container type [bounds_t] is declared in
    the header, which is not part of the translated sources.  Following the
    specification ("index BoundRecords by magnitude into lower/upper maps",
    "pair each lower-bound term with each upper-bound term at that
    magnitude") it is a map from a magnitude to the sequence of (term,
    literal index) pairs recorded for it, kept here as an association list
    in order of first insertion. *)
Definition bounds_t : Type := list (Qc * list term_loc_t).

(** Modelled from the spec: [bounds_t::insert], adding a (term, index) pair
    to the sequence kept for magnitude [r]. *)
Fixpoint bounds_insert (r : Qc) (tl : term_loc_t) (b : bounds_t)
  : bounds_t :=
  match b with
  | [] => [(r, [tl])]
  | (k, v) :: rest =>
      if decide (k = r) then (k, v ++ [tl]) :: rest
      else (k, v) :: bounds_insert r tl rest
  end.

(** Modelled from the spec: [bounds_t::find], the sequence kept for
    magnitude [r], if any. *)
Fixpoint bounds_find (b : bounds_t) (r : Qc) : option (list term_loc_t) :=
  match b with
  | [] => None
  | (k, v) :: rest => if decide (k = r) then Some v else bounds_find rest r
  end.

Record arith_state := mk_arith_state {
  m_refs : list expr;
  m_lb   : bounds_t;
  m_ub   : bounds_t
}.

Definition reset : arith_state := mk_arith_state [] [] [].

Definition insert_bound (is_lower : bool) (x : expr) (r : Qc) (i : nat)
    (st : arith_state) : arith_state :=
  let '(is_lower, x, refs) :=
    if Qc_is_neg r then
      (negb is_lower, mk_uminus x, m_refs st ++ [mk_uminus x])
    else (is_lower, x, m_refs st) in
  if is_lower then
    mk_arith_state refs (bounds_insert (Qcabs r) (x, i) (m_lb st)) (m_ub st)
  else
    mk_arith_state refs (m_lb st) (bounds_insert (Qcabs r) (x, i) (m_ub st)).

(** The four tests of the [if]/[else if] chain of [get_eqs]; each yields
    the term and the numeral it matched. *)
Definition match_not_le_int (e : expr) : option (expr * Qc) :=
  e1 ← is_not e; '(x, y) ← is_le e1; r ← is_numeral y;
  if is_int x then Some (x, r) else None.
Definition match_not_ge_int (e : expr) : option (expr * Qc) :=
  e1 ← is_not e; '(x, y) ← is_ge e1; r ← is_numeral y;
  if is_int x then Some (x, r) else None.
Definition match_le (e : expr) : option (expr * Qc) :=
  '(x, y) ← is_le e; r ← is_numeral y; Some (x, r).
Definition match_ge (e : expr) : option (expr * Qc) :=
  '(x, y) ← is_ge e; r ← is_numeral y; Some (x, r).

(** Body of the first [for] of [get_eqs]. *)
Definition scan_literal (i : nat) (e : expr) (st : arith_state)
  : arith_state :=
  match match_not_le_int e with
  | Some (x, r) => insert_bound true x (r + Qc_of_Z 1)%Qc i st
  | None =>
  match match_not_ge_int e with
  | Some (x, r) => insert_bound false x (r - Qc_of_Z 1)%Qc i st
  | None =>
  match match_le e with
  | Some (x, r) => insert_bound false x r i st
  | None =>
  match match_ge e with
  | Some (x, r) => insert_bound true x r i st
  | None => st
  end end end end.

Fixpoint scan_core (i : nat) (core : list expr) (st : arith_state)
  : arith_state :=
  match core with
  | [] => st
  | e :: rest => scan_core (S i) rest (scan_literal i e st)
  end.

Record eq_entry := mk_eq_entry {
  m_term  : expr;
  m_value : Qc;
  m_i     : nat;
  m_j     : nat
}.

(** The theory rewriter. *)
Variable th_rewriter : expr → expr.

(** Inner [for] over [terms2]: the first upper-bound term that is the same
    term, or that the rewriter proves equal. *)
Fixpoint find_alias (t1 : expr) (terms2 : list term_loc_t) : option nat :=
  match terms2 with
  | [] => None
  | (t2, j) :: rest =>
      if decide (t1 = t2) then Some j
      else if is_true (th_rewriter (mk_eq t1 t2)) then Some j
      else find_alias t1 rest
  end.

Definition pair_terms (r : Qc) (terms1 terms2 : list term_loc_t)
    (eqs : list eq_entry) : list eq_entry :=
  foldl (λ eqs (t : term_loc_t),
           match find_alias t.1 terms2 with
           | Some j => eqs ++ [mk_eq_entry t.1 r t.2 j]
           | None => eqs
           end) eqs terms1.

(** [get_eqs]: the scan of the core, then the walk over the lower-bound map
    (in the order of the association list; the source walks a hash table). *)
Definition get_eqs (core : list expr) (st : arith_state)
    (eqs : list eq_entry) : arith_state * list eq_entry :=
  let st := scan_core 0 core st in
  (st,
   foldl (λ eqs (entry : Qc * list term_loc_t),
            let '(r, terms1) := entry in
            if Qc_geb r (Qc_of_Z 2) then
              match bounds_find (m_ub st) r with
              | Some terms2 => pair_terms r terms1 terms2 eqs
              | None => eqs
              end
            else eqs) eqs (m_lb st)).

Fixpoint substitute_alias (r : Qc) (x e : expr) : option expr :=
  match
    match e with
    | app d [e1] =>
        if decide (get_kind d = OP_NOT) then substitute_alias r x e1
        else None
    | _ => None
    end
  with
  | Some result => Some (mk_not result)
  | None =>
  match '(y, z) ← is_le e; r2 ← is_numeral z;
        if decide (r = r2) then Some y else None with
  | Some y => Some (mk_le y x)
  | None =>
  match '(y, z) ← is_ge e; r2 ← is_numeral z;
        if decide (r = r2) then Some y else None with
  | Some y => Some (mk_ge y x)
  | None => None
  end end end.

(** The candidate core of one trial: the inner [for] over [core] followed
    by the two assignments guarded by [abs(r) >= 2 && a.is_int(x)]. *)
Definition arith_new_core (r : Qc) (x : expr) (k l : nat)
    (core : list expr) : option (list expr) :=
  let new_core :=
    imap (λ i e,
            if (i =? k) || (k =? l) then mk_true
            else match substitute_alias r x e with
                 | Some e' => e'
                 | None => e
                 end) core in
  if Qc_geb (Qcabs r) (Qc_of_Z 2) && is_int x then
    if (k <? length new_core) && (l <? length new_core) then
      Some (<[l := mk_le x (mk_numeral r true)]>
              (<[k := mk_eq (mk_mod x (mk_numeral (Qc_of_Z 2) true))
                            (mk_numeral (Qc_of_Z 0) true)]> new_core))
    else None
  else Some new_core.

Fixpoint arith_loop (n : model_node) (eqs : list eq_entry)
    (core : list expr) (uses_level : bool) (w : world ext)
  : outcome (core_state ext) :=
  match eqs with
  | [] => Done (core, uses_level, w)
  | e :: rest =>
      match arith_new_core (m_value e) (m_term e) (m_i e) (m_j e) core with
      | None => OutOfRange
      | Some new_core =>
          let '(inductive, new_core', uses_level', w') :=
            call_check_inductive w (pt n) (level n) new_core uses_level in
          arith_loop n rest (if inductive then new_core' else core)
                     uses_level' w'
      end
  end.

Definition core_arith_inductive_generalizer (n : model_node)
    (core : list expr) (uses_level : bool) (w : world ext)
  : outcome (core_state ext) :=
  if length core <=? 1 then Done (core, uses_level, w)
  else
    let '(_, eqs) := get_eqs core reset [] in
    arith_loop n eqs core uses_level w.

(** *** core_induction_generalizer *)

(** Term utilities used by the induction schema. *)
Variable o2n : func_decl → nat → func_decl.
Variable var_subst : bool → expr → list (option expr) → expr.
Variable get_free_vars : expr → list (option sort).
Variable expr_abstract : list expr → expr → expr.

Variable get_formulas : ext → pred_transformer → N → bool → expr.

(** A fresh [smt::kernel] seeded with the parameters of the context, fed
    one goal and asked to [check()]. *)
Variable smt_check : ext → expr → lbool * ext.

Definition call_smt_check (w : world ext) (goal : expr)
  : lbool * world ext :=
  let '(r, x') := smt_check (w_ext w) goal in
  (r, mk_world x' (w_ind w) (w_itp w) (w_smt w ++ [goal])).

Definition decimal (n : N) : string := NilEmpty.string_of_uint (N.to_uint n).

Definition symbol_str (s : symbol) : string :=
  match s with
  | str_symbol s => s
  | num_symbol n => "k!" +:+ decimal (N.of_nat n)
  end.

(** Create predicate [Q_level]. *)
Definition mk_pred (lvl : N) (f : func_decl) : func_decl :=
  mk_func_decl (str_symbol (symbol_str (get_name f) +:+ "_" +:+ decimal lvl))
               OP_UNINTERPRETED (get_domain f) (get_range f).

(** First [for] of [mk_transition_rule]: bind the head arguments to the
    representatives, collecting equations for repeated variables and for
    non-variable arguments. *)
Fixpoint bind_args (atom : app_atom) (i : nat)
    (todo : list expr) (conjs : list expr) (sub : list (option expr))
  : option (list expr * list (option expr)) :=
  match todo with
  | [] => Some (conjs, sub)
  | rep :: todo' =>
      arg ← get_args atom !! i;
      match arg with
      | var idx _ =>
          let sub := if length sub <=? idx
                     then sub ++ replicate (S idx - length sub) None
                     else sub in
          match sub !! idx with
          | Some (Some t) =>
              bind_args atom (S i) todo' (conjs ++ [mk_eq t rep]) sub
          | _ =>
              bind_args atom (S i) todo' conjs (<[idx := Some rep]> sub)
          end
      | _ => bind_args atom (S i) todo' (conjs ++ [mk_eq arg rep]) sub
      end
  end.

(** Create formula [exists y . z . F[Q_{level-1}, x, y, z]]. *)
Definition mk_transition_rule (reps : list expr) (lvl : N) (r : rule)
  : option expr :=
  let ut_size := get_uninterpreted_tail_size r in
  if (lvl =? 0)%N && (0 <? ut_size) then Some mk_false
  else
    '(conjs, sub) ← bind_args (get_head r) 0 reps [] [];
    let conjs :=
      if (0 <? lvl)%N then
        conjs ++ map (λ atom, app (mk_pred (lvl - 1) (get_decl atom))
                                 (get_args atom))
                    (uninterpreted_tail r)
      else conjs in
    let conjs := conjs ++ map atom_expr (interpreted_tail r) in
    let result := mk_and conjs in
    let result := match sub with
                  | [] => result
                  | _ => var_subst false result sub
                  end in
    let sorts := get_free_vars result in
    let names := map (λ i, num_symbol (length sorts - i - 1))
                     (seq 0 (length sorts)) in
    let sorts := map (default bool_sort) sorts in
    Some match sorts with
         | [] => result
         | _ => mk_exists (reverse sorts) names result
         end.

Definition bind_head (reps : list expr) (fml : expr) : expr :=
  let result := expr_abstract reps fml in
  let sz := length reps in
  let sorts := map get_sort (reverse reps) in
  let names := map (λ i, num_symbol (sz - i - 1)) (seq 0 sz) in
  if 0 <? sz then mk_forall sorts names result else result.

Definition mk_reps (p : pred_transformer) : list expr :=
  map (λ i, mk_const (o2n (sig p i) 0)) (seq 0 (get_arity (head p))).

(** Transition axiom:
    [forall x . p_lvl(x) <=> exists y z . F[p_{lvl-1}(y), q_{lvl-1}(z), x]] *)
Definition mk_transition_axiom (p : pred_transformer) (lvl : N)
  : option expr :=
  let reps := mk_reps p in
  trs ← mapM (mk_transition_rule reps lvl) (rules p);
  let fml := match trs with
             | [] => mk_false
             | tr :: trs' => foldl mk_or2 tr trs'
             end in
  let fn := mk_pred lvl (head p) in
  Some (bind_head reps (mk_iff (app fn reps) fml)).

(** Implication [Q_level(x) => phi(x)]. *)
Definition mk_predicate_property (lvl : N) (p : pred_transformer)
    (phi : expr) : expr :=
  let reps := mk_reps p in
  let fn := mk_pred lvl (head p) in
  bind_head reps (mk_implies (app fn reps) phi).

(** [not exists y . F(x,y)] *)
Definition mk_blocked_transition (p : pred_transformer) (lvl : N)
  : option expr :=
  let reps := mk_reps p in
  trs ← mapM (mk_transition_rule reps lvl) (rules p);
  Some (mk_and (map mk_not trs)).

Record goal_state := mk_goal_state {
  gs_conjs  : list expr;
  gs_pts    : list pred_transformer;
  gs_levels : list N
}.

(** The induction hypotheses: [for (lvl = level-depth; lvl < level; ++lvl)]
    with unsigned arithmetic. *)
Definition ih_levels (lvl depth : N) : list N :=
  let start := wrap32 (Z.of_N lvl - Z.of_N depth) in
  map (λ d, (start + N.of_nat d)%N) (seq 0 (N.to_nat (lvl - start))).

Definition add_hypothesis (p : pred_transformer) (s : option goal_state)
    (lvl : N) : option goal_state :=
  s ← s;
  if (0 <? lvl)%N then
    psi ← mk_blocked_transition p lvl;
    Some (mk_goal_state (gs_conjs s ++ [mk_predicate_property lvl p psi])
                        (gs_pts s ++ [p]) (gs_levels s ++ [lvl]))
  else Some s.

(** Enqueue the transformer of one uninterpreted tail atom at [lvl-1]
    unless the queue already has it there. *)
Definition enqueue_tail (ctx : context) (lvl : N) (s : goal_state)
    (atom : app_atom) : goal_state :=
  let rt := get_pred_transformers ctx (get_decl atom) in
  let found :=
    existsb (λ ql : pred_transformer * N,
               same_pt rt ql.1 && (wrap32 (Z.of_N ql.2 + 1) =? lvl)%N)
            (zip (gs_pts s) (gs_levels s)) in
  if found then s
  else mk_goal_state (gs_conjs s) (gs_pts s ++ [rt])
                     (gs_levels s ++ [(lvl - 1)%N]).

(** Body of the [for] over [qhead]. *)
Definition transitions_body (ctx : context) (x : ext) (lvl0 depth : N)
    (qhead : nat) (s : goal_state) : option goal_state :=
  qt ← gs_pts s !! qhead;
  lvl ← gs_levels s !! qhead;
  axiom ← mk_transition_axiom qt lvl;
  let s := mk_goal_state
             (gs_conjs s ++
                [axiom;
                 mk_predicate_property lvl qt (get_formulas x qt lvl true)])
             (gs_pts s) (gs_levels s) in
  if (wrap32 (Z.of_N lvl + Z.of_N depth) <? lvl0)%N || (lvl =? 0)%N then
    Some s
  else
    Some (foldl (λ s (r : rule),
                   foldl (enqueue_tail ctx lvl) s (uninterpreted_tail r))
                s (rules qt)).

Fixpoint transitions_loop (ctx : context) (x : ext) (lvl0 depth : N)
    (fuel : nat) (qhead : nat) (s : goal_state) : outcome goal_state :=
  if qhead <? length (gs_pts s) then
    match fuel with
    | 0 => OutOfFuel
    | S fuel' =>
        match transitions_body ctx x lvl0 depth qhead s with
        | Some s' => transitions_loop ctx x lvl0 depth fuel' (S qhead) s'
        | None => OutOfRange
        end
    end
  else Done s.

Definition mk_induction_goal (ctx : context) (x : ext) (fuel : nat)
    (p : pred_transformer) (lvl depth : N) : outcome expr :=
  match
    (phi ← mk_blocked_transition p lvl;
     foldl (add_hypothesis p)
           (Some (mk_goal_state
                    [mk_not (mk_predicate_property lvl p phi)] [p] [lvl]))
           (ih_levels lvl depth))
  with
  | None => OutOfRange
  | Some s0 =>
      match transitions_loop ctx x lvl depth fuel 0 s0 with
      | Done s => Done (mk_and (gs_conjs s))
      | OutOfRange => OutOfRange
      | OutOfFuel => OutOfFuel
      end
  end.

(** Instantiate Peano induction schema. *)
Definition core_induction_generalizer (ctx : context) (fuel : nat)
    (n : model_node) (core : list expr) (uses_level : bool) (w : world ext)
  : outcome (core_state ext) :=
  match parent n with
  | None => Done (core, uses_level, w)
  | Some p =>
      let depth := 2%N in
      match mk_induction_goal ctx (w_ext w) fuel (pt p) (level p) depth with
      | Done goal =>
          let '(r, w') := call_smt_check w goal in
          match r with
          | l_false =>
              match mk_blocked_transition (pt p) (level p) with
              | Some phi => Done ([mk_not phi], true, w')
              | None => OutOfRange
              end
          | _ => Done (core, uses_level, w')
          end
      | OutOfRange => OutOfRange
      | OutOfFuel => OutOfFuel
      end
  end.

End generalizers.

Arguments bool_state : clear implicits.
Arguments multi_state : clear implicits.
Arguments farkas_state : clear implicits.

(** ** Contracts of the inductiveness oracle

    Properties an implementation of [check_inductive] may or may not have;
    the generalizers themselves do not enforce any of them. *)

Section oracle_contracts.
Context {ext : Type}.
Variable check_inductive :
  ext → pred_transformer → N → list expr → bool →
  bool * list expr * bool * ext.

Definition ci_result (r : bool * list expr * bool * ext) : bool := r.1.1.1.
Definition ci_core (r : bool * list expr * bool * ext) : list expr :=
  r.1.1.2.
Definition ci_flag (r : bool * list expr * bool * ext) : bool := r.1.2.

(** An accepted core that held a trivial-true literal comes back
    strictly shorter. *)
Definition shrinks_on_success : Prop :=
  ∀ x p lvl core ul,
    mk_true ∈ core →
    ci_result (check_inductive x p lvl core ul) = true →
    length (ci_core (check_inductive x p lvl core ul)) < length core.

(** A rejected core comes back as it was handed in. *)
Definition keeps_on_failure : Prop :=
  ∀ x p lvl core ul,
    ci_result (check_inductive x p lvl core ul) = false →
    ci_core (check_inductive x p lvl core ul) = core.

(** An accepted core comes back as a sub-multiset of the core handed in,
    free of trivial-true literals (as an unsat core of the literals). *)
Definition returns_subcore : Prop :=
  ∀ x p lvl core ul,
    ci_result (check_inductive x p lvl core ul) = true →
    ci_core (check_inductive x p lvl core ul) ⊆+ core
    ∧ mk_true ∉ ci_core (check_inductive x p lvl core ul).

(** The oracle never lowers the level flag. *)
Definition never_lowers : Prop :=
  ∀ x p lvl core,
    ci_flag (check_inductive x p lvl core true) = true.

End oracle_contracts.

(** Among the logged calls, one on transformer [p] at level [lvl] returned
    true and left the core equal to [core]. *)
Definition accepted_in (calls : list ind_call) (p : pred_transformer)
    (lvl : N) (core : list expr) : Prop :=
  ∃ c, c ∈ calls ∧ ic_pt c = p ∧ ic_level c = lvl
       ∧ ic_result c = true ∧ ic_left c = core.

(** The core held by a generalizer is the input core or the core left by an
    accepting call made since the run started in world [w0]. *)
Definition committed {ext : Type} (n : model_node) (core0 : list expr)
    (w0 : world ext) (core : list expr) (w : world ext) : Prop :=
  ∃ calls, w_ind w = w_ind w0 ++ calls
           ∧ (core = core0 ∨ accepted_in calls (pt n) (level n) core).

(** The three ways out of the [while] of the bool generalizer. *)
Definition bool_exit {ext : Type} (m_failure_limit : N)
    (s : bool_state ext) : Prop :=
  length (bs_core s) ≤ bs_i s
  ∨ length (bs_core s) ≤ 1
  ∨ (m_failure_limit ≠ 0%N ∧ (m_failure_limit < bs_num_failures s)%N).

(** Termination measure of the [while] of the bool generalizer. *)
Definition bool_measure {ext : Type} (s : bool_state ext) : nat :=
  length (bs_core s) * S (length (bs_core s))
  + (length (bs_core s) - bs_i s).

(** Well-formed rules: the head atom has an argument for every position of
    the predicate ([SASSERT(atom->get_num_args() == reps.size())]). *)
Definition wf_pt (p : pred_transformer) : Prop :=
  Forall (λ r, get_arity (head p) ≤ length (get_args (get_head r))) (rules p).

Definition wf_context (ctx : context) : Prop :=
  ∀ f, wf_pt (get_pred_transformers ctx f).

(** Work still owed by a queue entry of [mk_induction_goal]: the entry
    itself and, above level 0, everything its uninterpreted tails may
    enqueue one level down. *)
Fixpoint weight (ctx : context) (lvl : nat) (p : pred_transformer) : nat :=
  match lvl with
  | 0 => 1
  | S lvl' =>
      S (sum_list
           (map (λ r, sum_list
                        (map (λ a, weight ctx lvl'
                                     (get_pred_transformers ctx (get_decl a)))
                             (uninterpreted_tail r)))
                (rules p)))
  end.

Definition queue_weight (ctx : context) (pts : list pred_transformer)
    (levels : list N) : nat :=
  sum_list (zip_with (λ p l, weight ctx (N.to_nat l) p) pts levels).

(** Well-formed queue of [mk_induction_goal]: the two parallel vectors have
    the same length and hold well-formed transformers only. *)
Definition queue_ok (s : goal_state) : Prop :=
  length (gs_pts s) = length (gs_levels s) ∧ Forall wf_pt (gs_pts s).

(** [s'] is [s] with entries of total weight at most [bound] appended. *)
Definition extends (ctx : context) (s s' : goal_state) (bound : nat) : Prop :=
  ∃ ep el,
    gs_pts s' = gs_pts s ++ ep
    ∧ gs_levels s' = gs_levels s ++ el
    ∧ length ep = length el
    ∧ Forall wf_pt ep
    ∧ queue_weight ctx ep el ≤ bound.

(** Weight of the queue entries from position [qhead] on. *)
Definition remaining (ctx : context) (qhead : nat) (s : goal_state) : nat :=
  queue_weight ctx (drop qhead (gs_pts s)) (drop qhead (gs_levels s)).

(** ** Bound records

    A bound record is a view of one entry of the two maps of the arithmetic
    generalizer: direction, term, magnitude and literal index. *)

Record BoundRecord := mk_bound {
  br_lower : bool;
  br_term  : expr;
  br_value : Qc;
  br_index : nat
}.

Definition records_of (lower : bool) (b : bounds_t) : list BoundRecord :=
  concat (map (λ entry : Qc * list term_loc_t,
                 map (λ tl : term_loc_t, mk_bound lower tl.1 entry.1 tl.2)
                     entry.2) b).

Definition bound_records (st : arith_state) : list BoundRecord :=
  records_of true (m_lb st) ++ records_of false (m_ub st).

(** The record a bound [x >= r] (lower) or [x <= r] (upper) is stored as: a
    negative bound value moves to the negated term with the direction
    inverted. *)
Definition normalize_bound (is_lower : bool) (x : expr) (r : Qc) (i : nat)
  : BoundRecord :=
  if Qc_is_neg r then mk_bound (negb is_lower) (mk_uminus x) (Qcabs r) i
  else mk_bound is_lower x (Qcabs r) i.

(** The literal shapes that carry a bound, with the bound they denote:
    [not(x <= r)] and [not(x >= r)] over an integer-sorted [x], and
    [x <= r], [x >= r] over a term of any sort. *)
Inductive bound_shape : expr → bool → expr → Qc → Prop :=
| shape_not_le e e1 x y r :
    is_not e = Some e1 → is_le e1 = Some (x, y) → is_numeral y = Some r →
    is_int x = true →
    bound_shape e true x (r + Qc_of_Z 1)%Qc
| shape_not_ge e e1 x y r :
    is_not e = Some e1 → is_ge e1 = Some (x, y) → is_numeral y = Some r →
    is_int x = true →
    bound_shape e false x (r - Qc_of_Z 1)%Qc
| shape_le e x y r :
    is_le e = Some (x, y) → is_numeral y = Some r →
    bound_shape e false x r
| shape_ge e x y r :
    is_ge e = Some (x, y) → is_numeral y = Some r →
    bound_shape e true x r.

(** ** Concrete collaborators and inputs

    Instances of the external collaborators and a few small inputs, used to
    run the generalizers on concrete data. *)

Module Sample.

Definition const (name : string) (s : sort) : expr :=
  mk_const (mk_func_decl (str_symbol name) OP_UNINTERPRETED [] s).

Definition lit_a : expr := const "a" bool_sort.
Definition lit_b : expr := const "b" bool_sort.
Definition lit_c : expr := const "c" bool_sort.
Definition lit_p : expr := const "p" bool_sort.
Definition lit_q : expr := const "q" bool_sort.
Definition real_x : expr := const "x" real_sort.
Definition int_x : expr := const "x" int_sort.
Definition two_real : expr := mk_numeral (Qc_of_Z 2) false.
Definition two_int : expr := mk_numeral (Qc_of_Z 2) true.

Definition P : func_decl :=
  mk_func_decl (str_symbol "P") OP_UNINTERPRETED [int_sort] bool_sort.

(** The predicate transformer of [P(x) <- P(x)]. *)
Definition pt_P : pred_transformer :=
  mk_pt P (λ _, mk_func_decl (str_symbol "x") OP_UNINTERPRETED [] int_sort)
        [mk_rule (mk_atom P [var 0 int_sort])
                 [mk_atom P [var 0 int_sort]] []].

Definition ctx_P : context := mk_context (λ _, pt_P).

Definition root : model_node := mk_node pt_P 2 None.
Definition child : model_node := mk_node pt_P 1 (Some root).

Definition w0 : world unit := mk_world tt [] [] [].
Definition w0_counting : world nat := mk_world 0 [] [] [].

(** An oracle that accepts every cube and leaves core and flag alone. *)
Definition accept_all (x : unit) (p : pred_transformer) (lvl : N)
    (core : list expr) (uses_level : bool)
  : bool * list expr * bool * unit :=
  (true, core, uses_level, x).

(** An oracle that accepts its first query only; the external state counts
    the queries.  Core and flag are left alone. *)
Definition accept_first (x : nat) (p : pred_transformer) (lvl : N)
    (core : list expr) (uses_level : bool)
  : bool * list expr * bool * nat :=
  (x =? 0, core, uses_level, S x).

Definition drop_true (core : list expr) : list expr :=
  filter (λ e, e ≠ mk_true) core.

(** An oracle in the style of a solver returning unsat cores: a cube is
    inductive when it contains every literal of [needed]; an accepted core
    comes back without its trivial-true literals, a rejected one
    unchanged. *)
Definition unsat_core_oracle (needed : list expr) (x : unit)
    (p : pred_transformer) (lvl : N) (core : list expr) (uses_level : bool)
  : bool * list expr * bool * unit :=
  if forallb (contains core) needed
  then (true, drop_true core, uses_level, x)
  else (false, core, uses_level, x).

(** As [unsat_core_oracle []], but an accepted cube is reported as not
    depending on the level. *)
Definition lowering_oracle (x : unit) (p : pred_transformer) (lvl : N)
    (core : list expr) (uses_level : bool)
  : bool * list expr * bool * unit :=
  (true, drop_true core, false, x).

(** An oracle with two minimal cores, [{a}] and [{b}]. *)
Definition two_cores_oracle (x : unit) (p : pred_transformer) (lvl : N)
    (core : list expr) (uses_level : bool)
  : bool * list expr * bool * unit :=
  if contains core lit_a || contains core lit_b
  then (true, drop_true core, uses_level, x)
  else (false, core, uses_level, x).

(** Modelled from the spec: [manager::mk_and] of the PDR manager, which is
    not part of the translated sources: the conjunction of a vector (the
    element itself for a singleton vector). *)
Definition mk_and (es : list expr) : expr :=
  match es with
  | [] => mk_true
  | [e] => e
  | _ => app (builtin "and" OP_AND (map (λ _, bool_sort) es) bool_sort) es
  end.

(** Modelled from the spec: [manager::mk_or], the disjunction of a vector
    ("reassemble the disjunction"). *)
Definition mk_or (es : list expr) : expr :=
  match es with
  | [] => mk_false
  | [e] => e
  | _ => app (builtin "or" OP_OR (map (λ _, bool_sort) es) bool_sort) es
  end.

(** Modelled from the spec: [manager::get_or], which "decomposes the
    top-level clause structure into disjuncts". *)
Fixpoint get_or (e : expr) : list expr :=
  match e with
  | app d args =>
      if decide (get_kind d = OP_OR) then concat (map get_or args) else [e]
  | _ => [e]
  end.

Fixpoint conjuncts (e : expr) : list expr :=
  match e with
  | app d args =>
      if decide (get_kind d = OP_AND) then concat (map conjuncts args)
      else [e]
  | _ => [e]
  end.

(** Modelled from the spec: [datalog::flatten_and], which "flattens the
    formula back into a flat literal sequence", appended to the vector. *)
Definition flatten_and (e : expr) (result : list expr) : list expr :=
  result ++ conjuncts e.

Definition propagation_formula (x : unit) (ctx : context)
    (p : pred_transformer) (lvl : N) : expr := lit_a.

(** A learner that answers every request with the single lemma [c]. *)
Definition learner_c (x : unit) (A B : expr) : bool * list expr * unit :=
  (true, [lit_c], x).

(** Term utilities and solver for the induction schema. *)
Definition o2n (d : func_decl) (i : nat) : func_decl := d.
Definition var_subst (std_order : bool) (e : expr)
    (sub : list (option expr)) : expr := e.
Definition get_free_vars (e : expr) : list (option sort) := [].
Definition expr_abstract (reps : list expr) (e : expr) : expr := e.
Definition get_formulas (x : unit) (p : pred_transformer) (lvl : N)
    (primed : bool) : expr := mk_true.
Definition smt_unsat (x : unit) (goal : expr) : lbool * unit :=
  (l_false, x).
Definition th_rewriter (e : expr) : expr := e.

End Sample.

(** ** Further contracts and views

    Used by the properties of the individual functions below. *)

Section more_contracts.
Context {ext : Type}.
Variable check_inductive :
  ext → pred_transformer → N → list expr → bool →
  bool * list expr * bool * ext.

(** The oracle only reads the core: it hands it back as it got it. *)
Definition read_only : Prop :=
  ∀ x p lvl core ul, ci_core (check_inductive x p lvl core ul) = core.

(** The oracle rejects every cube. *)
Definition rejects_all : Prop :=
  ∀ x p lvl core ul, ci_result (check_inductive x p lvl core ul) = false.

(** The oracle hands back a core of the length it got. *)
Definition keeps_length : Prop :=
  ∀ x p lvl core ul,
    length (ci_core (check_inductive x p lvl core ul)) = length core.

End more_contracts.

(** The core the literal-dropping loop holds after a sequence of logged
    calls of a run started on [core], with an oracle that hands a rejected
    core back unchanged: an accepted call leaves its core behind, a rejected
    trial is undone. *)
Definition held (core : list expr) (calls : list ind_call) : list expr :=
  foldl (λ h c, if ic_result c then ic_left c else h) core calls.

(** Literal [e] was tried and rejected in the logged calls of a run started
    on [core]: one of the calls, on transformer [p] at level [lvl], returned
    false, and the core it was handed is the core held at that moment with
    a position holding [e] overwritten by true. *)
Definition rejected_in (core : list expr) (calls : list ind_call)
    (p : pred_transformer) (lvl : N) (e : expr) : Prop :=
  ∃ pre c post i,
    calls = pre ++ c :: post
    ∧ ic_pt c = p ∧ ic_level c = lvl
    ∧ ic_result c = false
    ∧ held core pre !! i = Some e
    ∧ ic_core c = <[i := mk_true]> (held core pre).

(** Position by position, a core is the input core with some literals
    overwritten by true. *)
Definition masked (core0 core : list expr) : Prop :=
  length core = length core0
  ∧ ∀ j e, core !! j = Some e → e = mk_true ∨ core0 !! j = Some e.

(** The loop holds the core its log accounts for, everything before the
    scan position has been processed, and everything processed was rejected
    in a logged trial. *)
Definition tried {ext : Type} (n : model_node) (core0 : list expr)
    (log0 : list ind_call) (s : bool_state ext) : Prop :=
  ∃ calls,
    w_ind (bs_world s) = log0 ++ calls
    ∧ bs_core s = held core0 calls
    ∧ (∀ j e, j < bs_i s → bs_core s !! j = Some e → e ∈ bs_processed s)
    ∧ (∀ e, e ∈ bs_processed s →
            rejected_in core0 calls (pt n) (level n) e).

(** Number of trials the bool generalizer makes on a core of [n] literals
    when every trial is rejected. *)
Definition rejected_trials (m_failure_limit : N) (n : nat) : nat :=
  if (m_failure_limit =? 0)%N then n
  else n `min` S (N.to_nat m_failure_limit).

(** The (transformer, level) pairs of the queue of [mk_induction_goal],
    transformers taken by their head declaration. *)
Definition queue_keys (s : goal_state) : list (func_decl * N) :=
  zip (map head (gs_pts s)) (gs_levels s).

(** All levels of the queue fit an [unsigned]. *)
Definition levels_bounded (s : goal_state) : Prop :=
  Forall (λ l, (l < 2 ^ 32)%N) (gs_levels s).

(** An oracle that rejects every cube and leaves core and flag alone. *)
Definition reject_all (x : unit) (p : pred_transformer) (lvl : N)
    (core : list expr) (uses_level : bool)
  : bool * list expr * bool * unit :=
  (false, core, uses_level, x).

(** A learner that finds no lemma. *)
Definition learner_fails (x : unit) (A B : expr) : bool * list expr * unit :=
  (false, [], x).

(** The world after [k] interpolation requests [(A, B)] that left the
    external state alone. *)
Definition with_requests {ext : Type} (w : world ext) (k : nat) (A B : expr)
  : world ext :=
  mk_world (w_ext w) (w_ind w) (w_itp w ++ replicate k (A, B)) (w_smt w).

(** Alias substitution as a relation: a bound on value [r], under any number
    of negations, has its numeral replaced by [x]. *)
Inductive alias_rewrite (r : Qc) (x : expr) : expr → expr → Prop :=
| alias_le e y z :
    is_le e = Some (y, z) → is_numeral z = Some r →
    alias_rewrite r x e (mk_le y x)
| alias_ge e y z :
    is_ge e = Some (y, z) → is_numeral z = Some r →
    alias_rewrite r x e (mk_ge y x)
| alias_not e e1 e1' :
    is_not e = Some e1 → alias_rewrite r x e1 e1' →
    alias_rewrite r x e (mk_not e1').

(** All records carry a literal index below [n], and no index occurs both
    in the lower-bound and in the upper-bound map. *)
Definition records_indexed (n : nat) (st : arith_state) : Prop :=
  (∀ b, b ∈ bound_records st → br_index b < n)
  ∧ (∀ b1 b2, b1 ∈ bound_records st → b2 ∈ bound_records st →
              br_index b1 = br_index b2 → br_lower b1 = br_lower b2).

(** An equality entry fit for a core of [n] literals: two distinct positions
    of the core and a value of at least two. *)
Definition valid_entry (n : nat) (e : eq_entry) : Prop :=
  m_i e < n ∧ m_j e < n ∧ m_i e ≠ m_j e
  ∧ Qc_geb (m_value e) (Qc_of_Z 2) = true.

(** The part of [substitute_alias] after the test for a negation: the two
    tests for a bound on value [r]. *)
Definition alias_bound (r : Qc) (x e : expr) : option expr :=
  match '(y, z) ← is_le e; r2 ← is_numeral z;
        if decide (r = r2) then Some y else None with
  | Some y => Some (mk_le y x)
  | None =>
  match '(y, z) ← is_ge e; r2 ← is_numeral z;
        if decide (r = r2) then Some y else None with
  | Some y => Some (mk_ge y x)
  | None => None
  end end.

(** The character ['_'] (code 95). *)
Definition underscore : Ascii.ascii :=
  Ascii.Ascii true true true true true false true false.

(** Character [c] occurs in string [s]. *)
Fixpoint occurs (c : Ascii.ascii) (s : string) : Prop :=
  match s with
  | EmptyString => False
  | String a s' => a = c ∨ occurs c s'
  end.

(** The levels of the queue stay inside the depth window below the goal
    level. *)
Definition in_window (lvl0 depth : N) (s : goal_state) : Prop :=
  Forall (λ l, (l ≤ lvl0 ∧ lvl0 ≤ l + depth + 1)%N) (gs_levels s).

(** Invariant of the queue of [mk_induction_goal]: parallel vectors, no
    (transformer, level) pair twice, all levels inside the depth window. *)
Definition queue_inv (lvl0 depth : N) (s : goal_state) : Prop :=
  length (gs_pts s) = length (gs_levels s)
  ∧ NoDup (queue_keys s)
  ∧ in_window lvl0 depth s.

(** ** The induction schema, conjunct by conjunct

    The query of [mk_induction_goal] and the formula of
    [mk_blocked_transition] written out as the comments of the source and
    the specification word them, to be compared with what the code builds.
    Binding of the head arguments ([bind_args]), level predicates
    ([mk_pred]), representatives ([mk_reps]) and quantification over them
    ([bind_head]) are taken from the code. *)

(** The queue of [mk_induction_goal] as a list of (transformer, level)
    pairs. *)
Definition queue_of (s : goal_state) : list (pred_transformer * N) :=
  zip (gs_pts s) (gs_levels s).

(** The levels of the induction hypotheses: the levels of
    [level - depth, level) above 0, and none when [level < depth] (the
    unsigned lower end wraps around). *)
Definition hypothesis_levels (lvl depth : N) : list N :=
  if (depth <=? lvl)%N then
    filter (λ l, (0 < l)%N)
           (map (λ d, (lvl - depth + N.of_nat d)%N) (seq 0 (N.to_nat depth)))
  else [].

Section induction_schema.
Context {ext : Type}.
Variable mk_and : list expr → expr.
Variable o2n : func_decl → nat → func_decl.
Variable var_subst : bool → expr → list (option expr) → expr.
Variable get_free_vars : expr → list (option sort).
Variable expr_abstract : list expr → expr → expr.
Variable get_formulas : ext → pred_transformer → N → bool → expr.
Variable ctx : context.

(** The uninterpreted tail of [r] over the predicates of the previous
    level; nothing at level 0. *)
Definition tail_at_previous_level (lvl : N) (r : rule) : list expr :=
  if (0 <? lvl)%N then
    map (λ a, app (mk_pred (lvl - 1) (get_decl a)) (get_args a))
        (uninterpreted_tail r)
  else [].

(** The head bindings applied to a formula, if there are any. *)
Definition substituted (sub : list (option expr)) (e : expr) : expr :=
  match sub with
  | [] => e
  | _ => var_subst false e sub
  end.

(** Existential closure over the free variables of a formula (a variable
    without sort counts as boolean), if there are any. *)
Definition exists_closure (e : expr) : expr :=
  let sorts := get_free_vars e in
  match sorts with
  | [] => e
  | _ => mk_exists (reverse (map (default bool_sort) sorts))
                   (map (λ i, num_symbol (length sorts - i - 1))
                        (seq 0 (length sorts)))
                   e
  end.

(** [exists y . z . F[Q_{level-1}, x, y, z]]: the transition formula of one
    rule.  At level 0 a rule with an uninterpreted tail cannot fire.
    Otherwise the formula is the conjunction of the equations that bind the
    head arguments to the representatives, the uninterpreted tail over the
    predicates of the previous level and the interpreted tail verbatim,
    with the head bindings applied and the remaining variables bound. *)
Inductive transition_formula (reps : list expr) (lvl : N) (r : rule)
  : expr → Prop :=
| transition_cut :
    lvl = 0%N → uninterpreted_tail r ≠ [] →
    transition_formula reps lvl r mk_false
| transition_unfold eqs sub :
    lvl ≠ 0%N ∨ uninterpreted_tail r = [] →
    bind_args (get_head r) 0 reps [] [] = Some (eqs, sub) →
    transition_formula reps lvl r
      (exists_closure
         (substituted sub
            (mk_and (eqs ++ tail_at_previous_level lvl r
                         ++ map atom_expr (interpreted_tail r))))).

(** The transition formulas of the rules of [p] at [lvl], one per rule in
    the order of the rules. *)
Definition transitions_of (p : pred_transformer) (lvl : N)
    (trs : list expr) : Prop :=
  Forall2 (transition_formula (mk_reps o2n p) lvl) (rules p) trs.

(** [not exists y . F(x,y)]: no rule fires. *)
Definition blocked (trs : list expr) : expr := mk_and (map mk_not trs).

(** The atom [Q_lvl(x)] over the representatives of [p]. *)
Definition level_atom (p : pred_transformer) (lvl : N) : expr :=
  app (mk_pred lvl (head p)) (mk_reps o2n p).

(** [forall x . Q_lvl(x) => phi(x)] *)
Definition level_property (p : pred_transformer) (lvl : N) (phi : expr)
  : expr :=
  bind_head expr_abstract (mk_reps o2n p)
            (mk_implies (level_atom p lvl) phi).

(** [forall x . Q_lvl(x) <=> tr_1 or ... or tr_n]; the disjunction is false
    for a predicate without rules. *)
Definition level_axiom (p : pred_transformer) (lvl : N) (trs : list expr)
  : expr :=
  bind_head expr_abstract (mk_reps o2n p)
            (mk_iff (level_atom p lvl)
                    match trs with
                    | [] => mk_false
                    | tr :: rest => foldl mk_or2 tr rest
                    end).

(** The induction hypotheses: at each of the levels [lvls] the predicate
    blocks its transitions. *)
Definition hypotheses_of (p : pred_transformer) (lvls : list N)
    (hyps : list expr) : Prop :=
  Forall2 (λ l h, ∃ trs, transitions_of p l trs
                         ∧ h = level_property p l (blocked trs))
          lvls hyps.

(** What the query says about the queue entry [e]: the transition axiom of
    its transformer at its level, and the frame property
    [Q_lvl(x) => current-frame-formula(x)]. *)
Definition entry_conjuncts (x : ext) (e : pred_transformer * N)
    (cs : list expr) : Prop :=
  ∃ trs, transitions_of e.1 e.2 trs
         ∧ cs = [level_axiom e.1 e.2 trs;
                 level_property e.1 e.2 (get_formulas x e.1 e.2 true)].

(** Entry [e'] is a dependency of entry [e]: the level of [e] is above 0
    and inside the depth window below [lvl0] (the test
    [lvl + depth < level] of the source, in unsigned arithmetic, fails),
    the transformer of [e'] is the one the context keeps for an
    uninterpreted tail atom of a rule of [e], and the level of [e'] is the
    level below. *)
Definition depends_on (lvl0 depth : N) (e e' : pred_transformer * N)
  : Prop :=
  ¬ (wrap32 (Z.of_N e.2 + Z.of_N depth) < lvl0)%N
  ∧ e.2 ≠ 0%N
  ∧ e'.2 = (e.2 - 1)%N
  ∧ ∃ r a, r ∈ rules e.1 ∧ a ∈ uninterpreted_tail r
           ∧ e'.1 = get_pred_transformers ctx (get_decl a).

(** The queue is closed under dependencies as far as [worked] reaches: every
    dependency of an entry of [worked] is in the queue (for its transformer
    and level). *)
Definition covers (lvl0 depth : N) (worked queue : list (pred_transformer * N))
  : Prop :=
  ∀ e e', e ∈ worked → depends_on lvl0 depth e e' →
          ∃ e'', e'' ∈ queue ∧ same_pt e'.1 e''.1 = true ∧ e''.2 = e'.2.

(** Every entry of [more] is a dependency of an entry of [worked]. *)
Definition pulled_in (lvl0 depth : N)
    (worked more : list (pred_transformer * N)) : Prop :=
  Forall (λ e', ∃ e, e ∈ worked ∧ depends_on lvl0 depth e e') more.

(** The induction-schema query for transformer [p] at level [lvl] with
    depth [depth], where [trs] are the transition formulas of [p] at
    [lvl]: the conjunction of
    - the negated goal [not (forall x . Q_lvl(x) => blocked)],
    - the induction hypotheses for the levels of [lvl - depth, lvl) above
      0,
    - the transition axiom and the frame property of every entry of the
      queue, in queue order,
    where the queue starts with [p] at [lvl] and at the levels of the
    hypotheses, holds beyond these only dependencies of its entries, and
    holds every dependency of each of its entries. *)
Definition induction_schema (x : ext) (p : pred_transformer)
    (lvl depth : N) (trs : list expr) (goal : expr) : Prop :=
  ∃ hyps more axioms,
    let queue :=
      (p, lvl) :: map (pair p) (hypothesis_levels lvl depth) ++ more in
    hypotheses_of p (hypothesis_levels lvl depth) hyps
    ∧ pulled_in lvl depth queue more
    ∧ covers lvl depth queue queue
    ∧ Forall2 (entry_conjuncts x) queue axioms
    ∧ goal = mk_and (mk_not (level_property p lvl (blocked trs))
                       :: hyps ++ concat axioms).

(** Invariant of the queue loop of [mk_induction_goal] once [qhead]
    entries are worked off, for a loop started with the conjuncts [c0] and
    the queue [q0]. *)
Definition schema_inv (x : ext) (lvl0 depth : N) (c0 : list expr)
    (q0 : list (pred_transformer * N)) (qhead : nat) (s : goal_state)
  : Prop :=
  length (gs_pts s) = length (gs_levels s)
  ∧ Forall (λ e, (e.2 ≤ lvl0)%N) (queue_of s)
  ∧ ∃ more axioms,
      queue_of s = q0 ++ more
      ∧ pulled_in lvl0 depth (take qhead (queue_of s)) more
      ∧ covers lvl0 depth (take qhead (queue_of s)) (queue_of s)
      ∧ Forall2 (entry_conjuncts x) (take qhead (queue_of s)) axioms
      ∧ gs_conjs s = c0 ++ concat axioms.

End induction_schema.

(** * Properties *)

(** ** The literal-dropping loop *)

Section bool_generalizer_facts.
Context {ext : Type}.
Variable check_inductive :
  ext → pred_transformer → N → list expr → bool →
  bool * list expr * bool * ext.
Variable m_failure_limit : N.
Variable n : model_node.

Abbreviation body := (bool_body check_inductive n).
Abbreviation loop := (bool_loop check_inductive m_failure_limit).

Lemma bool_guard_false (s : bool_state ext) :
  bool_guard m_failure_limit s = false ↔ bool_exit m_failure_limit s.
Proof.
  unfold bool_guard, bool_exit.
  rewrite !andb_false_iff, orb_false_iff, Nat.ltb_ge, Nat.ltb_ge,
    N.eqb_neq, N.leb_gt.
  tauto.
Qed.

Lemma bool_guard_true (s : bool_state ext) :
  bool_guard m_failure_limit s = true →
  bs_i s < length (bs_core s) ∧ 1 < length (bs_core s).
Proof.
  unfold bool_guard. rewrite !andb_true_iff, !Nat.ltb_lt. tauto.
Qed.

(** What one iteration does, read off [bool_body]. *)
Lemma bool_body_inv (s s' : bool_state ext) :
  body s = Some s' →
  ∃ lit res core2 ul2 x2,
    bs_core s !! bs_i s = Some lit
    ∧ check_inductive (w_ext (bs_world s)) (pt n) (level n)
        (<[bs_i s := mk_true]> (bs_core s)) (bs_uses_level s)
      = (res, core2, ul2, x2)
    ∧ bs_world s' =
        mk_world x2
          (w_ind (bs_world s) ++
             [mk_ind_call (pt n) (level n)
                (<[bs_i s := mk_true]> (bs_core s)) res core2])
          (w_itp (bs_world s)) (w_smt (bs_world s))
    ∧ bs_uses_level s' = ul2
    ∧ ((res = true ∧ bs_core s' = core2
        ∧ bs_i s' = skip_processed (bs_processed s) core2
        ∧ bs_num_failures s' = 0%N
        ∧ bs_processed s' = bs_processed s)
       ∨ (res = false ∧ bs_i s < length core2
          ∧ bs_core s' = <[bs_i s := lit]> core2
          ∧ bs_i s' = S (bs_i s)
          ∧ bs_processed s' = bs_processed s ++ [lit])).
Proof.
  unfold bool_body, call_check_inductive.
  destruct (bs_core s !! bs_i s) as [lit|] eqn:Hlit; simpl; [|done].
  destruct (check_inductive _ _ _ _ _) as [[[res core2] ul2] x2] eqn:Hci.
  destruct res.
  - intros [= <-]. exists lit, true, core2, ul2, x2. simpl. naive_solver.
  - destruct (bs_i s <? length core2) eqn:Hlt; [|done].
    apply Nat.ltb_lt in Hlt.
    intros [= <-]. exists lit, false, core2, ul2, x2. simpl. naive_solver.
Qed.

Lemma skip_processed_le (processed core : list expr) :
  skip_processed processed core ≤ length core.
Proof.
  induction core as [|e core IH]; simpl; [lia|].
  destruct (contains processed e); simpl; lia.
Qed.

(** Under the two oracle contracts an iteration neither faults nor fails
    to make progress. *)
Lemma bool_body_progress (s : bool_state ext) :
  shrinks_on_success check_inductive →
  keeps_on_failure check_inductive →
  bool_guard m_failure_limit s = true →
  ∃ s', body s = Some s' ∧ bool_measure s' < bool_measure s.
Proof.
  intros Hshrink Hkeep [Hi Hlen]%bool_guard_true.
  destruct (lookup_lt_is_Some_2 _ _ Hi) as [lit Hlit].
  unfold bool_body, call_check_inductive. rewrite Hlit. simpl.
  pose proof (Hshrink (w_ext (bs_world s)) (pt n) (level n)
                (<[bs_i s := mk_true]> (bs_core s)) (bs_uses_level s))
    as Hs.
  pose proof (Hkeep (w_ext (bs_world s)) (pt n) (level n)
                (<[bs_i s := mk_true]> (bs_core s)) (bs_uses_level s))
    as Hk.
  destruct (check_inductive _ _ _ _ _) as [[[res core2] ul2] x2].
  unfold ci_result, ci_core in Hs, Hk. simpl in Hs, Hk.
  destruct res.
  - eexists; split; [done|].
    unfold bool_measure. simpl.
    assert (length core2 < length (bs_core s)) as Hlt.
    { rewrite length_insert in Hs. apply Hs; [|done].
      apply list_elem_of_lookup. exists (bs_i s).
      by apply list_lookup_insert_eq. }
    pose proof (skip_processed_le (bs_processed s) core2). nia.
  - rewrite (Hk eq_refl), length_insert.
    apply Nat.ltb_lt in Hi as Hi'. rewrite Hi'.
    eexists; split; [done|].
    unfold bool_measure. simpl. rewrite !length_insert. lia.
Qed.

Lemma bool_loop_fuel_mono (fuel k : nat) (s s' : bool_state ext) :
  loop fuel n s = Done s' → loop (fuel + k) n s = Done s'.
Proof.
  revert s. induction fuel as [|fuel IH]; intros s; simpl.
  - destruct (bool_guard m_failure_limit s) eqn:Hg; [done|].
    intros [= <-]. destruct k; simpl; by rewrite Hg.
  - destruct (bool_guard m_failure_limit s); [|done].
    destruct (body s); [|done]. apply IH.
Qed.

Lemma bool_loop_finishes (fuel : nat) (s : bool_state ext) :
  shrinks_on_success check_inductive →
  keeps_on_failure check_inductive →
  bool_measure s < fuel →
  ∃ s', loop fuel n s = Done s' ∧ bool_guard m_failure_limit s' = false.
Proof.
  intros Hshrink Hkeep. revert s.
  induction fuel as [|fuel IH]; intros s Hm; [lia|]. simpl.
  destruct (bool_guard m_failure_limit s) eqn:Hg; [|by exists s].
  destruct (bool_body_progress s Hshrink Hkeep Hg) as (s1 & -> & Hlt).
  apply IH. lia.
Qed.

(** Invariants of the loop are invariants of its iterations. *)
Lemma bool_loop_invariant (I : bool_state ext → Prop) :
  (∀ s s', bool_guard m_failure_limit s = true →
           body s = Some s' → I s → I s') →
  ∀ fuel s s', loop fuel n s = Done s' → I s → I s'.
Proof.
  intros Hstep fuel. induction fuel as [|fuel IH]; intros s s'; simpl.
  - destruct (bool_guard m_failure_limit s); [done|]. by intros [= <-].
  - destruct (bool_guard m_failure_limit s) eqn:Hg; [|by intros [= <-]].
    destruct (body s) as [s1|] eqn:Hb; [|done].
    intros Hl Hs. eapply IH; [done|]. by eapply Hstep.
Qed.

End bool_generalizer_facts.

Section bool_generalizer_subcore.
Context {ext : Type}.
Variable check_inductive :
  ext → pred_transformer → N → list expr → bool →
  bool * list expr * bool * ext.

(** A true-free sub-multiset of a trial core is a sub-multiset of the core
    the trial was built from. *)
Lemma subcore_of_trial (core core2 : list expr) (i : nat) (lit : expr) :
  core !! i = Some lit →
  core2 ⊆+ <[i := mk_true]> core →
  mk_true ∉ core2 →
  core2 ⊆+ core.
Proof.
  intros Hlit Hsub Hnt.
  rewrite insert_take_drop in Hsub by eauto using lookup_lt_Some.
  rewrite <- Permutation_middle in Hsub.
  apply submseteq_cons_r in Hsub as [Hsub|(k & Hk & _)].
  - rewrite <- (take_drop_middle core i lit Hlit).
    etrans; [exact Hsub|].
    by apply submseteq_app; [|constructor].
  - destruct Hnt. rewrite Hk. by left.
Qed.

Lemma returns_subcore_shrinks :
  returns_subcore check_inductive → shrinks_on_success check_inductive.
Proof.
  intros Hsub x p lvl core ul Hin Hres.
  destruct (Hsub x p lvl core ul Hres) as [Hle Hnt].
  set (core2 := ci_core (check_inductive x p lvl core ul)) in *.
  clearbody core2.
  apply elem_of_Permutation in Hin as [k Hk].
  rewrite (Permutation_length Hk). rewrite Hk in Hle.
  apply submseteq_cons_r in Hle as [Hle|(k' & Hk' & _)].
  - apply submseteq_length in Hle. simpl. lia.
  - destruct Hnt. rewrite Hk'. by left.
Qed.

Lemma bool_body_submseteq (n : model_node) (core0 : list expr)
    (s s' : bool_state ext) :
  returns_subcore check_inductive →
  keeps_on_failure check_inductive →
  bool_body check_inductive n s = Some s' →
  bs_core s ⊆+ core0 → bs_core s' ⊆+ core0.
Proof.
  intros Hsub Hkeep
    (lit & res & core2 & ul2 & x2 & Hlit & Hci & _ & _ & Hcase)%bool_body_inv
    Hinv.
  pose proof (Hsub (w_ext (bs_world s)) (pt n) (level n)
                (<[bs_i s := mk_true]> (bs_core s)) (bs_uses_level s))
    as Hs.
  pose proof (Hkeep (w_ext (bs_world s)) (pt n) (level n)
                (<[bs_i s := mk_true]> (bs_core s)) (bs_uses_level s))
    as Hk.
  rewrite Hci in Hs, Hk. unfold ci_result, ci_core in Hs, Hk.
  simpl in Hs, Hk.
  destruct Hcase as [(-> & -> & _)|(-> & _ & -> & _)].
  - destruct (Hs eq_refl) as [Hle Hnt].
    etrans; [|exact Hinv]. by eapply subcore_of_trial.
  - rewrite (Hk eq_refl), list_insert_insert_eq, list_insert_id; done.
Qed.

Lemma bool_generalizer_fuel (m_failure_limit : N) (n : model_node)
    (core : list expr) (uses_level : bool) (w : world ext) :
  shrinks_on_success check_inductive →
  keeps_on_failure check_inductive →
  ∃ fuel0 r,
    ∀ fuel, fuel0 ≤ fuel →
      core_bool_inductive_generalizer check_inductive m_failure_limit fuel
        n core uses_level w = Done r.
Proof.
  intros Hshrink Hkeep. unfold core_bool_inductive_generalizer.
  destruct (length core <=? 1); [by exists 0, (core, uses_level, w)|].
  set (s0 := mk_bool_state core uses_level w 0 0%N []).
  destruct (bool_loop_finishes check_inductive m_failure_limit n
              (S (bool_measure s0)) s0 Hshrink Hkeep) as (s' & Hl & _);
    [lia|].
  exists (S (bool_measure s0)),
    (bs_core s', bs_uses_level s', bs_world s').
  intros fuel Hfuel.
  replace fuel with (S (bool_measure s0) + (fuel - S (bool_measure s0)))
    by lia.
  by rewrite (bool_loop_fuel_mono _ _ _ _ _ _ _ Hl).
Qed.

(** Whatever the budget, a finished run is the run of the loop. *)
Lemma bool_generalizer_inv (m_failure_limit : N) (fuel : nat)
    (n : model_node) (core : list expr) (uses_level : bool) (w : world ext)
    (r : core_state ext) :
  core_bool_inductive_generalizer check_inductive m_failure_limit fuel
    n core uses_level w = Done r →
  r = (core, uses_level, w)
  ∨ ∃ s', bool_loop check_inductive m_failure_limit fuel n
            (mk_bool_state core uses_level w 0 0%N []) = Done s'
          ∧ r = (bs_core s', bs_uses_level s', bs_world s').
Proof.
  unfold core_bool_inductive_generalizer.
  destruct (length core <=? 1); [intros [= <-]; by left|].
  destruct (bool_loop _ _ _ _ _) as [s'| |]; simpl; [|done..].
  intros [= <-]. right. by exists s'.
Qed.

End bool_generalizer_subcore.

(** *** The sample oracles and the contracts *)

Lemma unsat_core_oracle_shrinks (needed : list expr) :
  shrinks_on_success (Sample.unsat_core_oracle needed).
Proof.
  intros x p lvl core ul Hin. unfold Sample.unsat_core_oracle.
  destruct (forallb _ _); unfold ci_result, ci_core; simpl; [|done].
  intros _. apply (length_filter_lt _ _ mk_true); [done|]. by intros [].
Qed.

Lemma unsat_core_oracle_keeps (needed : list expr) :
  keeps_on_failure (Sample.unsat_core_oracle needed).
Proof.
  intros x p lvl core ul. unfold Sample.unsat_core_oracle.
  by destruct (forallb _ _).
Qed.

Lemma unsat_core_oracle_subcore (needed : list expr) :
  returns_subcore (Sample.unsat_core_oracle needed).
Proof.
  intros x p lvl core ul. unfold Sample.unsat_core_oracle.
  destruct (forallb _ _); unfold ci_result, ci_core; simpl; [|done].
  intros _. split.
  - apply sublist_submseteq, sublist_filter.
  - unfold Sample.drop_true. rewrite list_elem_of_filter. by intros [[] _].
Qed.

Lemma unsat_core_oracle_never_lowers (needed : list expr) :
  never_lowers (Sample.unsat_core_oracle needed).
Proof.
  intros x p lvl core. unfold Sample.unsat_core_oracle.
  by destruct (forallb _ _).
Qed.

(** With an oracle that accepts without touching the core, the state reached
    after the first accepted drop repeats itself forever. *)
Lemma accept_all_spins (fuel : nat) (w : world ()) :
  bool_loop Sample.accept_all 0 fuel Sample.child
    (mk_bool_state [mk_true; Sample.lit_b] false w 0 0%N []) = OutOfFuel.
Proof.
  revert w. induction fuel as [|fuel IH]; intros w; [done|].
  simpl. apply IH.
Qed.

(** ** Which cores are committed, and what happens to the flag *)

Section commit_facts.
Context {ext : Type}.
Variable check_inductive :
  ext → pred_transformer → N → list expr → bool →
  bool * list expr * bool * ext.

Lemma accepted_in_app (calls more : list ind_call) p lvl core :
  accepted_in calls p lvl core → accepted_in (calls ++ more) p lvl core.
Proof.
  intros (c & Hc & H). exists c. split; [|done].
  apply elem_of_app. by left.
Qed.

Lemma accepted_in_last (calls : list ind_call) p lvl core core' :
  accepted_in (calls ++ [mk_ind_call p lvl core true core']) p lvl core'.
Proof.
  exists (mk_ind_call p lvl core true core'). split; [|done].
  apply elem_of_app. right. by left.
Qed.

Lemma bool_body_committed (n : model_node) (core0 : list expr)
    (w0 : world ext) (s s' : bool_state ext) :
  keeps_on_failure check_inductive →
  bool_body check_inductive n s = Some s' →
  committed n core0 w0 (bs_core s) (bs_world s) →
  committed n core0 w0 (bs_core s') (bs_world s').
Proof.
  intros Hkeep
    (lit & res & core2 & ul2 & x2 & Hlit & Hci & Hw & _ & Hcase)%bool_body_inv
    (calls & Hlog & Hinv).
  pose proof (Hkeep (w_ext (bs_world s)) (pt n) (level n)
                (<[bs_i s := mk_true]> (bs_core s)) (bs_uses_level s))
    as Hk.
  rewrite Hci in Hk. unfold ci_result, ci_core in Hk. simpl in Hk.
  eexists. split.
  { rewrite Hw. simpl. rewrite Hlog, <- app_assoc. reflexivity. }
  destruct Hcase as [(-> & -> & _)|(-> & _ & -> & _)].
  - right. apply accepted_in_last.
  - rewrite (Hk eq_refl), list_insert_insert_eq, list_insert_id by done.
    destruct Hinv as [?|?]; [by left|right]. by apply accepted_in_app.
Qed.

Lemma bool_generalizer_committed (m_failure_limit : N) (fuel : nat)
    (n : model_node) (core : list expr) (uses_level : bool) (w : world ext)
    (out : list expr) (ul' : bool) (w' : world ext) :
  keeps_on_failure check_inductive →
  core_bool_inductive_generalizer check_inductive m_failure_limit fuel
    n core uses_level w = Done (out, ul', w') →
  committed n core w out w'.
Proof.
  intros Hkeep [[= -> -> ->]|(s' & Hl & [= -> -> ->])]%bool_generalizer_inv.
  - exists []. rewrite app_nil_r. by split; [|left].
  - eapply (bool_loop_invariant check_inductive m_failure_limit n
              (λ s, committed n core w (bs_core s) (bs_world s)));
      [|exact Hl|].
    + intros s1 s2 _. by apply bool_body_committed.
    + exists []. simpl. rewrite app_nil_r. by split; [|left].
Qed.

Lemma bool_generalizer_flag (m_failure_limit : N) (fuel : nat)
    (n : model_node) (core : list expr) (w : world ext)
    (out : list expr) (ul' : bool) (w' : world ext) :
  never_lowers check_inductive →
  core_bool_inductive_generalizer check_inductive m_failure_limit fuel
    n core true w = Done (out, ul', w') →
  ul' = true.
Proof.
  intros Hmono [[= _ <- _]|(s' & Hl & [= _ -> _])]%bool_generalizer_inv;
    [done|].
  eapply (bool_loop_invariant check_inductive m_failure_limit n
            (λ s, bs_uses_level s = true)); [|exact Hl|done].
  intros s1 s2 _
    (lit & res & core2 & ul2 & x2 & _ & Hci & _ & -> & _)%bool_body_inv Hul.
  rewrite Hul in Hci.
  pose proof (Hmono (w_ext (bs_world s1)) (pt n) (level n)
                (<[bs_i s1 := mk_true]> (bs_core s1))) as Hf.
  by rewrite Hci in Hf.
Qed.

(** *** The arithmetic generalizer *)

Lemma arith_loop_committed (n : model_node) (core0 : list expr)
    (w0 : world ext) (eqs : list eq_entry) (core : list expr)
    (uses_level : bool) (w : world ext)
    (out : list expr) (ul' : bool) (w' : world ext) :
  arith_loop check_inductive n eqs core uses_level w = Done (out, ul', w') →
  committed n core0 w0 core w →
  committed n core0 w0 out w'.
Proof.
  revert core uses_level w.
  induction eqs as [|e eqs IH]; intros core uses_level w; simpl.
  { by intros [= -> -> ->]. }
  destruct (arith_new_core _ _ _ _ _) as [new_core|]; [|done].
  unfold call_check_inductive.
  destruct (check_inductive _ _ _ _ _) as [[[res core2] ul2] x2].
  intros Hl (calls & Hlog & Hinv). eapply IH; [exact Hl|].
  eexists. split.
  { simpl. rewrite Hlog, <- app_assoc. reflexivity. }
  destruct res.
  - right. apply accepted_in_last.
  - destruct Hinv as [?|?]; [by left|right]. by apply accepted_in_app.
Qed.

Lemma arith_loop_flag (n : model_node) (eqs : list eq_entry)
    (core : list expr) (w : world ext)
    (out : list expr) (ul' : bool) (w' : world ext) :
  never_lowers check_inductive →
  arith_loop check_inductive n eqs core true w = Done (out, ul', w') →
  ul' = true.
Proof.
  intros Hmono. revert core w.
  induction eqs as [|e eqs IH]; intros core w; simpl.
  { by intros [= _ <- _]. }
  destruct (arith_new_core _ _ _ _ _) as [new_core|]; [|done].
  unfold call_check_inductive.
  pose proof (Hmono (w_ext w) (pt n) (level n) new_core) as Hf.
  destruct (check_inductive _ _ _ _ _) as [[[res core2] ul2] x2].
  unfold ci_flag in Hf. simpl in Hf. subst ul2. apply IH.
Qed.

(** *** The multi-core generalizer *)

(** The loop over [old_core] never runs: the result is the first minimized
    core alone. *)
Lemma multi_generalizer_unfold (m_failure_limit : N) (fuel : nat)
    (n : model_node) (core : list expr) (uses_level : bool)
    (new_cores : cores) (w : world ext) :
  core_multi_generalizer check_inductive m_failure_limit fuel n core
    uses_level new_cores w
  = match core_bool_inductive_generalizer check_inductive m_failure_limit
            fuel n core uses_level w with
    | Done (core0, uses_level1, w1) =>
        Done (new_cores ++ [(core0, uses_level1)], w1)
    | OutOfRange => OutOfRange
    | OutOfFuel => OutOfFuel
    end.
Proof.
  unfold core_multi_generalizer.
  by destruct (core_bool_inductive_generalizer _ _ _ _ _ _ _)
    as [[[core0 ul1] w1]| |].
Qed.

End commit_facts.

(** *** The Farkas generalizer *)

Section farkas_facts.
Context {ext : Type}.
Variable mk_and : list expr → expr.
Variable mk_or : list expr → expr.
Variable get_or : expr → list expr.
Variable flatten_and : expr → list expr → list expr.
Variable get_propagation_formula :
  ext → context → pred_transformer → N → expr.
Variable get_lemma_guesses : ext → expr → expr → bool * list expr * ext.

Abbreviation farkas_step := (farkas_body mk_and get_lemma_guesses).

(** Every request of the loop names the whole conjunction [B] as its
    second argument, whichever disjunct is current; the inductiveness
    oracle and the SMT kernel are not called. *)
Lemma farkas_fold_logs (A B : expr) (idxs : list nat)
    (s : farkas_state ext) :
  let s' := foldl (farkas_step A B) s idxs in
  w_itp (fs_world s')
    = w_itp (fs_world s) ++ replicate (length idxs) (A, B)
  ∧ w_ind (fs_world s') = w_ind (fs_world s)
  ∧ w_smt (fs_world s') = w_smt (fs_world s)
  ∧ length (fs_Bs s') = length (fs_Bs s).
Proof.
  revert s. induction idxs as [|i idxs IH]; intros s; simpl.
  { by rewrite app_nil_r. }
  destruct (IH (farkas_step A B s i)) as (-> & -> & -> & ->).
  unfold farkas_body, call_get_lemma_guesses.
  destruct (get_lemma_guesses _ _ _) as [[ok lemmas] x'].
  destruct ok; simpl; rewrite <- app_assoc, ?length_insert; done.
Qed.

Lemma farkas_generalizer_logs (ctx : context) (n : model_node)
    (core : list expr) (uses_level : bool) (w : world ext) :
  let '(out, ul', w') :=
    core_farkas_generalizer mk_and mk_or get_or flatten_and
      get_propagation_formula get_lemma_guesses ctx n core uses_level w in
  w_ind w' = w_ind w
  ∧ (uses_level = true → ul' = true)
  ∧ ∀ req, req ∈ w_itp w' → req ∈ w_itp w ∨ req.2 = mk_and core.
Proof.
  unfold core_farkas_generalizer.
  destruct core as [|e core]; [by auto|].
  set (B := mk_and (e :: core)).
  set (A := get_propagation_formula _ _ _ _).
  destruct (farkas_fold_logs A B (seq 0 (length (get_or B)))
              (mk_farkas_state (get_or B) None false w))
    as (Hitp & Hind & _ & _).
  simpl in Hitp, Hind.
  assert (∀ req, req ∈ w_itp w ++ replicate (length (seq 0 (length (get_or B)))) (A, B) →
                 req ∈ w_itp w ∨ req.2 = B) as Hreq.
  { intros req [?|[-> _]%elem_of_replicate]%elem_of_app; auto. }
  destruct (fs_change _); rewrite Hitp, Hind; auto.
Qed.

End farkas_facts.

(** ** The induction schema *)

Lemma ih_levels_eq (lvl depth : N) :
  (lvl < 2 ^ 32)%N → (depth < 2 ^ 32)%N →
  ih_levels lvl depth
  = if (depth <=? lvl)%N
    then map (λ d, (lvl - depth + N.of_nat d)%N) (seq 0 (N.to_nat depth))
    else [].
Proof.
  change (2 ^ 32)%N with 4294967296%N. intros Hl Hd.
  unfold ih_levels, wrap32. change (2 ^ 32)%Z with 4294967296%Z.
  destruct (N.leb_spec depth lvl) as [Hle|Hlt].
  - rewrite Z.mod_small by lia.
    replace (Z.to_N (Z.of_N lvl - Z.of_N depth)) with (lvl - depth)%N by lia.
    by replace (lvl - (lvl - depth))%N with depth by lia.
  - replace ((Z.of_N lvl - Z.of_N depth) mod 4294967296)%Z
      with (Z.of_N lvl - Z.of_N depth + 4294967296)%Z.
    + by replace (N.to_nat (lvl - Z.to_N (Z.of_N lvl - Z.of_N depth
                                           + 4294967296))) with 0 by lia.
    + apply (Z.mod_unique_pos _ _ (-1)); lia.
Qed.

Section induction_facts.
Context {ext : Type}.
Variable mk_and : list expr → expr.
Variable o2n : func_decl → nat → func_decl.
Variable var_subst : bool → expr → list (option expr) → expr.
Variable get_free_vars : expr → list (option sort).
Variable expr_abstract : list expr → expr → expr.
Variable get_formulas : ext → pred_transformer → N → bool → expr.
Variable smt_check : ext → expr → lbool * ext.
Variable ctx : context.

Abbreviation transition_rule :=
  (mk_transition_rule mk_and var_subst get_free_vars).
Abbreviation transition_axiom :=
  (mk_transition_axiom mk_and o2n var_subst get_free_vars expr_abstract).
Abbreviation blocked_transition :=
  (mk_blocked_transition mk_and o2n var_subst get_free_vars).
Abbreviation predicate_property :=
  (mk_predicate_property o2n expr_abstract).
Abbreviation queue_body :=
  (transitions_body mk_and o2n var_subst get_free_vars expr_abstract
     get_formulas ctx).
Abbreviation queue_loop :=
  (transitions_loop mk_and o2n var_subst get_free_vars expr_abstract
     get_formulas ctx).
Abbreviation induction_goal :=
  (mk_induction_goal mk_and o2n var_subst get_free_vars expr_abstract
     get_formulas ctx).

Lemma length_mk_reps (p : pred_transformer) :
  length (mk_reps o2n p) = get_arity (head p).
Proof. unfold mk_reps. by rewrite length_map, length_seq. Qed.

Lemma bind_args_is_Some (atom : app_atom) (todo : list expr)
    (i : nat) (conjs : list expr) (sub : list (option expr)) :
  i + length todo ≤ length (get_args atom) →
  is_Some (bind_args atom i todo conjs sub).
Proof.
  revert i conjs sub.
  induction todo as [|rep todo IH]; intros i conjs sub Hlen; simpl.
  { by eexists. }
  simpl in Hlen.
  destruct (lookup_lt_is_Some_2 (get_args atom) i) as [arg ->]; [lia|].
  simpl.
  destruct arg as [idx srt|d args|q ss ns b];
    [|apply IH; lia|apply IH; lia].
  destruct (_ !! idx) as [[t|]|]; apply IH; lia.
Qed.

Lemma mk_transition_rule_is_Some (reps : list expr) (lvl : N) (r : rule) :
  length reps ≤ length (get_args (get_head r)) →
  is_Some (transition_rule reps lvl r).
Proof.
  intros Hlen. unfold mk_transition_rule.
  destruct (_ && _); [by eexists|].
  destruct (bind_args_is_Some (get_head r) reps 0 [] [])
    as [[conjs sub] ->]; [simpl; lia|].
  simpl. by eexists.
Qed.

Lemma mapM_transition_rule_is_Some (p : pred_transformer) (lvl : N) :
  wf_pt p →
  is_Some (mapM (transition_rule (mk_reps o2n p) lvl) (rules p)).
Proof.
  intros Hwf. apply mapM_is_Some_2.
  eapply Forall_impl; [exact Hwf|].
  intros r Hr. apply mk_transition_rule_is_Some.
  by rewrite length_mk_reps.
Qed.

Lemma mk_transition_axiom_is_Some (p : pred_transformer) (lvl : N) :
  wf_pt p → is_Some (transition_axiom p lvl).
Proof.
  intros Hwf. unfold mk_transition_axiom.
  destruct (mapM_transition_rule_is_Some p lvl Hwf) as [trs ->].
  by eexists.
Qed.

Lemma mk_blocked_transition_is_Some (p : pred_transformer) (lvl : N) :
  wf_pt p → is_Some (blocked_transition p lvl).
Proof.
  intros Hwf. unfold mk_blocked_transition.
  destruct (mapM_transition_rule_is_Some p lvl Hwf) as [trs ->].
  by eexists.
Qed.

(** *** The queue only grows by bounded weight *)

Lemma weight_pos (lvl : nat) (p : pred_transformer) : 0 < weight ctx lvl p.
Proof. destruct lvl; simpl; lia. Qed.

Lemma queue_weight_app (p1 p2 : list pred_transformer) (l1 l2 : list N) :
  length p1 = length l1 →
  queue_weight ctx (p1 ++ p2) (l1 ++ l2)
  = queue_weight ctx p1 l1 + queue_weight ctx p2 l2.
Proof.
  intros Hlen. unfold queue_weight.
  by rewrite zip_with_app, sum_list_with_app.
Qed.

Lemma extends_refl (s : goal_state) : extends ctx s s 0.
Proof. exists [], []. by rewrite !app_nil_r. Qed.

Lemma extends_trans (s1 s2 s3 : goal_state) (b1 b2 : nat) :
  extends ctx s1 s2 b1 → extends ctx s2 s3 b2 →
  extends ctx s1 s3 (b1 + b2).
Proof.
  intros (ep1 & el1 & Hp1 & Hl1 & Hlen1 & Hwf1 & Hw1)
         (ep2 & el2 & Hp2 & Hl2 & Hlen2 & Hwf2 & Hw2).
  exists (ep1 ++ ep2), (el1 ++ el2).
  rewrite Hp2, Hp1, Hl2, Hl1, <- !app_assoc, !length_app.
  rewrite queue_weight_app by done.
  rewrite Forall_app. repeat split; auto; lia.
Qed.

Lemma enqueue_tail_extends (lvl : N) (s : goal_state) (atom : app_atom) :
  wf_context ctx →
  extends ctx s (enqueue_tail ctx lvl s atom)
    (weight ctx (N.to_nat (lvl - 1))
       (get_pred_transformers ctx (get_decl atom))).
Proof.
  intros Hctx. unfold enqueue_tail.
  destruct (existsb _ _).
  - exists [], []. rewrite !app_nil_r. repeat split; auto.
    unfold queue_weight. simpl. lia.
  - eexists [_], [_]. simpl. repeat split; auto.
    unfold queue_weight. simpl. lia.
Qed.

Lemma enqueue_tails_extends (lvl : N) (tails : list app_atom)
    (s : goal_state) :
  wf_context ctx →
  extends ctx s (foldl (enqueue_tail ctx lvl) s tails)
    (sum_list
       (map (λ a, weight ctx (N.to_nat (lvl - 1))
                    (get_pred_transformers ctx (get_decl a))) tails)).
Proof.
  intros Hctx. revert s.
  induction tails as [|a tails IH]; intros s; simpl.
  { apply extends_refl. }
  eapply extends_trans; [by apply enqueue_tail_extends|apply IH].
Qed.

Lemma enqueue_rules_extends (lvl : N) (rs : list rule) (s : goal_state) :
  wf_context ctx →
  extends ctx s
    (foldl (λ s (r : rule),
              foldl (enqueue_tail ctx lvl) s (uninterpreted_tail r)) s rs)
    (sum_list
       (map (λ r, sum_list
                    (map (λ a, weight ctx (N.to_nat (lvl - 1))
                                 (get_pred_transformers ctx (get_decl a)))
                         (uninterpreted_tail r))) rs)).
Proof.
  intros Hctx. revert s.
  induction rs as [|r rs IH]; intros s; simpl.
  { apply extends_refl. }
  eapply extends_trans; [by apply enqueue_tails_extends|apply IH].
Qed.

Lemma enqueue_rules_conjs (lvl : N) (rs : list rule) (s : goal_state) :
  gs_conjs (foldl (λ s (r : rule),
                     foldl (enqueue_tail ctx lvl) s (uninterpreted_tail r))
                  s rs) = gs_conjs s.
Proof.
  revert s. induction rs as [|r rs IH]; intros s; simpl; [done|].
  rewrite IH. generalize (uninterpreted_tail r). clear.
  intros tails. revert s.
  induction tails as [|a tails IH]; intros s; simpl; [done|].
  rewrite IH. unfold enqueue_tail. by destruct (existsb _ _).
Qed.

Lemma extends_queue_ok (s s' : goal_state) (b : nat) :
  queue_ok s → extends ctx s s' b → queue_ok s'.
Proof.
  intros [Hlen Hwf] (ep & el & Hp & Hl & Hlen' & Hwf' & _).
  unfold queue_ok. rewrite Hp, Hl, !length_app, Forall_app.
  split; [lia|done].
Qed.

(** One step of the queue loop on a well-formed queue: it does not fault
    and what it enqueues weighs less than the entry it consumed. *)
Lemma transitions_body_progress (x : ext) (lvl0 depth : N) (qhead : nat)
    (s : goal_state) :
  wf_context ctx →
  queue_ok s →
  qhead < length (gs_pts s) →
  ∃ s', queue_body x lvl0 depth qhead s = Some s'
        ∧ queue_ok s'
        ∧ remaining ctx (S qhead) s' < remaining ctx qhead s.
Proof.
  intros Hctx [Hlen Hwf] Hq.
  destruct (lookup_lt_is_Some_2 (gs_pts s) qhead Hq) as [qt Hqt].
  destruct (lookup_lt_is_Some_2 (gs_levels s) qhead) as [lvl Hlvl]; [lia|].
  assert (wf_pt qt) as Hwfq.
  { eapply Forall_lookup_1; [exact Hwf|exact Hqt]. }
  destruct (mk_transition_axiom_is_Some qt lvl Hwfq) as [ax Hax].
  unfold transitions_body. rewrite Hqt, Hlvl. simpl. rewrite Hax. simpl.
  set (s1 := mk_goal_state _ (gs_pts s) (gs_levels s)).
  assert (remaining ctx qhead s
          = weight ctx (N.to_nat lvl) qt + remaining ctx (S qhead) s)
    as Hrem.
  { unfold remaining, queue_weight.
    by rewrite (drop_S _ _ _ Hqt), (drop_S _ _ _ Hlvl). }
  assert (∀ s' b, extends ctx s1 s' b → b < weight ctx (N.to_nat lvl) qt →
                  queue_ok s'
                  ∧ remaining ctx (S qhead) s' < remaining ctx qhead s)
    as Hext.
  { intros s' b Hs' Hb. split.
    - eapply extends_queue_ok; [|exact Hs']. by split.
    - destruct Hs' as (ep & el & Hp & Hl & Hlen' & _ & Hw).
      simpl in Hp, Hl. rewrite Hrem. unfold remaining.
      rewrite Hp, Hl, !drop_app_le by lia.
      rewrite queue_weight_app by (rewrite !length_drop; lia).
      fold (remaining ctx (S qhead) s). lia. }
  destruct (_ || _) eqn:Hstop.
  - eexists. split; [done|].
    apply (Hext s1 0); [apply extends_refl|apply weight_pos].
  - eexists. split; [done|].
    apply orb_false_iff in Hstop as [_ Hnz%N.eqb_neq].
    eapply Hext; [by apply enqueue_rules_extends|].
    replace (N.to_nat lvl) with (S (N.to_nat (lvl - 1))) by lia.
    simpl. lia.
Qed.

Lemma transitions_loop_terminates (x : ext) (lvl0 depth : N) (fuel : nat)
    (qhead : nat) (s : goal_state) :
  wf_context ctx →
  queue_ok s →
  remaining ctx qhead s ≤ fuel →
  ∃ s', queue_loop x lvl0 depth fuel qhead s = Done s'.
Proof.
  intros Hctx. revert qhead s.
  induction fuel as [|fuel IH]; intros qhead s Hok Hrem; simpl.
  - destruct (qhead <? length (gs_pts s)) eqn:Hq; [|by eexists].
    apply Nat.ltb_lt in Hq.
    destruct (transitions_body_progress x lvl0 depth qhead s Hctx Hok Hq)
      as (s' & _ & _ & Hlt). lia.
  - destruct (qhead <? length (gs_pts s)) eqn:Hq; [|by eexists].
    apply Nat.ltb_lt in Hq.
    destruct (transitions_body_progress x lvl0 depth qhead s Hctx Hok Hq)
      as (s' & -> & Hok' & Hlt).
    apply IH; [done|lia].
Qed.

Lemma transitions_loop_fuel_mono (x : ext) (lvl0 depth : N) (fuel k : nat)
    (qhead : nat) (s s' : goal_state) :
  queue_loop x lvl0 depth fuel qhead s = Done s' →
  queue_loop x lvl0 depth (fuel + k) qhead s = Done s'.
Proof.
  revert qhead s. induction fuel as [|fuel IH]; intros qhead s; simpl.
  - destruct (qhead <? length (gs_pts s)) eqn:Hq; [done|].
    intros [= <-]. destruct k; simpl; by rewrite Hq.
  - destruct (qhead <? length (gs_pts s)); [|done].
    destruct (queue_body _ _ _ _ _); [|done]. apply IH.
Qed.

(** *** The goal is always built *)

Lemma add_hypotheses_ok (p : pred_transformer) (lvls : list N)
    (s : goal_state) :
  wf_pt p → queue_ok s →
  ∃ s', foldl (add_hypothesis mk_and o2n var_subst get_free_vars
                 expr_abstract p) (Some s) lvls = Some s'
        ∧ queue_ok s'.
Proof.
  intros Hwf. revert s.
  induction lvls as [|lvl lvls IH]; intros s Hok; simpl; [by exists s|].
  destruct (0 <? lvl)%N; [|by apply IH].
  destruct (mk_blocked_transition_is_Some p lvl Hwf) as [psi ->]. simpl.
  apply IH. destruct Hok as [Hlen Hok]. split; simpl.
  - rewrite !length_app. simpl. lia.
  - apply Forall_app. split; [done|by constructor].
Qed.

Lemma mk_induction_goal_total (x : ext) (p : pred_transformer)
    (lvl depth : N) :
  wf_context ctx → wf_pt p →
  ∃ fuel0 goal,
    ∀ fuel, fuel0 ≤ fuel → induction_goal x fuel p lvl depth = Done goal.
Proof.
  intros Hctx Hwf. unfold mk_induction_goal.
  destruct (mk_blocked_transition_is_Some p lvl Hwf) as [phi ->]. simpl.
  set (s00 := mk_goal_state _ [p] [lvl]).
  destruct (add_hypotheses_ok p (ih_levels lvl depth) s00 Hwf)
    as (s0 & -> & Hok).
  { split; [done|by constructor]. }
  destruct (transitions_loop_terminates x lvl depth (remaining ctx 0 s0) 0
              s0 Hctx Hok) as [s' Hs']; [done|].
  exists (remaining ctx 0 s0), (mk_and (gs_conjs s')).
  intros fuel Hfuel.
  replace fuel with (remaining ctx 0 s0 + (fuel - remaining ctx 0 s0))
    by lia.
  by rewrite (transitions_loop_fuel_mono _ _ _ _ _ _ _ _ Hs').
Qed.

(** *** The goal is the induction schema *)

Abbreviation rule_formula :=
  (transition_formula mk_and var_subst get_free_vars).
Abbreviation transitions :=
  (transitions_of mk_and o2n var_subst get_free_vars).
Abbreviation property := (level_property o2n expr_abstract).
Abbreviation axiom_of :=
  (level_axiom o2n expr_abstract).
Abbreviation hypotheses :=
  (hypotheses_of mk_and o2n var_subst get_free_vars expr_abstract).
Abbreviation entry :=
  (entry_conjuncts mk_and o2n var_subst get_free_vars expr_abstract
     get_formulas).
Abbreviation invariant :=
  (schema_inv mk_and o2n var_subst get_free_vars expr_abstract get_formulas
     ctx).

Lemma transition_formula_intro (reps : list expr) (lvl : N) (r : rule)
    (tr : expr) :
  transition_rule reps lvl r = Some tr → rule_formula reps lvl r tr.
Proof.
  unfold mk_transition_rule, get_uninterpreted_tail_size.
  destruct ((lvl =? 0)%N && (0 <? length (uninterpreted_tail r))) eqn:Hcut.
  - apply andb_true_iff in Hcut as [Hl%N.eqb_eq Hut%Nat.ltb_lt].
    intros [= <-]. apply transition_cut; [done|].
    intros Hnil. rewrite Hnil in Hut. simpl in Hut. lia.
  - destruct (bind_args _ _ _ _ _) as [[eqs sub]|] eqn:Hb; simpl; [|done].
    intros [= <-].
    assert (lvl ≠ 0%N ∨ uninterpreted_tail r = []) as Hgo.
    { apply andb_false_iff in Hcut as [Hl%N.eqb_neq|Hut%Nat.ltb_ge];
        [by left|right].
      destruct (uninterpreted_tail r); [done|simpl in Hut; lia]. }
    pose proof (transition_unfold mk_and var_subst get_free_vars reps lvl r
                  eqs sub Hgo Hb) as H.
    unfold exists_closure, substituted, tail_at_previous_level in H.
    destruct (0 <? lvl)%N; simpl in H; [rewrite app_assoc in H|];
      destruct sub; destruct (get_free_vars _); exact H.
Qed.

Lemma transitions_of_intro (p : pred_transformer) (lvl : N)
    (trs : list expr) :
  mapM (transition_rule (mk_reps o2n p) lvl) (rules p) = Some trs →
  transitions p lvl trs.
Proof.
  intros H%mapM_Some_1. eapply Forall2_impl; [exact H|].
  intros r tr. apply transition_formula_intro.
Qed.

Lemma mk_blocked_transition_schema (p : pred_transformer) (lvl : N)
    (phi : expr) :
  blocked_transition p lvl = Some phi →
  ∃ trs, transitions p lvl trs ∧ phi = blocked mk_and trs.
Proof.
  unfold mk_blocked_transition.
  destruct (mapM _ _) as [trs|] eqn:Htrs; simpl; [|done].
  intros [= <-]. exists trs. split; [by apply transitions_of_intro|done].
Qed.

Lemma mk_transition_axiom_schema (p : pred_transformer) (lvl : N)
    (ax : expr) :
  transition_axiom p lvl = Some ax →
  ∃ trs, transitions p lvl trs ∧ ax = axiom_of p lvl trs.
Proof.
  unfold mk_transition_axiom.
  destruct (mapM _ _) as [trs|] eqn:Htrs; simpl; [|done].
  intros [= <-]. exists trs. split; [by apply transitions_of_intro|done].
Qed.

Lemma queue_of_snoc (conjs : list expr) (s : goal_state)
    (q : pred_transformer) (l : N) :
  length (gs_pts s) = length (gs_levels s) →
  queue_of (mk_goal_state conjs (gs_pts s ++ [q]) (gs_levels s ++ [l]))
  = queue_of s ++ [(q, l)].
Proof. intros Hlen. unfold queue_of. simpl. by rewrite zip_with_app. Qed.

Lemma add_hypotheses_schema (p : pred_transformer) (lvls : list N)
    (s : goal_state) :
  wf_pt p →
  length (gs_pts s) = length (gs_levels s) →
  ∃ s' hyps,
    foldl (add_hypothesis mk_and o2n var_subst get_free_vars expr_abstract p)
          (Some s) lvls = Some s'
    ∧ length (gs_pts s') = length (gs_levels s')
    ∧ gs_conjs s' = gs_conjs s ++ hyps
    ∧ queue_of s' = queue_of s ++ map (pair p) (filter (λ l, (0 < l)%N) lvls)
    ∧ hypotheses p (filter (λ l, (0 < l)%N) lvls) hyps.
Proof.
  intros Hwf. revert s.
  induction lvls as [|lvl lvls IH]; intros s Hlen; simpl.
  { exists s, []. rewrite !app_nil_r. repeat split; [done..|constructor]. }
  destruct (N.ltb_spec 0 lvl) as [Hpos|Hzero].
  - destruct (mk_blocked_transition_is_Some p lvl Hwf) as [psi Hpsi].
    rewrite Hpsi. simpl.
    apply mk_blocked_transition_schema in Hpsi as (trs & Htrs & ->).
    edestruct (IH (mk_goal_state
                     (gs_conjs s ++ [predicate_property lvl p
                                       (blocked mk_and trs)])
                     (gs_pts s ++ [p]) (gs_levels s ++ [lvl])))
      as (s' & hyps & Hs' & Hlen' & Hconjs & Hq & Hhyps).
    { simpl. rewrite !length_app. simpl. lia. }
    exists s', (property p lvl (blocked mk_and trs) :: hyps).
    rewrite filter_cons_True by done.
    split; [done|]. split; [done|]. split.
    { rewrite Hconjs. simpl. by rewrite <- app_assoc. }
    split.
    { rewrite Hq, queue_of_snoc by done. simpl. by rewrite <- app_assoc. }
    constructor; [|done]. by exists trs.
  - rewrite filter_cons_False by lia. by apply IH.
Qed.

Lemma hypothesis_levels_eq (lvl depth : N) :
  (lvl < 2 ^ 32)%N → (depth < 2 ^ 32)%N →
  filter (λ l, (0 < l)%N) (ih_levels lvl depth) = hypothesis_levels lvl depth.
Proof.
  intros Hl Hd. rewrite ih_levels_eq by done. unfold hypothesis_levels.
  by destruct (depth <=? lvl)%N.
Qed.

Lemma hypothesis_levels_below (lvl depth l : N) :
  l ∈ hypothesis_levels lvl depth → (l < lvl)%N.
Proof.
  unfold hypothesis_levels. destruct (N.leb_spec depth lvl) as [Hle|Hlt].
  - intros [_ (d & -> & Hd%elem_of_seq)%list_elem_of_fmap]%list_elem_of_filter.
    lia.
  - by intros ?%elem_of_nil.
Qed.

Lemma enqueue_tail_schema (lvl0 lvl : N) (s : goal_state) (a : app_atom) :
  (lvl0 < 2 ^ 32)%N → lvl ≠ 0%N → (lvl ≤ lvl0)%N →
  length (gs_pts s) = length (gs_levels s) →
  Forall (λ e, (e.2 ≤ lvl0)%N) (queue_of s) →
  let rt := get_pred_transformers ctx (get_decl a) in
  let s' := enqueue_tail ctx lvl s a in
  gs_conjs s' = gs_conjs s
  ∧ length (gs_pts s') = length (gs_levels s')
  ∧ Forall (λ e, (e.2 ≤ lvl0)%N) (queue_of s')
  ∧ (queue_of s' = queue_of s
     ∨ queue_of s' = queue_of s ++ [(rt, (lvl - 1)%N)])
  ∧ ∃ e'', e'' ∈ queue_of s' ∧ same_pt rt e''.1 = true
           ∧ e''.2 = (lvl - 1)%N.
Proof.
  intros Hb Hnz Hle Hlen Hall rt s'. subst s'. unfold enqueue_tail.
  fold rt. destruct (existsb _ _) eqn:Hfound.
  - split; [done|]. split; [done|]. split; [done|]. split; [by left|].
    apply existsb_exists in Hfound as ([q l] & Hin & Htest).
    apply list_elem_of_In in Hin. simpl in Htest.
    apply andb_true_iff in Htest as [Hsame Hl%N.eqb_eq].
    exists (q, l). split; [done|]. split; [done|]. simpl.
    pose proof (proj1 (Forall_forall _ _) Hall _ Hin) as Hql. simpl in Hql.
    unfold wrap32 in Hl. change (2 ^ 32)%N with 4294967296%N in Hb.
    change (2 ^ 32)%Z with 4294967296%Z in Hl.
    destruct (decide (l + 1 < 4294967296)%N) as [Hsmall|Hbig].
    + rewrite Z.mod_small in Hl by lia. lia.
    + replace (Z.of_N l + 1)%Z with 4294967296%Z in Hl by lia.
      rewrite Z.mod_same in Hl by lia. simpl in Hl. lia.
  - split; [done|]. split; [simpl; rewrite !length_app; simpl; lia|].
    rewrite queue_of_snoc by done.
    split; [apply Forall_app; split; [done|constructor; [simpl; lia|done]]|].
    split; [by right|].
    exists (rt, (lvl - 1)%N). split; [apply elem_of_app; right; by left|].
    split; [|done]. simpl. unfold same_pt. by apply bool_decide_eq_true_2.
Qed.

Lemma enqueue_tails_schema (lvl0 lvl : N) (tails : list app_atom)
    (s : goal_state) :
  (lvl0 < 2 ^ 32)%N → lvl ≠ 0%N → (lvl ≤ lvl0)%N →
  length (gs_pts s) = length (gs_levels s) →
  Forall (λ e, (e.2 ≤ lvl0)%N) (queue_of s) →
  let s' := foldl (enqueue_tail ctx lvl) s tails in
  gs_conjs s' = gs_conjs s
  ∧ length (gs_pts s') = length (gs_levels s')
  ∧ Forall (λ e, (e.2 ≤ lvl0)%N) (queue_of s')
  ∧ (∃ new,
       queue_of s' = queue_of s ++ new
       ∧ Forall (λ e', ∃ a, a ∈ tails
                            ∧ e' = (get_pred_transformers ctx (get_decl a),
                                    (lvl - 1)%N)) new)
  ∧ ∀ a, a ∈ tails →
         ∃ e'', e'' ∈ queue_of s'
                ∧ same_pt (get_pred_transformers ctx (get_decl a)) e''.1
                  = true
                ∧ e''.2 = (lvl - 1)%N.
Proof.
  intros Hb Hnz Hle. revert s.
  induction tails as [|a tails IH]; intros s Hlen Hall; simpl.
  { split; [done|]. split; [done|]. split; [done|]. split.
    - exists []. by rewrite app_nil_r.
    - intros a Ha. by apply elem_of_nil in Ha. }
  destruct (enqueue_tail_schema lvl0 lvl s a Hb Hnz Hle Hlen Hall)
    as (Hc1 & Hlen1 & Hall1 & Hq1 & e1 & He1 & Hsame1 & Hl1).
  destruct (IH _ Hlen1 Hall1) as (Hc2 & Hlen2 & Hall2 & Hq2 & Hcov2).
  destruct Hq2 as (new2 & Hq2 & Hnew2).
  split; [congruence|]. split; [done|]. split; [done|]. split.
  - assert (Forall (λ e', ∃ a0, a0 ∈ a :: tails
                      ∧ e' = (get_pred_transformers ctx (get_decl a0),
                              (lvl - 1)%N)) new2) as Hnew2'.
    { eapply Forall_impl; [exact Hnew2|].
      intros e' (a0 & Ha0 & ->). exists a0. split; [by right|done]. }
    destruct Hq1 as [Hq1|Hq1].
    + exists new2. split; [congruence|done].
    + eexists (_ :: new2). split.
      * rewrite Hq2, Hq1, <- app_assoc. reflexivity.
      * constructor; [|done]. exists a. split; [by left|done].
  - intros a0 [->|Ha0]%elem_of_cons; [|by apply Hcov2].
    exists e1. split; [|done]. rewrite Hq2. apply elem_of_app. by left.
Qed.

Lemma enqueue_rules_flat (lvl : N) (rs : list rule) (s : goal_state) :
  foldl (λ s (r : rule),
           foldl (enqueue_tail ctx lvl) s (uninterpreted_tail r)) s rs
  = foldl (enqueue_tail ctx lvl) s (rs ≫= uninterpreted_tail).
Proof.
  revert s. induction rs as [|r rs IH]; intros s; simpl; [done|].
  by rewrite foldl_app, IH.
Qed.

(** One step of the queue loop: the entry worked off gets its axiom and its
    frame property, what is enqueued are dependencies of this entry, and
    all its dependencies are in the queue afterwards. *)
Lemma transitions_body_schema (x : ext) (lvl0 depth : N) (c0 : list expr)
    (q0 : list (pred_transformer * N)) (qhead : nat) (s s' : goal_state) :
  (lvl0 < 2 ^ 32)%N →
  queue_body x lvl0 depth qhead s = Some s' →
  invariant x lvl0 depth c0 q0 qhead s →
  invariant x lvl0 depth c0 q0 (S qhead) s'.
Proof.
  intros Hb. unfold transitions_body.
  destruct (gs_pts s !! qhead) as [qt|] eqn:Hqt; [|done]. simpl.
  destruct (gs_levels s !! qhead) as [lvl|] eqn:Hlvl; [|done]. simpl.
  destruct (transition_axiom qt lvl) as [ax|] eqn:Hax; [|done]. simpl.
  intros Hs' (Hlen & Hall & more & axioms & Hq & Hpulled & Hcov & Hax2
              & Hconjs).
  apply mk_transition_axiom_schema in Hax as (trs & Htrs & ->).
  assert (queue_of s !! qhead = Some (qt, lvl)) as Hentry.
  { unfold queue_of. apply lookup_zip_with_Some. by exists qt, lvl. }
  assert (lvl ≤ lvl0)%N as Hle
    by apply (Forall_lookup_1 _ _ _ _ Hall Hentry).
  pose proof (take_S_r _ _ _ Hentry) as Htake.
  apply lookup_lt_Some in Hentry as Hlt.
  set (cs := [axiom_of qt lvl trs;
              predicate_property lvl qt (get_formulas x qt lvl true)])
    in Hs'.
  assert (gs_conjs s' = gs_conjs s ++ cs
          ∧ length (gs_pts s') = length (gs_levels s')
          ∧ Forall (λ e, (e.2 ≤ lvl0)%N) (queue_of s')
          ∧ (∃ new, queue_of s' = queue_of s ++ new
                    ∧ Forall (depends_on ctx lvl0 depth (qt, lvl)) new)
          ∧ ∀ e', depends_on ctx lvl0 depth (qt, lvl) e' →
                  ∃ e'', e'' ∈ queue_of s'
                         ∧ same_pt e'.1 e''.1 = true ∧ e''.2 = e'.2)
    as (Hc' & Hlen' & Hall' & (new & Hq' & Hnew) & Hcov').
  { destruct (_ || _) eqn:Hstop; injection Hs' as <-.
    - split; [done|]. split; [done|]. split; [done|]. split.
      + exists []. by rewrite app_nil_r.
      + intros e' (Hwin & Hnz & _). simpl in Hwin, Hnz.
        apply orb_true_iff in Hstop as [?%N.ltb_lt|?%N.eqb_eq]; done.
    - apply orb_false_iff in Hstop as [Hwin%N.ltb_ge Hnz%N.eqb_neq].
      rewrite enqueue_rules_flat.
      destruct (enqueue_tails_schema lvl0 lvl (rules qt ≫= uninterpreted_tail)
                  (mk_goal_state (gs_conjs s ++ cs) (gs_pts s) (gs_levels s))
                  Hb Hnz Hle Hlen Hall)
        as (Hc1 & Hlen1 & Hall1 & (new & Hq1 & Hnew) & Hcov1).
      split; [done|]. split; [done|]. split; [done|]. split.
      + exists new. split; [done|].
        eapply Forall_impl; [exact Hnew|].
        intros e' (a & (r & Ha & Hr)%list_elem_of_bind & ->).
        split; [simpl; lia|]. split; [done|]. split; [done|].
        by exists r, a.
      + intros [q' l'] (_ & _ & Hl' & r & a & Hr & Ha & Hq'').
        simpl in Hl', Hq''. subst q' l'. simpl. apply Hcov1.
        apply list_elem_of_bind. by exists r. }
  split; [done|]. split; [done|].
  exists (more ++ new), (axioms ++ [cs]).
  assert (take (S qhead) (queue_of s')
          = take qhead (queue_of s) ++ [(qt, lvl)]) as Htake'.
  { rewrite Hq', take_app_le by lia. done. }
  rewrite Htake'.
  split; [by rewrite Hq', Hq, app_assoc|]. split.
  { apply Forall_app. split.
    - eapply Forall_impl; [exact Hpulled|].
      intros e' (e & He & Hdep). exists e. split; [|done].
      apply elem_of_app. by left.
    - eapply Forall_impl; [exact Hnew|].
      intros e' Hdep. exists (qt, lvl). split; [|done].
      apply elem_of_app. right. by left. }
  split.
  { intros e e' [He|He%list_elem_of_singleton]%elem_of_app Hdep.
    - destruct (Hcov e e' He Hdep) as (e'' & Hin & Hm).
      exists e''. split; [|done]. rewrite Hq'. apply elem_of_app. by left.
    - subst e. by apply Hcov'. }
  split.
  { apply Forall2_app; [done|]. constructor; [|constructor].
    by exists trs. }
  rewrite Hc', Hconjs, concat_app. simpl.
  by rewrite <- app_assoc.
Qed.

Lemma transitions_loop_schema (x : ext) (lvl0 depth : N) (c0 : list expr)
    (q0 : list (pred_transformer * N)) (fuel qhead : nat)
    (s s' : goal_state) :
  (lvl0 < 2 ^ 32)%N →
  queue_loop x lvl0 depth fuel qhead s = Done s' →
  invariant x lvl0 depth c0 q0 qhead s →
  ∃ k, length (queue_of s') ≤ k ∧ invariant x lvl0 depth c0 q0 k s'.
Proof.
  intros Hb. revert qhead s.
  assert (∀ qhead s, (qhead <? length (gs_pts s)) = false →
                     length (queue_of s) ≤ qhead) as Hexit.
  { intros qhead s Hq%Nat.ltb_ge. unfold queue_of.
    rewrite length_zip_with. lia. }
  induction fuel as [|fuel IH]; intros qhead s; simpl.
  - destruct (qhead <? _) eqn:Hq; [done|]. intros [= <-] Hinv.
    exists qhead. split; [by apply Hexit|done].
  - destruct (qhead <? _) eqn:Hq.
    + destruct (queue_body x lvl0 depth qhead s) as [s1|] eqn:Hbody; [|done].
      intros Hl Hinv. eapply IH; [exact Hl|].
      by eapply transitions_body_schema.
    + intros [= <-] Hinv. exists qhead. split; [by apply Hexit|done].
Qed.

(** The goal built for a well-formed transformer at a representable level
    is the induction schema over the transition formulas of the
    transformer, and these are the ones of its blocked-transition
    formula. *)
Lemma mk_induction_goal_schema (x : ext) (p : pred_transformer)
    (lvl depth : N) (fuel : nat) (goal : expr) :
  wf_pt p → (lvl < 2 ^ 32)%N → (depth < 2 ^ 32)%N →
  induction_goal x fuel p lvl depth = Done goal →
  ∃ trs,
    transitions p lvl trs
    ∧ blocked_transition p lvl = Some (blocked mk_and trs)
    ∧ induction_schema mk_and o2n var_subst get_free_vars expr_abstract
        get_formulas ctx x p lvl depth trs goal.
Proof.
  intros Hwf Hl Hd. unfold mk_induction_goal.
  destruct (mk_blocked_transition_is_Some p lvl Hwf) as [phi Hphi].
  rewrite Hphi. simpl.
  destruct (mk_blocked_transition_schema p lvl phi Hphi)
    as (trs & Htrs & ->).
  set (s00 := mk_goal_state _ [p] [lvl]).
  destruct (add_hypotheses_schema p (ih_levels lvl depth) s00 Hwf)
    as (s0 & hyps & -> & Hlen0 & Hc0 & Hq0 & Hhyps); [done|].
  rewrite hypothesis_levels_eq in Hq0, Hhyps by done.
  destruct (queue_loop x lvl depth fuel 0 s0) as [s| |] eqn:Hloop; [|done..].
  intros [= <-].
  destruct (transitions_loop_schema x lvl depth (gs_conjs s0) (queue_of s0)
              fuel 0 s0 s Hl Hloop)
    as (k & Hk & _ & _ & more & axioms & Hq & Hpulled & Hcov & Hax & Hc).
  { split; [done|]. split.
    - rewrite Hq0. unfold s00, queue_of. simpl.
      constructor; [simpl; lia|]. apply Forall_fmap, Forall_forall.
      intros l Hin%hypothesis_levels_below. simpl. lia.
    - exists [], []. rewrite !app_nil_r. simpl.
      split; [done|]. split; [constructor|]. split; [|split; [constructor|done]].
      intros e e' He. by apply elem_of_nil in He. }
  rewrite take_ge in Hpulled, Hcov, Hax by done.
  exists trs. split; [done|]. split; [done|].
  exists hyps, more, axioms. simpl.
  assert (queue_of s
          = (p, lvl) :: map (pair p) (hypothesis_levels lvl depth) ++ more)
    as Hqueue by (by rewrite Hq, Hq0).
  rewrite <- Hqueue.
  split; [done|]. split; [done|]. split; [done|]. split; [done|].
  by rewrite Hc, Hc0.
Qed.

Abbreviation induction_generalizer :=
  (core_induction_generalizer mk_and o2n var_subst get_free_vars
     expr_abstract get_formulas smt_check ctx).

(** With a parent, the generalizer builds the goal for the parent at depth
    2, asks a fresh kernel once, and acts on the answer alone.  Goal and
    blocked-transition formula do not depend on the core or the flag. *)
Lemma induction_generalizer_run (n p : model_node) (w : world ext) :
  wf_context ctx → wf_pt (pt p) →
  parent n = Some p →
  ∃ fuel0 goal phi,
    blocked_transition (pt p) (level p) = Some phi
    ∧ (∀ fuel, fuel0 ≤ fuel →
         induction_goal (w_ext w) fuel (pt p) (level p) 2 = Done goal)
    ∧ ∀ fuel core uses_level, fuel0 ≤ fuel →
        induction_generalizer fuel n core uses_level w
        = let w' := mk_world (smt_check (w_ext w) goal).2 (w_ind w)
                             (w_itp w) (w_smt w ++ [goal]) in
          match (smt_check (w_ext w) goal).1 with
          | l_false => Done ([mk_not phi], true, w')
          | _ => Done (core, uses_level, w')
          end.
Proof.
  intros Hctx Hwf Hp.
  destruct (mk_induction_goal_total (w_ext w) (pt p) (level p) 2 Hctx Hwf)
    as (fuel0 & goal & Hgoal).
  destruct (mk_blocked_transition_is_Some (pt p) (level p) Hwf)
    as [phi Hphi].
  exists fuel0, goal, phi. split; [done|]. split; [done|].
  intros fuel core uses_level Hfuel.
  unfold core_induction_generalizer, call_smt_check.
  rewrite Hp, (Hgoal fuel Hfuel), Hphi.
  by destruct (smt_check (w_ext w) goal) as [[] x'].
Qed.

(** With a parent at a representable level, the goal handed to the kernel
    is the induction schema for the parent at depth 2, and the literal
    committed on [l_false] negates the blocked-transition formula over the
    same transition formulas. *)
Lemma induction_generalizer_builds (n p : model_node) (w : world ext) :
  wf_context ctx → wf_pt (pt p) → (level p < 2 ^ 32)%N →
  parent n = Some p →
  ∃ fuel0 trs goal,
    transitions (pt p) (level p) trs
    ∧ induction_schema mk_and o2n var_subst get_free_vars expr_abstract
        get_formulas ctx (w_ext w) (pt p) (level p) 2 trs goal
    ∧ blocked_transition (pt p) (level p) = Some (blocked mk_and trs)
    ∧ (∀ fuel, fuel0 ≤ fuel →
         induction_goal (w_ext w) fuel (pt p) (level p) 2 = Done goal)
    ∧ ∀ fuel core uses_level, fuel0 ≤ fuel →
        induction_generalizer fuel n core uses_level w
        = let w' := mk_world (smt_check (w_ext w) goal).2 (w_ind w)
                             (w_itp w) (w_smt w ++ [goal]) in
          match (smt_check (w_ext w) goal).1 with
          | l_false => Done ([mk_not (blocked mk_and trs)], true, w')
          | _ => Done (core, uses_level, w')
          end.
Proof.
  intros Hctx Hwf Hlvl Hp.
  destruct (induction_generalizer_run n p w Hctx Hwf Hp)
    as (fuel0 & goal & phi & Hphi & Hgoal & Hrun).
  destruct (mk_induction_goal_schema (w_ext w) (pt p) (level p) 2 fuel0 goal
              Hwf Hlvl) as (trs & Htrs & Hblocked & Hschema).
  { by vm_compute. }
  { by apply Hgoal. }
  assert (phi = blocked mk_and trs) as -> by congruence.
  by exists fuel0, trs, goal.
Qed.

Lemma induction_generalizer_root (fuel : nat) (n : model_node)
    (core : list expr) (uses_level : bool) (w : world ext) :
  parent n = None →
  induction_generalizer fuel n core uses_level w
  = Done (core, uses_level, w).
Proof. intros Hp. unfold core_induction_generalizer. by rewrite Hp. Qed.

(** Whatever the budget: no call to the inductiveness oracle, and the flag
    is only ever raised. *)
Lemma induction_generalizer_logs (fuel : nat) (n : model_node)
    (core : list expr) (uses_level : bool) (w : world ext)
    (out : list expr) (ul' : bool) (w' : world ext) :
  induction_generalizer fuel n core uses_level w = Done (out, ul', w') →
  w_ind w' = w_ind w ∧ (uses_level = true → ul' = true).
Proof.
  unfold core_induction_generalizer, call_smt_check.
  destruct (parent n) as [p|]; [|by intros [= -> -> ->]].
  destruct (induction_goal _ _ _ _ _) as [goal| |]; [|done..].
  destruct (smt_check (w_ext w) goal) as [r x'].
  destruct r; [|by intros [= _ <- <-]..].
  destruct (blocked_transition _ _); [|done].
  by intros [= _ <- <-].
Qed.

End induction_facts.

(** ** Bound extraction *)

Section bound_facts.

Lemma is_app_of_kind (e : expr) (k : decl_kind) (args : list expr) :
  is_app_of e k = Some args → ∃ d, e = app d args ∧ get_kind d = k.
Proof.
  destruct e as [| d args' |]; simpl; [done| |done].
  destruct (decide _); [|done]. intros [= ->]. by exists d.
Qed.

Lemma is_not_kind (e e1 : expr) :
  is_not e = Some e1 → ∃ d, e = app d [e1] ∧ get_kind d = OP_NOT.
Proof.
  unfold is_not. destruct (is_app_of e OP_NOT) as [args|] eqn:H; [|done].
  destruct args as [|a [|b args]]; [done| |done].
  intros [= ->]. by apply is_app_of_kind.
Qed.

Lemma is_le_kind (e x y : expr) :
  is_le e = Some (x, y) → ∃ d, e = app d [x; y] ∧ get_kind d = OP_LE.
Proof.
  unfold is_le. destruct (is_app_of e OP_LE) as [args|] eqn:H; [|done].
  destruct args as [|a [|b [|c args]]]; [done..| |done].
  intros [= -> ->]. by apply is_app_of_kind.
Qed.

Lemma is_ge_kind (e x y : expr) :
  is_ge e = Some (x, y) → ∃ d, e = app d [x; y] ∧ get_kind d = OP_GE.
Proof.
  unfold is_ge. destruct (is_app_of e OP_GE) as [args|] eqn:H; [|done].
  destruct args as [|a [|b [|c args]]]; [done..| |done].
  intros [= -> ->]. by apply is_app_of_kind.
Qed.

Lemma is_app_of_other (d : func_decl) (args : list expr) (k : decl_kind) :
  get_kind d ≠ k → is_app_of (app d args) k = None.
Proof. intros H. simpl. by destruct (decide _). Qed.

Lemma is_not_other (d : func_decl) (args : list expr) :
  get_kind d ≠ OP_NOT → is_not (app d args) = None.
Proof. intros H. unfold is_not. by rewrite is_app_of_other. Qed.

Lemma is_le_other (d : func_decl) (args : list expr) :
  get_kind d ≠ OP_LE → is_le (app d args) = None.
Proof. intros H. unfold is_le. by rewrite is_app_of_other. Qed.

(** The code takes the branch of the shape the literal has. *)
Lemma scan_literal_shape (i : nat) (e : expr) (st : arith_state)
    (lo : bool) (x : expr) (r : Qc) :
  bound_shape e lo x r →
  scan_literal i e st = insert_bound lo x r i st.
Proof.
  intros [e0 e1 x0 y r0 Hn Hle Hnum Hint
         |e0 e1 x0 y r0 Hn Hge Hnum Hint
         |e0 x0 y r0 Hle Hnum
         |e0 x0 y r0 Hge Hnum]; unfold scan_literal.
  - unfold match_not_le_int. rewrite Hn. simpl. rewrite Hle. simpl.
    rewrite Hnum. simpl. by rewrite Hint.
  - apply is_ge_kind in Hge as Hk. destruct Hk as (d & -> & Hk).
    unfold match_not_le_int, match_not_ge_int. rewrite Hn. simpl.
    rewrite is_le_other by congruence. simpl.
    rewrite Hge. simpl. rewrite Hnum. simpl. by rewrite Hint.
  - apply is_le_kind in Hle as Hk. destruct Hk as (d & -> & Hk).
    unfold match_not_le_int, match_not_ge_int, match_le.
    rewrite is_not_other by congruence. simpl.
    rewrite Hle. simpl. by rewrite Hnum.
  - apply is_ge_kind in Hge as Hk. destruct Hk as (d & -> & Hk).
    unfold match_not_le_int, match_not_ge_int, match_le, match_ge.
    rewrite is_not_other, is_le_other by congruence. simpl.
    rewrite Hge. simpl. by rewrite Hnum.
Qed.

(** A literal of none of the shapes leaves the maps alone. *)
Lemma scan_literal_no_shape (i : nat) (e : expr) (st : arith_state) :
  (∀ lo x r, ¬ bound_shape e lo x r) → scan_literal i e st = st.
Proof.
  intros Hno. unfold scan_literal.
  destruct (match_not_le_int e) as [[x r]|] eqn:H1.
  { unfold match_not_le_int in H1.
    destruct (is_not e) as [e1|] eqn:Hn; [|done]. simpl in H1.
    destruct (is_le e1) as [[x' y]|] eqn:Hle; [|done]. simpl in H1.
    destruct (is_numeral y) as [r'|] eqn:Hnum; [|done]. simpl in H1.
    destruct (is_int x') eqn:Hint; [|done].
    destruct (Hno true x' (r' + Qc_of_Z 1)%Qc). by econstructor. }
  destruct (match_not_ge_int e) as [[x r]|] eqn:H2.
  { unfold match_not_ge_int in H2.
    destruct (is_not e) as [e1|] eqn:Hn; [|done]. simpl in H2.
    destruct (is_ge e1) as [[x' y]|] eqn:Hge; [|done]. simpl in H2.
    destruct (is_numeral y) as [r'|] eqn:Hnum; [|done]. simpl in H2.
    destruct (is_int x') eqn:Hint; [|done].
    destruct (Hno false x' (r' - Qc_of_Z 1)%Qc). by econstructor 2. }
  destruct (match_le e) as [[x r]|] eqn:H3.
  { unfold match_le in H3.
    destruct (is_le e) as [[x' y]|] eqn:Hle; [|done]. simpl in H3.
    destruct (is_numeral y) as [r'|] eqn:Hnum; [|done].
    destruct (Hno false x' r'). by econstructor 3. }
  destruct (match_ge e) as [[x r]|] eqn:H4; [|done].
  unfold match_ge in H4.
  destruct (is_ge e) as [[x' y]|] eqn:Hge; [|done]. simpl in H4.
  destruct (is_numeral y) as [r'|] eqn:Hnum; [|done].
  destruct (Hno true x' r'). by econstructor 4.
Qed.

Lemma records_of_insert (lower : bool) (r : Qc) (tl : term_loc_t)
    (m : bounds_t) (b : BoundRecord) :
  b ∈ records_of lower (bounds_insert r tl m)
  ↔ b ∈ records_of lower m ∨ b = mk_bound lower tl.1 r tl.2.
Proof.
  unfold records_of.
  induction m as [|[k v] m IH]; simpl.
  - rewrite ?app_nil_r, list_elem_of_singleton, elem_of_nil. tauto.
  - destruct (decide (k = r)) as [->|Hne]; simpl.
    + rewrite map_app, !elem_of_app. simpl.
      rewrite list_elem_of_singleton. tauto.
    + rewrite !elem_of_app, IH. tauto.
Qed.

(** What [insert_bound] stores. *)
Lemma insert_bound_records (lo : bool) (x : expr) (r : Qc) (i : nat)
    (st : arith_state) (b : BoundRecord) :
  b ∈ bound_records (insert_bound lo x r i st)
  ↔ b ∈ bound_records st ∨ b = normalize_bound lo x r i.
Proof.
  unfold insert_bound, normalize_bound, bound_records.
  destruct (Qc_is_neg r), lo; simpl;
    rewrite !elem_of_app, records_of_insert; simpl; tauto.
Qed.

(** *** The candidate core of a trial *)

(** Position [l] of the candidate when the parity rewrite does not apply:
    the literal is rewritten by alias substitution or kept, it is not
    replaced by true (the test reads [i == k || k == l]). *)
Lemma arith_new_core_upper (r : Qc) (x : expr) (k l : nat)
    (core : list expr) (e : expr) :
  is_int x = false → k ≠ l → core !! l = Some e →
  ∃ new_core,
    arith_new_core r x k l core = Some new_core
    ∧ new_core !! l = Some (default e (substitute_alias r x e)).
Proof.
  intros Hint Hkl He. unfold arith_new_core.
  rewrite Hint, andb_false_r. eexists. split; [done|].
  rewrite list_lookup_imap, He. simpl.
  destruct (Nat.eqb_spec l k) as [->|_]; [done|].
  destruct (Nat.eqb_spec k l) as [->|_]; [done|].
  simpl. by destruct (substitute_alias r x e).
Qed.

End bound_facts.

(** * The claims *)

(** ** Literal dropping: termination and the shape of the result *)

(** C5 (as stated, refuted): with an oracle that accepts every cube and
    leaves the core untouched, the loop of the bool generalizer never ends on
    the two-literal core [a; b]: no step budget yields a result. *)
Lemma bool_loop_may_diverge :
  ¬ ∃ fuel r,
      core_bool_inductive_generalizer Sample.accept_all 0 fuel Sample.child
        [Sample.lit_a; Sample.lit_b] false Sample.w0 = Done r.
Proof.
  intros (fuel & r & H). destruct fuel as [|fuel]; [done|].
  unfold core_bool_inductive_generalizer in H. simpl in H.
  by rewrite accept_all_spins in H.
Qed.

(** C5 (amended): provided every accepting [check_inductive] call hands back
    a strictly shorter core and every rejecting call hands the core back
    unchanged, the loop of the bool generalizer terminates from every state,
    for every failure limit (0 included), and it stops exactly in a state
    where the scan position has exhausted the core, or the core is down to
    one literal, or the failure counter exceeds a nonzero limit. *)
Theorem bool_loop_terminates {ext : Type}
    (check_inductive : ext → pred_transformer → N → list expr → bool →
                       bool * list expr * bool * ext)
    (m_failure_limit : N) (n : model_node) (s : bool_state ext) :
  shrinks_on_success check_inductive →
  keeps_on_failure check_inductive →
  ∃ fuel0 s',
    (∀ fuel, fuel0 ≤ fuel →
       bool_loop check_inductive m_failure_limit fuel n s = Done s')
    ∧ bool_guard m_failure_limit s' = false
    ∧ bool_exit m_failure_limit s'.
Proof.
  intros Hshrink Hkeep.
  destruct (bool_loop_finishes check_inductive m_failure_limit n
              (S (bool_measure s)) s Hshrink Hkeep) as (s' & Hl & Hg); [lia|].
  exists (S (bool_measure s)), s'. split; [|split].
  - intros fuel Hfuel.
    replace fuel with (S (bool_measure s) + (fuel - S (bool_measure s)))
      by lia.
    by apply bool_loop_fuel_mono.
  - done.
  - by apply bool_guard_false.
Qed.

Lemma bool_loop_terminates_witness :
  ∃ fuel0 s',
    (∀ fuel, fuel0 ≤ fuel →
       bool_loop (Sample.unsat_core_oracle [Sample.lit_b]) 0 fuel Sample.child
         (mk_bool_state [Sample.lit_a; Sample.lit_b; Sample.lit_c] false
            Sample.w0 0 0%N []) = Done s')
    ∧ bool_guard 0 s' = false
    ∧ bool_exit 0 s'.
Proof.
  apply bool_loop_terminates.
  - apply unsat_core_oracle_shrinks.
  - apply unsat_core_oracle_keeps.
Defined.

(** C8 (as stated, refuted): with an oracle that accepts its first query
    only and never touches the core, the bool generalizer turns [a; b] into
    a core that holds the trivial-true literal, which is not a literal of
    the input. *)
Lemma bool_generalizer_leaves_true :
  ∃ out ul w,
    core_bool_inductive_generalizer Sample.accept_first 0 10 Sample.child
      [Sample.lit_a; Sample.lit_b] false Sample.w0_counting
    = Done (out, ul, w)
    ∧ out = [mk_true; Sample.lit_b]
    ∧ mk_true ∈ out
    ∧ mk_true ∉ [Sample.lit_a; Sample.lit_b].
Proof.
  eexists _, _, _. split; [vm_compute; reflexivity|].
  split; [reflexivity|]. split; [by left|].
  apply (bool_decide_eq_false_1 _). by vm_compute.
Qed.

(** C8 (amended): provided an accepting [check_inductive] call hands back a
    sub-multiset of the core it was given that holds no trivial-true literal,
    and a rejecting call hands the core back unchanged, the bool generalizer
    returns, and its output core is a sub-multiset of its input core: every
    output literal is an input literal and the output is no longer than the
    input. *)
Theorem bool_generalizer_submultiset {ext : Type}
    (check_inductive : ext → pred_transformer → N → list expr → bool →
                       bool * list expr * bool * ext)
    (m_failure_limit : N) (n : model_node) (core : list expr)
    (uses_level : bool) (w : world ext) :
  returns_subcore check_inductive →
  keeps_on_failure check_inductive →
  ∃ fuel0 out ul' w',
    (∀ fuel, fuel0 ≤ fuel →
       core_bool_inductive_generalizer check_inductive m_failure_limit fuel
         n core uses_level w = Done (out, ul', w'))
    ∧ out ⊆+ core
    ∧ (∀ e, e ∈ out → e ∈ core)
    ∧ length out ≤ length core.
Proof.
  intros Hsub Hkeep.
  destruct (bool_generalizer_fuel check_inductive m_failure_limit n core
              uses_level w (returns_subcore_shrinks _ Hsub) Hkeep)
    as (fuel0 & [[out ul'] w'] & Hrun).
  exists fuel0, out, ul', w'. split; [done|].
  assert (out ⊆+ core) as Hout.
  { destruct (bool_generalizer_inv _ _ _ _ _ _ _ _ (Hrun fuel0 (le_n _)))
      as [[= -> -> ->]|(s' & Hl & [= -> -> ->])]; [done|].
    eapply (bool_loop_invariant check_inductive m_failure_limit n
              (λ s, bs_core s ⊆+ core)); [|exact Hl|done].
    intros s1 s2 _ Hb. by eapply bool_body_submseteq. }
  split; [done|]. split.
  - intros e He. by eapply elem_of_submseteq.
  - by apply submseteq_length.
Qed.

Lemma bool_generalizer_submultiset_witness :
  ∃ fuel0 out ul' w',
    (∀ fuel, fuel0 ≤ fuel →
       core_bool_inductive_generalizer
         (Sample.unsat_core_oracle [Sample.lit_b]) 0 fuel Sample.child
         [Sample.lit_a; Sample.lit_b; Sample.lit_c] false Sample.w0
       = Done (out, ul', w'))
    ∧ out ⊆+ [Sample.lit_a; Sample.lit_b; Sample.lit_c]
    ∧ (∀ e, e ∈ out → e ∈ [Sample.lit_a; Sample.lit_b; Sample.lit_c])
    ∧ length out ≤ 3.
Proof.
  apply (bool_generalizer_submultiset
           (Sample.unsat_core_oracle [Sample.lit_b]) 0 Sample.child
           [Sample.lit_a; Sample.lit_b; Sample.lit_c] false Sample.w0).
  - apply unsat_core_oracle_subcore.
  - apply unsat_core_oracle_keeps.
Defined.

(** ** Commits and the inductiveness check *)

(** C1 (as stated, refuted): the Farkas generalizer rewrites the core [p]
    into [c] on the word of the learner alone; the inductiveness oracle is
    never called, so no call accepted the output core. *)
Lemma farkas_commits_unchecked :
  let '(out, ul, w) :=
    core_farkas_generalizer Sample.mk_and Sample.mk_or Sample.get_or
      Sample.flatten_and Sample.propagation_formula Sample.learner_c
      Sample.ctx_P Sample.child [Sample.lit_p] false Sample.w0 in
  out = [Sample.lit_c]
  ∧ out ≠ [Sample.lit_p]
  ∧ w_ind w = []
  ∧ ¬ accepted_in (w_ind w) (pt Sample.child) (level Sample.child) out.
Proof.
  vm_compute. split; [reflexivity|]. split; [discriminate|].
  split; [reflexivity|]. intros (c & Hc & _). by apply elem_of_nil in Hc.
Qed.

(** C1 (amended): for the bool and the arithmetic generalizer, an output
    core that differs from the input core is the core left by a
    [check_inductive] call made during the run on the node's transformer at
    the node's level that returned true (for the bool generalizer provided a
    rejecting call hands the core back unchanged).  The Farkas and the
    induction generalizer make no [check_inductive] call at all: they commit
    their rewritten core unchecked. *)
Theorem commit_after_check {ext : Type}
    (check_inductive : ext → pred_transformer → N → list expr → bool →
                       bool * list expr * bool * ext)
    (th_rewriter : expr → expr)
    (mk_and mk_or : list expr → expr) (get_or : expr → list expr)
    (flatten_and : expr → list expr → list expr)
    (get_propagation_formula : ext → context → pred_transformer → N → expr)
    (get_lemma_guesses : ext → expr → expr → bool * list expr * ext)
    (o2n : func_decl → nat → func_decl)
    (var_subst : bool → expr → list (option expr) → expr)
    (get_free_vars : expr → list (option sort))
    (expr_abstract : list expr → expr → expr)
    (get_formulas : ext → pred_transformer → N → bool → expr)
    (smt_check : ext → expr → lbool * ext)
    (ctx : context) (m_failure_limit : N) (fuel : nat) (n : model_node)
    (core : list expr) (uses_level : bool) (w : world ext)
    (out : list expr) (ul' : bool) (w' : world ext) :
  (keeps_on_failure check_inductive →
   core_bool_inductive_generalizer check_inductive m_failure_limit fuel n
     core uses_level w = Done (out, ul', w') →
   out ≠ core →
   ∃ calls, w_ind w' = w_ind w ++ calls
            ∧ accepted_in calls (pt n) (level n) out)
  ∧ (core_arith_inductive_generalizer check_inductive th_rewriter n core
       uses_level w = Done (out, ul', w') →
     out ≠ core →
     ∃ calls, w_ind w' = w_ind w ++ calls
              ∧ accepted_in calls (pt n) (level n) out)
  ∧ (core_farkas_generalizer mk_and mk_or get_or flatten_and
       get_propagation_formula get_lemma_guesses ctx n core uses_level w
     = (out, ul', w') →
     w_ind w' = w_ind w)
  ∧ (core_induction_generalizer mk_and o2n var_subst get_free_vars
       expr_abstract get_formulas smt_check ctx fuel n core uses_level w
     = Done (out, ul', w') →
     w_ind w' = w_ind w).
Proof.
  repeat split.
  - intros Hkeep Hrun Hne.
    destruct (bool_generalizer_committed _ _ _ _ _ _ _ _ _ _ Hkeep Hrun)
      as (calls & Hlog & [?|?]); [done|]. by exists calls.
  - unfold core_arith_inductive_generalizer.
    destruct (length core <=? 1); [by intros [= <- _ _]|].
    destruct (get_eqs _ _ _ _) as [st eqs].
    intros Hrun Hne.
    destruct (arith_loop_committed check_inductive n core w eqs core
                uses_level w out ul' w' Hrun) as (calls & Hlog & [?|?]).
    + exists []. rewrite app_nil_r. by split; [|left].
    + done.
    + by exists calls.
  - intros Hrun.
    pose proof (farkas_generalizer_logs mk_and mk_or get_or flatten_and
                  get_propagation_formula get_lemma_guesses ctx n core
                  uses_level w) as H.
    rewrite Hrun in H. tauto.
  - intros Hrun.
    by destruct (induction_generalizer_logs _ _ _ _ _ _ _ _ _ _ _ _ _ _ _ _
                   Hrun).
Qed.

Lemma commit_after_check_witness :
  ∃ out ul' w' calls,
    core_bool_inductive_generalizer (Sample.unsat_core_oracle [Sample.lit_b])
      0 10 Sample.child [Sample.lit_a; Sample.lit_b; Sample.lit_c] false
      Sample.w0 = Done (out, ul', w')
    ∧ out ≠ [Sample.lit_a; Sample.lit_b; Sample.lit_c]
    ∧ w_ind w' = w_ind Sample.w0 ++ calls
    ∧ accepted_in calls (pt Sample.child) (level Sample.child) out.
Proof.
  destruct (core_bool_inductive_generalizer _ _ _ _ _ _ _)
    as [[[out ul'] w']| |] eqn:Hrun; [|by vm_compute in Hrun..].
  assert (out ≠ [Sample.lit_a; Sample.lit_b; Sample.lit_c]) as Hne.
  { pose proof Hrun as H. vm_compute in H. injection H as <- _ _.
    discriminate. }
  destruct (proj1 (commit_after_check
                     (Sample.unsat_core_oracle [Sample.lit_b])
                     Sample.th_rewriter Sample.mk_and Sample.mk_or
                     Sample.get_or Sample.flatten_and
                     Sample.propagation_formula Sample.learner_c
                     Sample.o2n Sample.var_subst Sample.get_free_vars
                     Sample.expr_abstract Sample.get_formulas
                     Sample.smt_unsat Sample.ctx_P 0 10 Sample.child
                     [Sample.lit_a; Sample.lit_b; Sample.lit_c] false
                     Sample.w0 out ul' w')
              (unsat_core_oracle_keeps _) Hrun Hne) as (calls & Hlog & Hacc).
  by exists out, ul', w', calls.
Defined.

(** ** The level flag *)

(** C6 (as stated, refuted): the bool generalizer hands the flag to the
    oracle by reference and returns it as the oracle leaves it; with an
    oracle that reports accepted cubes as level-independent, a call entered
    with [uses_level = true] returns with [uses_level = false]. *)
Lemma bool_generalizer_lowers_flag :
  ∃ out w,
    core_bool_inductive_generalizer Sample.lowering_oracle 0 10 Sample.child
      [Sample.lit_a; Sample.lit_b] true Sample.w0 = Done (out, false, w).
Proof. eexists _, _. vm_compute. reflexivity. Qed.

(** C6 (amended): the Farkas and the induction generalizer never change
    [uses_level] from true to false (they only ever assign true).  The bool
    and the arithmetic generalizer, and the multi-core generalizer through
    the bool generalizer, never assign the flag themselves: they return it as
    [check_inductive] leaves it, so a flag that is true at entry is true at
    return provided [check_inductive] never lowers it. *)
Theorem uses_level_monotone {ext : Type}
    (check_inductive : ext → pred_transformer → N → list expr → bool →
                       bool * list expr * bool * ext)
    (th_rewriter : expr → expr)
    (mk_and mk_or : list expr → expr) (get_or : expr → list expr)
    (flatten_and : expr → list expr → list expr)
    (get_propagation_formula : ext → context → pred_transformer → N → expr)
    (get_lemma_guesses : ext → expr → expr → bool * list expr * ext)
    (o2n : func_decl → nat → func_decl)
    (var_subst : bool → expr → list (option expr) → expr)
    (get_free_vars : expr → list (option sort))
    (expr_abstract : list expr → expr → expr)
    (get_formulas : ext → pred_transformer → N → bool → expr)
    (smt_check : ext → expr → lbool * ext)
    (ctx : context) (m_failure_limit : N) (fuel : nat) (n : model_node)
    (core : list expr) (w : world ext)
    (out : list expr) (ul' : bool) (w' : world ext)
    (new_cores new_cores' : cores) :
  (core_farkas_generalizer mk_and mk_or get_or flatten_and
     get_propagation_formula get_lemma_guesses ctx n core true w
   = (out, ul', w') → ul' = true)
  ∧ (core_induction_generalizer mk_and o2n var_subst get_free_vars
       expr_abstract get_formulas smt_check ctx fuel n core true w
     = Done (out, ul', w') → ul' = true)
  ∧ (never_lowers check_inductive →
     core_bool_inductive_generalizer check_inductive m_failure_limit fuel n
       core true w = Done (out, ul', w') → ul' = true)
  ∧ (never_lowers check_inductive →
     core_arith_inductive_generalizer check_inductive th_rewriter n core
       true w = Done (out, ul', w') → ul' = true)
  ∧ (never_lowers check_inductive →
     core_multi_generalizer check_inductive m_failure_limit fuel n core
       true new_cores w = Done (new_cores', w') →
     ∃ core0, new_cores' = new_cores ++ [(core0, true)]).
Proof.
  repeat split.
  - intros Hrun.
    pose proof (farkas_generalizer_logs mk_and mk_or get_or flatten_and
                  get_propagation_formula get_lemma_guesses ctx n core
                  true w) as H.
    rewrite Hrun in H. tauto.
  - intros Hrun.
    destruct (induction_generalizer_logs _ _ _ _ _ _ _ _ _ _ _ _ _ _ _ _
                Hrun) as [_ H]. by apply H.
  - intros Hmono Hrun. by eapply bool_generalizer_flag.
  - intros Hmono. unfold core_arith_inductive_generalizer.
    destruct (length core <=? 1); [by intros [= _ <- _]|].
    destruct (get_eqs _ _ _ _) as [st eqs].
    intros Hrun. by eapply arith_loop_flag.
  - intros Hmono. rewrite multi_generalizer_unfold.
    destruct (core_bool_inductive_generalizer _ _ _ _ _ _ _)
      as [[[core0 ul1] w1]| |] eqn:Hrun; [|done..].
    intros [= <- <-]. exists core0.
    by rewrite (bool_generalizer_flag _ _ _ _ _ _ _ _ _ Hmono Hrun).
Qed.

Lemma uses_level_monotone_witness :
  ∃ out ul' w',
    core_bool_inductive_generalizer (Sample.unsat_core_oracle [Sample.lit_b])
      0 10 Sample.child [Sample.lit_a; Sample.lit_b; Sample.lit_c] true
      Sample.w0 = Done (out, ul', w')
    ∧ ul' = true.
Proof.
  destruct (core_bool_inductive_generalizer _ _ _ _ _ _ _)
    as [[[out ul'] w']| |] eqn:Hrun; [|by vm_compute in Hrun..].
  exists out, ul', w'. split; [done|].
  apply (proj1 (proj2 (proj2 (uses_level_monotone
                     (Sample.unsat_core_oracle [Sample.lit_b])
                     Sample.th_rewriter Sample.mk_and Sample.mk_or
                     Sample.get_or Sample.flatten_and
                     Sample.propagation_formula Sample.learner_c
                     Sample.o2n Sample.var_subst Sample.get_free_vars
                     Sample.expr_abstract Sample.get_formulas
                     Sample.smt_unsat Sample.ctx_P 0 10 Sample.child
                     [Sample.lit_a; Sample.lit_b; Sample.lit_c]
                     Sample.w0 out ul' w' [] [])))).
  - apply unsat_core_oracle_never_lowers.
  - exact Hrun.
Defined.

(** ** The Farkas generalizer *)

(** C2 (the code departs from the claim): on the core made of the single
    literal [p or q] the clause decomposition yields the disjuncts [p] and
    [q], but both interpolation requests name the whole formula [p or q] as
    their second argument; the current disjunct, stored in the local [C], is
    never passed on.  The other half of the claim holds: both disjuncts are
    replaced, the core becomes the flattened disjunction and the flag is
    set. *)
Theorem farkas_requests_name_whole_core :
  let B := Sample.mk_or [Sample.lit_p; Sample.lit_q] in
  let '(out, ul, w) :=
    core_farkas_generalizer Sample.mk_and Sample.mk_or Sample.get_or
      Sample.flatten_and Sample.propagation_formula Sample.learner_c
      Sample.ctx_P Sample.child [B] false Sample.w0 in
  Sample.get_or (Sample.mk_and [B]) = [Sample.lit_p; Sample.lit_q]
  ∧ w_itp w = [(Sample.lit_a, B); (Sample.lit_a, B)]
  ∧ out = [Sample.mk_or [Sample.lit_c; Sample.lit_c]]
  ∧ ul = true.
Proof. vm_compute. repeat split; reflexivity. Qed.

(** ** The multi-core generalizer *)

(** C3 (the code departs from the claim): with an oracle that has the two
    minimal cores [a] and [b], the multi-core generalizer returns the single
    core [b] on input [a; b; c].  The trial the claim describes for the
    covered literal [b] (the input without [b], re-minimized) would yield the
    strictly smaller core [a], but the loop runs over [old_core], which is
    constructed empty and never filled. *)
Theorem multi_generalizer_misses_second_core :
  (∃ w, core_multi_generalizer Sample.two_cores_oracle 0 10 Sample.child
          [Sample.lit_a; Sample.lit_b; Sample.lit_c] false [] Sample.w0
        = Done ([([Sample.lit_b], false)], w))
  ∧ swap_remove 1 [Sample.lit_a; Sample.lit_b; Sample.lit_c]
    = Some [Sample.lit_a; Sample.lit_c]
  ∧ (∃ w, core_bool_inductive_generalizer Sample.two_cores_oracle 0 10
            Sample.child [Sample.lit_a; Sample.lit_c] false Sample.w0
          = Done ([Sample.lit_a], false, w)).
Proof.
  split; [|split].
  - eexists. vm_compute. reflexivity.
  - reflexivity.
  - eexists. vm_compute. reflexivity.
Qed.

(** ** The arithmetic generalizer *)

(** C4 (the code departs from the claim): on the core
    [x >= 2; x <= 2; p] over a real-sorted [x] the equality (x, 2) is found
    at positions (0, 1); the parity rewrite does not apply, and the
    candidate handed to the oracle has true at position 0 only: position 1
    holds the alias-substituted literal [x <= x], not the trivial-true
    literal. *)
Theorem arith_trial_upper_literal :
  let core := [mk_ge Sample.real_x Sample.two_real;
               mk_le Sample.real_x Sample.two_real; Sample.lit_p] in
  let candidate := [mk_true; mk_le Sample.real_x Sample.real_x;
                    Sample.lit_p] in
  is_int Sample.real_x = false
  ∧ map (λ e, (m_term e, m_i e, m_j e))
        (get_eqs Sample.th_rewriter core reset []).2
    = [(Sample.real_x, 0, 1)]
  ∧ ∃ w', core_arith_inductive_generalizer Sample.accept_all
            Sample.th_rewriter Sample.child core false Sample.w0
          = Done (candidate, false, w')
          ∧ map ic_core (w_ind w') = [candidate].
Proof.
  split; [reflexivity|]. split; [by vm_compute|].
  eexists. split; [vm_compute; reflexivity|]. reflexivity.
Qed.

(** C9 (as stated, refuted): the literal [x <= 2] over a real-sorted [x]
    produces a bound record (upper, x, 2, index). *)
Lemma real_bound_recorded :
  is_int Sample.real_x = false
  ∧ bound_records
      (scan_literal 0 (mk_le Sample.real_x Sample.two_real) reset)
    = [mk_bound false Sample.real_x (Qcabs (Qc_of_Z 2)) 0]
  ∧ Qcabs (Qc_of_Z 2) = Qc_of_Z 2.
Proof.
  split; [reflexivity|]. split; [reflexivity|]. by apply Qc_is_canon.
Qed.

(** C9 (amended): bound extraction stores a record exactly for the literals
    of the four shapes [not(x <= r)], [not(x >= r)], [x <= r] and [x >= r]
    with numeral [r], where integer-sortedness of [x] is required for the two
    negated shapes only; [not(x <= r)] counts as the lower bound [r+1] and
    [not(x >= r)] as the upper bound [r-1]; the record is stored under the
    magnitude of the bound value, and for a negative bound value with the
    term negated and the direction inverted.  A literal of no such shape
    (in particular a negated shape over a term that is not integer-sorted)
    stores nothing. *)
Theorem bound_extraction_shapes (i : nat) (e : expr) (st : arith_state) :
  (∀ lo x r,
     bound_shape e lo x r →
     scan_literal i e st = insert_bound lo x r i st
     ∧ ∀ b, b ∈ bound_records (scan_literal i e st)
            ↔ b ∈ bound_records st ∨ b = normalize_bound lo x r i)
  ∧ ((∀ lo x r, ¬ bound_shape e lo x r) → scan_literal i e st = st).
Proof.
  split.
  - intros lo x r Hshape.
    rewrite (scan_literal_shape i e st lo x r Hshape). split; [done|].
    intros b. apply insert_bound_records.
  - apply scan_literal_no_shape.
Qed.

Lemma bound_extraction_shapes_witness :
  scan_literal 0 (mk_not (mk_le Sample.int_x Sample.two_int)) reset
  = insert_bound true Sample.int_x (Qc_of_Z 2 + Qc_of_Z 1)%Qc 0 reset.
Proof.
  apply (proj1 (bound_extraction_shapes 0
                  (mk_not (mk_le Sample.int_x Sample.two_int)) reset)).
  by eapply shape_not_le.
Defined.

(** ** The induction generalizer *)

Lemma pt_P_wf : wf_pt Sample.pt_P.
Proof. repeat constructor. Qed.

Lemma ctx_P_wf : wf_context Sample.ctx_P.
Proof. intros f. apply pt_P_wf. Qed.

(** C7: on a node without parent the induction generalizer returns core,
    flag and world untouched (so no solver was called).  On a node with a
    parent (with well-formed rules, at a level that fits an [unsigned]) it
    builds the induction-schema query for the parent's transformer and
    level at depth 2: the conjunction of the negated goal
    [not (forall x . Q_level(x) => blocked)], the induction hypotheses for
    the levels of [level - 2, level) above 0, and the transition axiom and
    the frame property of every queue entry, the queue being closed under
    rule-tail dependencies inside the depth window.  It hands this query to
    a fresh kernel; on [l_false] the core becomes the single literal
    [not blocked], where [blocked] is the blocked-transition formula of the
    parent's transformer at the parent's level (the conjunction of the
    negated transition formulas of its rules), and the flag becomes true;
    on any other answer core and flag are unchanged. *)
Theorem induction_generalizer_spec {ext : Type}
    (mk_and : list expr → expr)
    (o2n : func_decl → nat → func_decl)
    (var_subst : bool → expr → list (option expr) → expr)
    (get_free_vars : expr → list (option sort))
    (expr_abstract : list expr → expr → expr)
    (get_formulas : ext → pred_transformer → N → bool → expr)
    (smt_check : ext → expr → lbool * ext)
    (ctx : context) (n : model_node) (w : world ext) :
  wf_context ctx →
  (∀ p, parent n = Some p → wf_pt (pt p) ∧ (level p < 2 ^ 32)%N) →
  match parent n with
  | None =>
      ∀ fuel core uses_level,
        core_induction_generalizer mk_and o2n var_subst get_free_vars
          expr_abstract get_formulas smt_check ctx fuel n core uses_level w
        = Done (core, uses_level, w)
  | Some p =>
      ∃ fuel0 trs goal,
        transitions_of mk_and o2n var_subst get_free_vars
          (pt p) (level p) trs
        ∧ induction_schema mk_and o2n var_subst get_free_vars expr_abstract
            get_formulas ctx (w_ext w) (pt p) (level p) 2 trs goal
        ∧ mk_blocked_transition mk_and o2n var_subst get_free_vars
            (pt p) (level p) = Some (blocked mk_and trs)
        ∧ (∀ fuel, fuel0 ≤ fuel →
             mk_induction_goal mk_and o2n var_subst get_free_vars
               expr_abstract get_formulas ctx (w_ext w) fuel (pt p)
               (level p) 2 = Done goal)
        ∧ ∀ fuel core uses_level, fuel0 ≤ fuel →
            core_induction_generalizer mk_and o2n var_subst get_free_vars
              expr_abstract get_formulas smt_check ctx fuel n core
              uses_level w
            = let w' := mk_world (smt_check (w_ext w) goal).2 (w_ind w)
                                 (w_itp w) (w_smt w ++ [goal]) in
              match (smt_check (w_ext w) goal).1 with
              | l_false => Done ([mk_not (blocked mk_and trs)], true, w')
              | _ => Done (core, uses_level, w')
              end
  end.
Proof.
  intros Hctx Hwf.
  destruct (parent n) as [p|] eqn:Hp.
  - destruct (Hwf p eq_refl) as [Hwfp Hlvl].
    by apply induction_generalizer_builds.
  - intros fuel core uses_level. by apply induction_generalizer_root.
Qed.

Lemma induction_generalizer_spec_witness :
  ∃ fuel0 trs goal,
    transitions_of Sample.mk_and Sample.o2n Sample.var_subst
      Sample.get_free_vars (pt Sample.root) (level Sample.root) trs
    ∧ induction_schema Sample.mk_and Sample.o2n Sample.var_subst
        Sample.get_free_vars Sample.expr_abstract Sample.get_formulas
        Sample.ctx_P (w_ext Sample.w0) (pt Sample.root) (level Sample.root)
        2 trs goal
    ∧ mk_blocked_transition Sample.mk_and Sample.o2n Sample.var_subst
        Sample.get_free_vars (pt Sample.root) (level Sample.root)
      = Some (blocked Sample.mk_and trs)
    ∧ (∀ fuel, fuel0 ≤ fuel →
         mk_induction_goal Sample.mk_and Sample.o2n Sample.var_subst
           Sample.get_free_vars Sample.expr_abstract Sample.get_formulas
           Sample.ctx_P (w_ext Sample.w0) fuel (pt Sample.root)
           (level Sample.root) 2 = Done goal)
    ∧ ∀ fuel core uses_level, fuel0 ≤ fuel →
        core_induction_generalizer Sample.mk_and Sample.o2n Sample.var_subst
          Sample.get_free_vars Sample.expr_abstract Sample.get_formulas
          Sample.smt_unsat Sample.ctx_P fuel Sample.child core uses_level
          Sample.w0
        = Done ([mk_not (blocked Sample.mk_and trs)], true,
                mk_world tt [] [] [goal]).
Proof.
  apply (induction_generalizer_spec Sample.mk_and Sample.o2n Sample.var_subst
           Sample.get_free_vars Sample.expr_abstract Sample.get_formulas
           Sample.smt_unsat Sample.ctx_P Sample.child Sample.w0).
  - apply ctx_P_wf.
  - intros p [= <-]. split; [apply pt_P_wf|by vm_compute].
Defined.

(** C10: whether the induction generalizer rewrites, and what it rewrites
    to, does not depend on the input core (or flag): two calls in the same
    world on nodes with the same parent either both replace their core by
    the same single literal (with the flag set) or both return their inputs
    unchanged, and they leave the same world behind. *)
Theorem induction_generalizer_core_independent {ext : Type}
    (mk_and : list expr → expr)
    (o2n : func_decl → nat → func_decl)
    (var_subst : bool → expr → list (option expr) → expr)
    (get_free_vars : expr → list (option sort))
    (expr_abstract : list expr → expr → expr)
    (get_formulas : ext → pred_transformer → N → bool → expr)
    (smt_check : ext → expr → lbool * ext)
    (ctx : context) (n1 n2 : model_node) (core1 core2 : list expr)
    (ul1 ul2 : bool) (w : world ext) :
  wf_context ctx →
  (∀ p, parent n1 = Some p → wf_pt (pt p)) →
  parent n1 = parent n2 →
  ∃ fuel0, ∀ fuel, fuel0 ≤ fuel →
    let run := core_induction_generalizer mk_and o2n var_subst get_free_vars
                 expr_abstract get_formulas smt_check ctx fuel in
    (∃ lit w', run n1 core1 ul1 w = Done ([lit], true, w')
               ∧ run n2 core2 ul2 w = Done ([lit], true, w'))
    ∨ (∃ w', run n1 core1 ul1 w = Done (core1, ul1, w')
             ∧ run n2 core2 ul2 w = Done (core2, ul2, w')).
Proof.
  intros Hctx Hwf Hpar.
  destruct (parent n1) as [p|] eqn:Hp1.
  - destruct (induction_generalizer_run mk_and o2n var_subst get_free_vars
                expr_abstract get_formulas smt_check ctx n1 p w Hctx
                (Hwf p eq_refl) Hp1) as (f1 & goal1 & phi1 & Hphi1 & Hg1 & Hr1).
    destruct (induction_generalizer_run mk_and o2n var_subst get_free_vars
                expr_abstract get_formulas smt_check ctx n2 p w Hctx
                (Hwf p eq_refl) (eq_sym Hpar))
      as (f2 & goal2 & phi2 & Hphi2 & Hg2 & Hr2).
    assert (phi2 = phi1) as -> by congruence.
    assert (goal2 = goal1) as ->.
    { pose proof (Hg1 (f1 + f2) ltac:(lia)) as H1.
      pose proof (Hg2 (f1 + f2) ltac:(lia)) as H2. congruence. }
    exists (f1 + f2). intros fuel Hfuel run. subst run.
    rewrite Hr1, Hr2 by lia. simpl.
    destruct (smt_check (w_ext w) goal1).1; eauto.
  - exists 0. intros fuel _ run. subst run. right. exists w.
    by rewrite !induction_generalizer_root.
Qed.

Lemma induction_generalizer_core_independent_witness :
  ∃ fuel0, ∀ fuel, fuel0 ≤ fuel →
    let run := core_induction_generalizer Sample.mk_and Sample.o2n
                 Sample.var_subst Sample.get_free_vars Sample.expr_abstract
                 Sample.get_formulas Sample.smt_unsat Sample.ctx_P fuel in
    (∃ lit w', run Sample.child [Sample.lit_a] false Sample.w0
               = Done ([lit], true, w')
               ∧ run Sample.child [Sample.lit_b; Sample.lit_c] true Sample.w0
                 = Done ([lit], true, w'))
    ∨ (∃ w', run Sample.child [Sample.lit_a] false Sample.w0
             = Done ([Sample.lit_a], false, w')
             ∧ run Sample.child [Sample.lit_b; Sample.lit_c] true Sample.w0
               = Done ([Sample.lit_b; Sample.lit_c], true, w')).
Proof.
  apply (induction_generalizer_core_independent Sample.mk_and Sample.o2n
           Sample.var_subst Sample.get_free_vars Sample.expr_abstract
           Sample.get_formulas Sample.smt_unsat Sample.ctx_P
           Sample.child Sample.child).
  - apply ctx_P_wf.
  - intros p [= <-]. apply pt_P_wf.
  - reflexivity.
Defined.

(** * Further properties of the individual functions *)

(** ** Helpers of the bool and the multi-core generalizer *)

(** X1: The scan after an accepted drop stops at the first literal that has not
    been processed: everything before the position it returns is in
    [processed], the literal at that position (if any) is not. *)
Theorem skip_processed_first_fresh (processed core : list expr) :
  skip_processed processed core ≤ length core
  ∧ (∀ j e, j < skip_processed processed core → core !! j = Some e →
            e ∈ processed)
  ∧ (∀ e, core !! skip_processed processed core = Some e → e ∉ processed).
Proof.
  induction core as [|a core (IH1 & IH2 & IH3)]; simpl.
  { split; [lia|]. split; [intros; lia|]. by intros. }
  unfold contains. destruct (bool_decide_reflect (a ∈ processed)) as [Ha|Ha].
  - split; [lia|]. split.
    + intros [|j] e Hj; simpl; [by intros [= <-]|]. apply IH2. lia.
    + simpl. apply IH3.
  - split; [lia|]. split; [intros; lia|]. simpl. by intros e [= <-].
Qed.

(** X2: Removing position [i] the way the multi-core generalizer does (move the
    last literal into position [i], drop the last position) removes exactly
    the literal at position [i]: the other literals survive as a multiset.
    Out of range, empty vector included, the operation faults. *)
Theorem swap_remove_removes_one (i : nat) (l : list expr) :
  (∀ x, l !! i = Some x →
        ∃ l', swap_remove i l = Some l' ∧ l ≡ₚ x :: l'
              ∧ S (length l') = length l)
  ∧ (length l ≤ i → swap_remove i l = None).
Proof.
  split.
  - intros x Hx. unfold swap_remove.
    pose proof (lookup_lt_Some _ _ _ Hx) as Hi.
    destruct (decide (l = [])) as [->|Hne]; [done|].
    destruct (exists_last Hne) as (l0 & b & ->).
    rewrite last_snoc. simpl. apply Nat.ltb_lt in Hi as Hi'. rewrite Hi'.
    rewrite length_app in *. simpl in *.
    replace (length l0 + 1 - 1) with (length l0) by lia.
    eexists. split; [done|].
    destruct (decide (i = length l0)) as [->|Hlt].
    + rewrite list_lookup_middle in Hx by done. injection Hx as <-.
      rewrite list_insert_id by (by apply list_lookup_middle).
      rewrite take_app_length. split; [|lia].
      by rewrite Permutation_app_comm.
    + rewrite lookup_app_l in Hx by lia.
      rewrite insert_app_l by lia. rewrite take_app_length'
        by (by rewrite length_insert).
      rewrite length_insert. split; [|lia].
      rewrite insert_take_drop by lia.
      rewrite <- (take_drop_middle l0 i x Hx) at 1.
      rewrite <- !Permutation_middle. simpl. rewrite app_nil_r.
      apply Permutation_swap.
  - intros Hlen. unfold swap_remove.
    destruct (last l); simpl; [|done].
    by apply Nat.ltb_ge in Hlen as ->.
Qed.

Lemma swap_remove_removes_one_witness :
  ∃ l', swap_remove 1 [Sample.lit_a; Sample.lit_b; Sample.lit_c] = Some l'
        ∧ [Sample.lit_a; Sample.lit_b; Sample.lit_c] ≡ₚ Sample.lit_b :: l'
        ∧ S (length l') = 3.
Proof.
  apply (proj1 (swap_remove_removes_one 1
                  [Sample.lit_a; Sample.lit_b; Sample.lit_c])).
  reflexivity.
Defined.

Lemma elem_of_set_union (tgt src : list expr) (e : expr) :
  e ∈ set_union tgt src ↔ e ∈ tgt ∨ e ∈ src.
Proof.
  unfold set_union. revert tgt.
  induction src as [|a src IH]; intros tgt; simpl.
  { rewrite elem_of_nil. tauto. }
  rewrite IH, elem_of_cons. unfold set_insert.
  destruct (bool_decide_reflect (a ∈ tgt)) as [Ha|Ha].
  - split; [tauto|]. intros [?|[->|?]]; tauto.
  - rewrite elem_of_app, list_elem_of_singleton. tauto.
Qed.

Section multi_loop_facts.
Context {ext : Type}.
Variable check_inductive :
  ext → pred_transformer → N → list expr → bool →
  bool * list expr * bool * ext.

(** X3: The loop of the multi-core generalizer, run over any [old_core]: it only
    appends to the result (at most one core per position visited), every
    core it appends is strictly smaller than [old_core], the covered set
    only shrinks, and what remains covered at the end is contained in every
    core appended. *)
Theorem multi_loop_appends_smaller (m_failure_limit : N) (fuel : nat)
    (n : model_node) (old_core : list expr) (uses_level : bool)
    (idxs : list nat) (s s' : multi_state ext) :
  multi_loop check_inductive m_failure_limit fuel n old_core uses_level
    idxs s = Done s' →
  ∃ added,
    ms_new_cores s' = ms_new_cores s ++ added
    ∧ length added ≤ length idxs
    ∧ Forall (λ c, length c.1 < length old_core) added
    ∧ (∀ e, e ∈ ms_core_exprs s' → e ∈ ms_core_exprs s)
    ∧ (∀ e c, e ∈ ms_core_exprs s' → c ∈ added → e ∈ c.1).
Proof.
  revert s. induction idxs as [|i idxs IH]; intros s; simpl.
  { intros [= <-]. exists []. rewrite app_nil_r.
    repeat split; auto. intros e c _ Hc. by apply elem_of_nil in Hc. }
  destruct (multi_body _ _ _ _ _ _ _ _) as [s1| |] eqn:Hbody; [|done..].
  intros (added & Hnew & Hlen & Hsmall & Hcov & Hall)%IH.
  unfold multi_body in Hbody.
  destruct (old_core !! i) as [lit|]; [|done].
  destruct (contains (ms_core_exprs s) lit);
    [|injection Hbody as <-; exists added; repeat split; auto].
  destruct (swap_remove i old_core) as [core1|]; [|done].
  destruct (core_bool_inductive_generalizer _ _ _ _ _ _ _)
    as [[[core1' ul1] w1]| |]; [|done..].
  destruct (length core1' <? length old_core) eqn:Hlt;
    injection Hbody as <-; simpl in *.
  - apply Nat.ltb_lt in Hlt.
    exists ((core1', ul1) :: added). rewrite Hnew, <- app_assoc. simpl.
    split; [done|]. split; [lia|]. split; [by constructor|].
    assert (∀ e, e ∈ ms_core_exprs s' →
                 e ∈ ms_core_exprs s ∧ e ∈ core1') as Hin.
    { intros e He. apply Hcov in He. unfold set_intersection in He.
      apply list_elem_of_filter in He as [He1 He2].
      apply elem_of_set_union in He1 as [He1|He1]; [|done].
      by apply elem_of_nil in He1. }
    split; [intros e He; by apply Hin|].
    intros e c He [->|Hc]%elem_of_cons; [by apply Hin|by eapply Hall].
  - exists added. repeat split; auto.
Qed.

End multi_loop_facts.

Lemma multi_loop_appends_smaller_witness :
  ∃ s' added,
    multi_loop Sample.two_cores_oracle 0 10 Sample.child
      [Sample.lit_a; Sample.lit_b; Sample.lit_c] false [0; 1; 2]
      (mk_multi_state [([Sample.lit_b], false)] [Sample.lit_b] Sample.w0)
    = Done s'
    ∧ ms_new_cores s' = [([Sample.lit_b], false)] ++ added
    ∧ length added ≤ 3
    ∧ Forall (λ c, length c.1 < 3) added
    ∧ (∀ e, e ∈ ms_core_exprs s' → e ∈ [Sample.lit_b])
    ∧ (∀ e c, e ∈ ms_core_exprs s' → c ∈ added → e ∈ c.1).
Proof.
  destruct (multi_loop _ _ _ _ _ _ _ _) as [s'| |] eqn:Hrun;
    [|by vm_compute in Hrun..].
  destruct (multi_loop_appends_smaller _ _ _ _ _ _ _ _ _ Hrun)
    as (added & H).
  by exists s', added.
Defined.

(** ** The bool generalizer on its own *)

Section bool_generalizer_more.
Context {ext : Type}.
Variable check_inductive :
  ext → pred_transformer → N → list expr → bool →
  bool * list expr * bool * ext.
Variable m_failure_limit : N.
Variable n : model_node.

Lemma read_only_keeps : read_only check_inductive →
  keeps_on_failure check_inductive.
Proof. intros Hro x p lvl core ul _. apply Hro. Qed.

Lemma bool_body_read_only (core0 : list expr) (s : bool_state ext) :
  read_only check_inductive →
  bool_guard m_failure_limit s = true →
  masked core0 (bs_core s) →
  ∃ s', bool_body check_inductive n s = Some s'
        ∧ masked core0 (bs_core s').
Proof.
  intros Hro [Hi _]%bool_guard_true [Hlen Hpos].
  destruct (lookup_lt_is_Some_2 _ _ Hi) as [lit Hlit].
  unfold bool_body, call_check_inductive. rewrite Hlit. simpl.
  pose proof (Hro (w_ext (bs_world s)) (pt n) (level n)
                (<[bs_i s := mk_true]> (bs_core s)) (bs_uses_level s)) as Hc.
  destruct (check_inductive _ _ _ _ _) as [[[res core2] ul2] x2].
  unfold ci_core in Hc. simpl in Hc. subst core2.
  destruct res.
  - eexists. split; [done|]. simpl. split; [by rewrite length_insert|].
    intros j e. destruct (decide (j = bs_i s)) as [->|Hne].
    + rewrite list_lookup_insert_eq by done. intros [= <-]. by left.
    + rewrite list_lookup_insert_ne by done. apply Hpos.
  - rewrite length_insert. apply Nat.ltb_lt in Hi as ->.
    eexists. split; [done|]. simpl.
    rewrite list_insert_insert_eq, list_insert_id by done. by split.
Qed.

Lemma bool_loop_read_only (core0 : list expr) (fuel : nat)
    (s : bool_state ext) :
  read_only check_inductive →
  masked core0 (bs_core s) →
  match bool_loop check_inductive m_failure_limit fuel n s with
  | Done s' => masked core0 (bs_core s')
  | OutOfRange => False
  | OutOfFuel => True
  end.
Proof.
  intros Hro. revert s. induction fuel as [|fuel IH]; intros s Hm; simpl.
  - by destruct (bool_guard m_failure_limit s).
  - destruct (bool_guard m_failure_limit s) eqn:Hg; [|done].
    destruct (bool_body_read_only core0 s Hro Hg Hm) as (s1 & -> & Hm1).
    by apply IH.
Qed.

(** X4: With an oracle that does not modify the core the bool generalizer never
    indexes out of range, and if it returns, the output has the size of the
    input and holds at each position the input literal or the trivial-true
    literal: the generalizer itself overwrites, it never removes. *)
Theorem bool_generalizer_read_only (fuel : nat) (core : list expr)
    (uses_level : bool) (w : world ext) :
  read_only check_inductive →
  match core_bool_inductive_generalizer check_inductive m_failure_limit
          fuel n core uses_level w with
  | Done (out, _, _) =>
      length out = length core
      ∧ ∀ j e, out !! j = Some e → e = mk_true ∨ core !! j = Some e
  | OutOfRange => False
  | OutOfFuel => True
  end.
Proof.
  intros Hro. unfold core_bool_inductive_generalizer.
  destruct (length core <=? 1); [split; auto|].
  pose proof (bool_loop_read_only core fuel
                (mk_bool_state core uses_level w 0 0%N []) Hro) as H.
  destruct (bool_loop _ _ _ _ _) as [s'| |]; simpl; [| |done];
    apply H; split; auto.
Qed.

(** *** What survives was tried *)

Lemma skip_processed_prefix (processed core : list expr) (j : nat)
    (e : expr) :
  j < skip_processed processed core → core !! j = Some e → e ∈ processed.
Proof.
  revert j. induction core as [|a core IH]; intros j; simpl; [lia|].
  unfold contains. destruct (bool_decide_reflect (a ∈ processed)); [|lia].
  destruct j as [|j]; simpl; [by intros _ [= <-]|].
  intros Hj. apply IH. lia.
Qed.

Lemma held_snoc (core : list expr) (calls : list ind_call) (c : ind_call) :
  held core (calls ++ [c])
  = if ic_result c then ic_left c else held core calls.
Proof. unfold held. by rewrite foldl_app. Qed.

Lemma rejected_in_app (core : list expr) (calls more : list ind_call)
    p lvl e :
  rejected_in core calls p lvl e → rejected_in core (calls ++ more) p lvl e.
Proof.
  intros (pre & c & post & i & -> & H). exists pre, c, (post ++ more), i.
  split; [|done]. by rewrite <- app_assoc.
Qed.

Lemma bool_body_tried (core0 : list expr) (log0 : list ind_call)
    (s s' : bool_state ext) :
  keeps_on_failure check_inductive →
  bool_body check_inductive n s = Some s' →
  tried n core0 log0 s → tried n core0 log0 s'.
Proof.
  intros Hkeep
    (lit & res & core2 & ul2 & x2 & Hlit & Hci & Hw & _ & Hcase)%bool_body_inv
    (calls & Hlog & Hheld & Hpre & Hrej).
  pose proof (Hkeep (w_ext (bs_world s)) (pt n) (level n)
                (<[bs_i s := mk_true]> (bs_core s)) (bs_uses_level s)) as Hk.
  rewrite Hci in Hk. unfold ci_result, ci_core in Hk. simpl in Hk.
  eexists. split.
  { rewrite Hw. simpl. rewrite Hlog, <- app_assoc. reflexivity. }
  destruct Hcase as [(-> & -> & -> & _ & ->)|(-> & _ & -> & -> & ->)].
  - split; [by rewrite held_snoc|].
    split; [apply skip_processed_prefix|].
    intros e He. by apply rejected_in_app, Hrej.
  - rewrite (Hk eq_refl), list_insert_insert_eq, list_insert_id by done.
    split; [by rewrite held_snoc|].
    split.
    + intros j e Hj He. apply elem_of_app.
      destruct (decide (j = bs_i s)) as [->|Hne].
      * right. rewrite Hlit in He. injection He as <-. by left.
      * left. apply (Hpre j); [lia|done].
    + intros e [He|He]%elem_of_app.
      * by apply rejected_in_app, Hrej.
      * apply list_elem_of_singleton in He as ->.
        eexists calls, _, [], (bs_i s). rewrite <- Hheld.
        split; [reflexivity|done].
Qed.

End bool_generalizer_more.

Lemma bool_generalizer_read_only_witness :
  match core_bool_inductive_generalizer Sample.accept_first 0 10
          Sample.child [Sample.lit_a; Sample.lit_b] false
          Sample.w0_counting with
  | Done (out, _, _) =>
      length out = 2
      ∧ ∀ j e, out !! j = Some e →
               e = mk_true ∨ [Sample.lit_a; Sample.lit_b] !! j = Some e
  | OutOfRange => False
  | OutOfFuel => True
  end.
Proof.
  apply (bool_generalizer_read_only Sample.accept_first 0 Sample.child 10
           [Sample.lit_a; Sample.lit_b] false Sample.w0_counting).
  by intros x p lvl core ul.
Defined.

Section bool_generalizer_trials.
Context {ext : Type}.
Variable check_inductive :
  ext → pred_transformer → N → list expr → bool →
  bool * list expr * bool * ext.
Variable n : model_node.

Lemma bool_loop_done_guard (m_failure_limit : N) (fuel : nat)
    (s s' : bool_state ext) :
  bool_loop check_inductive m_failure_limit fuel n s = Done s' →
  bool_guard m_failure_limit s' = false.
Proof.
  revert s. induction fuel as [|fuel IH]; intros s; simpl.
  - destruct (bool_guard m_failure_limit s) eqn:Hg; [done|].
    by intros [= <-].
  - destruct (bool_guard m_failure_limit s) eqn:Hg; [|by intros [= <-]].
    destruct (bool_body check_inductive n s); [|done]. apply IH.
Qed.

(** X5: Without a failure limit, and with an oracle that hands a rejected core
    back unchanged, an output core of more than one literal is locally
    minimal in the sense of the loop.  The calls the run logged account for
    the output (it is the core held after them), and every literal of the
    output was tried: one of these calls, on the node's transformer and
    level, returned false on the core held at that moment with a position
    holding that literal overwritten by true. *)
Theorem bool_generalizer_survivors_rejected (fuel : nat) (core : list expr)
    (uses_level : bool) (w : world ext)
    (out : list expr) (ul' : bool) (w' : world ext) :
  keeps_on_failure check_inductive →
  core_bool_inductive_generalizer check_inductive 0 fuel n core uses_level w
    = Done (out, ul', w') →
  1 < length out →
  ∃ calls, w_ind w' = w_ind w ++ calls
           ∧ out = held core calls
           ∧ ∀ e, e ∈ out → rejected_in core calls (pt n) (level n) e.
Proof.
  intros Hkeep. unfold core_bool_inductive_generalizer.
  destruct (length core <=? 1) eqn:Hsmall.
  { apply Nat.leb_le in Hsmall. intros [= <- _ _]. lia. }
  destruct (bool_loop _ _ _ _ _) as [s'| |] eqn:Hl; simpl; [|done..].
  intros [= <- <- <-] Hlen.
  assert (tried n core (w_ind w) s') as (calls & Hlog & Hheld & Hpre & Hrej).
  { eapply (bool_loop_invariant check_inductive 0 n
              (tried n core (w_ind w))); [|exact Hl|].
    - intros s1 s2 _. by apply bool_body_tried.
    - exists []. simpl. rewrite app_nil_r. split; [done|]. split; [done|].
      split; [intros; lia|]. intros e He. by apply elem_of_nil in He. }
  exists calls. split; [done|]. split; [done|].
  apply bool_loop_done_guard, bool_guard_false in Hl.
  destruct Hl as [Hi|[?|[? _]]]; [|lia|done].
  intros e (j & Hj)%list_elem_of_lookup. apply Hrej, (Hpre j); [|done].
  apply lookup_lt_Some in Hj. lia.
Qed.

(** *** The failure limit *)

Lemma bool_loop_all_rejected (m_failure_limit : N) (c : list expr)
    (fuel : nat) (s : bool_state ext) :
  read_only check_inductive →
  rejects_all check_inductive →
  1 < length c →
  (N.of_nat (length c) < 2 ^ 32)%N →
  bs_core s = c →
  bs_num_failures s = N.of_nat (bs_i s) →
  bs_i s ≤ rejected_trials m_failure_limit (length c) →
  rejected_trials m_failure_limit (length c) - bs_i s ≤ fuel →
  ∃ s', bool_loop check_inductive m_failure_limit fuel n s = Done s'
        ∧ bs_core s' = c
        ∧ length (w_ind (bs_world s'))
          = length (w_ind (bs_world s))
            + (rejected_trials m_failure_limit (length c) - bs_i s).
Proof.
  intros Hro Hrej Hlen Hbound. revert s.
  induction fuel as [|fuel IH]; intros s Hc Hnf Hle Hfuel.
  - assert (bs_i s = rejected_trials m_failure_limit (length c)) as Hi
      by lia.
    simpl.
    assert (bool_guard m_failure_limit s = false) as ->.
    { apply bool_guard_false. unfold bool_exit.
      rewrite Hc, Hnf, Hi. unfold rejected_trials.
      destruct (N.eqb_spec m_failure_limit 0); [left; lia|].
      destruct (Nat.min_spec (length c) (S (N.to_nat m_failure_limit)))
        as [[_ ->]|[_ ->]]; [left; lia|right; right; split; [done|lia]]. }
    exists s. split; [done|]. split; [done|]. lia.
  - simpl. destruct (bool_guard m_failure_limit s) eqn:Hg.
    + apply bool_guard_true in Hg as Hg'. destruct Hg' as [Hi _].
      rewrite Hc in Hi.
      assert (bs_i s < rejected_trials m_failure_limit (length c)) as Hlt.
      { unfold bool_guard in Hg. rewrite !andb_true_iff in Hg.
        destruct Hg as [_ Hg]. unfold rejected_trials in *.
        destruct (N.eqb_spec m_failure_limit 0); [done|]. simpl in Hg.
        apply N.leb_le in Hg. rewrite Hnf in Hg. lia. }
      destruct (lookup_lt_is_Some_2 c (bs_i s) Hi) as [lit Hlit].
      unfold bool_body, call_check_inductive. rewrite Hc, Hlit. simpl.
      pose proof (Hro (w_ext (bs_world s)) (pt n) (level n)
                    (<[bs_i s := mk_true]> c) (bs_uses_level s)) as Hc2.
      pose proof (Hrej (w_ext (bs_world s)) (pt n) (level n)
                    (<[bs_i s := mk_true]> c) (bs_uses_level s)) as Hr.
      destruct (check_inductive _ _ _ _ _) as [[[res core2] ul2] x2].
      unfold ci_core, ci_result in Hc2, Hr. simpl in Hc2, Hr. subst.
      rewrite length_insert. pose proof Hi as Hi2.
      apply Nat.ltb_lt in Hi2 as ->.
      rewrite list_insert_insert_eq, list_insert_id by done.
      edestruct (IH (mk_bool_state (bs_core s) ul2
                       (mk_world x2
                          (w_ind (bs_world s) ++
                             [mk_ind_call (pt n) (level n)
                                (<[bs_i s := mk_true]> (bs_core s)) false
                                (<[bs_i s := mk_true]> (bs_core s))])
                          (w_itp (bs_world s)) (w_smt (bs_world s)))
                       (S (bs_i s))
                       (wrap32 (Z.of_N (bs_num_failures s) + 1))
                       (bs_processed s ++ [lit])))
        as (s' & Hs' & Hcore & Hcount); simpl; try done.
      * rewrite Hnf. unfold wrap32.
        change (2 ^ 32)%N with 4294967296%N in Hbound.
        change (2 ^ 32)%Z with 4294967296%Z.
        rewrite Z.mod_small by lia. lia.
      * lia.
      * exists s'. split; [done|]. split; [done|].
        rewrite Hcount. simpl. rewrite length_app. simpl. lia.
    + exists s. split; [done|]. split; [done|].
      apply bool_guard_false in Hg. unfold bool_exit in Hg.
      rewrite Hc, Hnf in Hg. unfold rejected_trials in *.
      destruct (N.eqb_spec m_failure_limit 0); [lia|].
      destruct Hg as [?|[?|[_ ?]]]; lia.
Qed.

(** X6: When every trial is rejected (and the oracle leaves the core alone), the
    bool generalizer returns the input core after exactly one trial per
    literal, or, with a nonzero failure limit, after [m_failure_limit + 1]
    trials if the core is longer than that. *)
Theorem bool_generalizer_all_rejected (m_failure_limit : N) (fuel : nat)
    (core : list expr) (uses_level : bool) (w : world ext) :
  read_only check_inductive →
  rejects_all check_inductive →
  1 < length core →
  (N.of_nat (length core) < 2 ^ 32)%N →
  length core ≤ fuel →
  ∃ ul' w',
    core_bool_inductive_generalizer check_inductive m_failure_limit fuel n
      core uses_level w = Done (core, ul', w')
    ∧ length (w_ind w')
      = length (w_ind w) + rejected_trials m_failure_limit (length core).
Proof.
  intros Hro Hrej Hlen Hbound Hfuel.
  unfold core_bool_inductive_generalizer.
  destruct (Nat.leb_spec (length core) 1) as [?|_]; [lia|].
  destruct (bool_loop_all_rejected m_failure_limit core fuel
              (mk_bool_state core uses_level w 0 0%N []))
    as (s' & -> & Hcore & Hcount); simpl; try done.
  - lia.
  - unfold rejected_trials. destruct (_ =? _)%N; lia.
  - exists (bs_uses_level s'), (bs_world s'). rewrite Hcore.
    split; [done|]. rewrite Hcount. simpl. lia.
Qed.

End bool_generalizer_trials.

Lemma bool_generalizer_survivors_rejected_witness :
  ∃ out ul' w' calls,
    core_bool_inductive_generalizer
      (Sample.unsat_core_oracle [Sample.lit_a; Sample.lit_b]) 0 10
      Sample.child [Sample.lit_a; Sample.lit_b; Sample.lit_c] false
      Sample.w0 = Done (out, ul', w')
    ∧ 1 < length out
    ∧ w_ind w' = w_ind Sample.w0 ++ calls
    ∧ out = held [Sample.lit_a; Sample.lit_b; Sample.lit_c] calls
    ∧ ∀ e, e ∈ out →
           rejected_in [Sample.lit_a; Sample.lit_b; Sample.lit_c] calls
             (pt Sample.child) (level Sample.child) e.
Proof.
  destruct (core_bool_inductive_generalizer _ _ _ _ _ _ _)
    as [[[out ul'] w']| |] eqn:Hrun; [|by vm_compute in Hrun..].
  assert (1 < length out) as Hlen.
  { pose proof Hrun as H. vm_compute in H. injection H as <- _ _.
    simpl. lia. }
  destruct (bool_generalizer_survivors_rejected _ _ _ _ _ _ _ _ _
              (unsat_core_oracle_keeps _) Hrun Hlen)
    as (calls & H1 & H2 & H3).
  by exists out, ul', w', calls.
Defined.

Lemma bool_generalizer_all_rejected_witness :
  ∃ ul' w',
    core_bool_inductive_generalizer reject_all 1 10 Sample.child
      [Sample.lit_a; Sample.lit_b; Sample.lit_c] false Sample.w0
    = Done ([Sample.lit_a; Sample.lit_b; Sample.lit_c], ul', w')
    ∧ length (w_ind w') = length (w_ind Sample.w0) + 2.
Proof.
  apply (bool_generalizer_all_rejected reject_all Sample.child 1 10
           [Sample.lit_a; Sample.lit_b; Sample.lit_c] false Sample.w0).
  - by intros x p lvl core ul.
  - by intros x p lvl core ul.
  - simpl. lia.
  - by vm_compute.
  - simpl. lia.
Defined.

(** ** The Farkas generalizer on its own *)

Section farkas_more.
Context {ext : Type}.
Variable mk_and : list expr → expr.
Variable mk_or : list expr → expr.
Variable get_or : expr → list expr.
Variable flatten_and : expr → list expr → list expr.
Variable get_propagation_formula :
  ext → context → pred_transformer → N → expr.
Variable get_lemma_guesses : ext → expr → expr → bool * list expr * ext.

Abbreviation farkas_iter := (farkas_body mk_and get_lemma_guesses).
Abbreviation farkas := (core_farkas_generalizer mk_and mk_or get_or
                          flatten_and get_propagation_formula
                          get_lemma_guesses).

Lemma farkas_fold_all_fail (A B : expr) (idxs : list nat)
    (s : farkas_state ext) :
  (∀ x A B, (get_lemma_guesses x A B).1.1 = false) →
  fs_Bs (foldl (farkas_iter A B) s idxs) = fs_Bs s
  ∧ fs_change (foldl (farkas_iter A B) s idxs) = fs_change s.
Proof.
  intros Hfail. revert s. induction idxs as [|i idxs IH]; intros s; simpl.
  { done. }
  destruct (IH (farkas_iter A B s i)) as [-> ->].
  unfold farkas_body, call_get_lemma_guesses.
  pose proof (Hfail (w_ext (fs_world s)) A B) as Hf.
  destruct (get_lemma_guesses _ _ _) as [[ok lemmas] x']. simpl in Hf.
  by subst ok.
Qed.

(** X7: The Farkas generalizer makes no request on an empty core and otherwise
    exactly one request per disjunct of the core's conjunction, never calls
    the inductiveness oracle or the SMT kernel, and returns core and flag
    unchanged when no request succeeds. *)
Theorem farkas_requests_counted (ctx : context) (n : model_node)
    (core : list expr) (uses_level : bool) (w : world ext) :
  let B := mk_and core in
  let A := get_propagation_formula (w_ext w) ctx (pt n) (level n) in
  let k := match core with [] => 0 | _ => length (get_or B) end in
  let '(out, ul', w') := farkas ctx n core uses_level w in
  w_itp w' = w_itp w ++ replicate k (A, B)
  ∧ w_ind w' = w_ind w
  ∧ w_smt w' = w_smt w
  ∧ ((∀ x A B, (get_lemma_guesses x A B).1.1 = false) →
     out = core ∧ ul' = uses_level).
Proof.
  unfold core_farkas_generalizer.
  destruct core as [|e core]; simpl.
  { by rewrite app_nil_r. }
  set (B := mk_and (e :: core)).
  set (A := get_propagation_formula _ _ _ _).
  set (s0 := mk_farkas_state (get_or B) None false w).
  destruct (farkas_fold_logs mk_and get_lemma_guesses A B
              (seq 0 (length (get_or B))) s0) as (Hitp & Hind & Hsmt & _).
  rewrite length_seq in Hitp. simpl in Hitp, Hind, Hsmt.
  destruct (fs_change _) eqn:Hch; simpl; (split; [done|]);
    (split; [done|]); (split; [done|]); intros Hfail; [|done].
  destruct (farkas_fold_all_fail A B (seq 0 (length (get_or B))) s0 Hfail)
    as [_ Hc]. by rewrite Hch in Hc.
Qed.

Lemma farkas_fold_pure (A B : expr) (lemmas : list expr) (m k : nat)
    (s : farkas_state ext) :
  (∀ x, get_lemma_guesses x A B = (true, lemmas, x)) →
  k + m = length (fs_Bs s) →
  let s' := foldl (farkas_iter A B) s (seq k m) in
  fs_Bs s' = take k (fs_Bs s) ++ replicate m (mk_and lemmas)
  ∧ fs_change s' = (0 <? m) || fs_change s
  ∧ fs_world s' = with_requests (fs_world s) m A B.
Proof.
  intros Hpure. revert k s.
  induction m as [|m IH]; intros k s Hlen; simpl.
  { rewrite app_nil_r, take_ge by lia. split; [done|]. split; [done|].
    unfold with_requests. simpl. rewrite app_nil_r. by destruct (fs_world s). }
  set (s1 := farkas_iter A B s k).
  assert (fs_Bs s1 = <[k := mk_and lemmas]> (fs_Bs s)
          ∧ fs_change s1 = true
          ∧ fs_world s1 = with_requests (fs_world s) 1 A B)
    as (HBs & Hch & Hw).
  { subst s1. unfold farkas_body, call_get_lemma_guesses.
    by rewrite Hpure. }
  destruct (IH (S k) s1) as (-> & -> & ->).
  { rewrite HBs, length_insert. lia. }
  rewrite HBs, Hch, Hw, orb_true_r. split; [|split; [done|]].
  - rewrite (take_S_r _ _ (mk_and lemmas))
      by (apply list_lookup_insert_eq; lia).
    rewrite take_insert_ge by lia. by rewrite <- app_assoc.
  - unfold with_requests. simpl. by rewrite <- app_assoc.
Qed.

(** X8: With a learner that answers the request [(A, B)] the same way whatever
    the external state, and leaves that state alone, the outcome of the
    Farkas generalizer on a nonempty core is all-or-nothing: on success every
    disjunct is replaced by the same conjunction of the lemmas and the flag
    is set, on failure core and flag are returned unchanged. *)
Theorem farkas_pure_learner (ctx : context) (n : model_node)
    (core : list expr) (uses_level : bool) (w : world ext)
    (ok : bool) (lemmas : list expr) :
  let B := mk_and core in
  let A := get_propagation_formula (w_ext w) ctx (pt n) (level n) in
  let k := length (get_or B) in
  core ≠ [] →
  (∀ x, get_lemma_guesses x A B = (ok, lemmas, x)) →
  farkas ctx n core uses_level w
  = if ok && (0 <? k) then
      (flatten_and (mk_or (replicate k (mk_and lemmas))) [], true,
       with_requests w k A B)
    else (core, uses_level, with_requests w k A B).
Proof.
  intros B A k Hne Hpure. unfold core_farkas_generalizer.
  destruct core as [|e core]; [done|]. fold B. fold A.
  destruct ok.
  - destruct (farkas_fold_pure A B lemmas (length (get_or B)) 0
                (mk_farkas_state (get_or B) None false w) Hpure)
      as (HBs & Hch & Hw); [done|].
    simpl in HBs, Hch, Hw. rewrite HBs, Hch, Hw, orb_false_r. simpl.
    fold k. by destruct (0 <? k).
  - set (s0 := mk_farkas_state (get_or B) None false w).
    assert (∀ idxs s,
              fs_Bs (foldl (farkas_iter A B) s idxs) = fs_Bs s
              ∧ fs_change (foldl (farkas_iter A B) s idxs) = fs_change s
              ∧ fs_world (foldl (farkas_iter A B) s idxs)
                = with_requests (fs_world s) (length idxs) A B) as Hfold.
    { induction idxs as [|i idxs IH]; intros s; simpl.
      - unfold with_requests. simpl. rewrite app_nil_r.
        by destruct (fs_world s).
      - destruct (IH (farkas_iter A B s i)) as (-> & -> & ->).
        unfold farkas_body, call_get_lemma_guesses. rewrite Hpure. simpl.
        unfold with_requests. simpl. by rewrite <- app_assoc. }
    destruct (Hfold (seq 0 (length (get_or B))) s0) as (_ & -> & ->).
    simpl. by rewrite length_seq.
Qed.

End farkas_more.

Lemma farkas_requests_counted_witness :
  let '(out, ul', w') :=
    core_farkas_generalizer Sample.mk_and Sample.mk_or Sample.get_or
      Sample.flatten_and Sample.propagation_formula learner_fails
      Sample.ctx_P Sample.child
      [Sample.mk_or [Sample.lit_p; Sample.lit_q]] false Sample.w0 in
  out = [Sample.mk_or [Sample.lit_p; Sample.lit_q]] ∧ ul' = false.
Proof.
  pose proof (farkas_requests_counted Sample.mk_and Sample.mk_or
                Sample.get_or Sample.flatten_and Sample.propagation_formula
                learner_fails Sample.ctx_P Sample.child
                [Sample.mk_or [Sample.lit_p; Sample.lit_q]] false Sample.w0)
    as H.
  cbv zeta in H.
  destruct (core_farkas_generalizer _ _ _ _ _ _ _ _ _ _ _)
    as [[out ul'] w'].
  destruct H as (_ & _ & _ & H). apply H. by intros x A B.
Defined.

Lemma farkas_pure_learner_witness :
  core_farkas_generalizer Sample.mk_and Sample.mk_or Sample.get_or
    Sample.flatten_and Sample.propagation_formula Sample.learner_c
    Sample.ctx_P Sample.child
    [Sample.mk_or [Sample.lit_p; Sample.lit_q]] false Sample.w0
  = (Sample.flatten_and
       (Sample.mk_or (replicate 2 (Sample.mk_and [Sample.lit_c]))) [],
     true,
     with_requests Sample.w0 2 Sample.lit_a
       (Sample.mk_or [Sample.lit_p; Sample.lit_q])).
Proof.
  apply (farkas_pure_learner Sample.mk_and Sample.mk_or Sample.get_or
           Sample.flatten_and Sample.propagation_formula Sample.learner_c
           Sample.ctx_P Sample.child
           [Sample.mk_or [Sample.lit_p; Sample.lit_q]] false Sample.w0
           true [Sample.lit_c]).
  - discriminate.
  - by intros x.
Defined.

(** ** The arithmetic generalizer on its own *)

Lemma foldl_invariant {A B : Type} (f : A → B → A) (I : A → Prop)
    (l : list B) (a : A) :
  (∀ acc x, x ∈ l → I acc → I (f acc x)) → I a → I (foldl f a l).
Proof.
  revert a. induction l as [|x l IH]; intros a Hstep Ha; simpl; [done|].
  apply IH.
  - intros acc y Hy. apply Hstep. by right.
  - apply Hstep; [by left|done].
Qed.

Lemma br_index_normalize (lo : bool) (x : expr) (r : Qc) (i : nat) :
  br_index (normalize_bound lo x r i) = i.
Proof. unfold normalize_bound. by destruct (Qc_is_neg r). Qed.

Lemma scan_literal_cases (i : nat) (e : expr) (st : arith_state) :
  scan_literal i e st = st
  ∨ ∃ lo x r, scan_literal i e st = insert_bound lo x r i st.
Proof.
  unfold scan_literal.
  destruct (match_not_le_int e) as [[x r]|]; [right; eauto|].
  destruct (match_not_ge_int e) as [[x r]|]; [right; eauto|].
  destruct (match_le e) as [[x r]|]; [right; eauto|].
  destruct (match_ge e) as [[x r]|]; [right; eauto|by left].
Qed.

Lemma records_indexed_mono (n m : nat) (st : arith_state) :
  n ≤ m → records_indexed n st → records_indexed m st.
Proof.
  intros Hle [H1 H2]. split; [|done]. intros b Hb. specialize (H1 b Hb). lia.
Qed.

Lemma scan_literal_indexed (i : nat) (e : expr) (st : arith_state) :
  records_indexed i st → records_indexed (S i) (scan_literal i e st).
Proof.
  intros Hst.
  destruct (scan_literal_cases i e st) as [->|(lo & x & r & ->)].
  { eapply records_indexed_mono; [|done]. lia. }
  destruct Hst as [H1 H2]. split.
  - intros b [Hb| ->]%insert_bound_records.
    + specialize (H1 b Hb). lia.
    + rewrite br_index_normalize. lia.
  - intros b1 b2 [Hb1| ->]%insert_bound_records
                 [Hb2| ->]%insert_bound_records;
      rewrite ?br_index_normalize; intros Heq.
    + by apply H2.
    + specialize (H1 b1 Hb1). lia.
    + specialize (H1 b2 Hb2). lia.
    + done.
Qed.

Lemma scan_core_indexed (i : nat) (core : list expr) (st : arith_state) :
  records_indexed i st →
  records_indexed (i + length core) (scan_core i core st).
Proof.
  revert i st. induction core as [|e core IH]; intros i st Hst; simpl.
  { by rewrite Nat.add_0_r. }
  replace (i + S (length core)) with (S i + length core) by lia.
  apply IH. by apply scan_literal_indexed.
Qed.

Lemma records_of_elem (lo : bool) (m : bounds_t) (r : Qc)
    (terms : list term_loc_t) (tl : term_loc_t) :
  (r, terms) ∈ m → tl ∈ terms → mk_bound lo tl.1 r tl.2 ∈ records_of lo m.
Proof.
  intros Hm Htl. unfold records_of.
  induction m as [|entry m IH]; [by apply elem_of_nil in Hm|].
  simpl. apply elem_of_app.
  apply elem_of_cons in Hm as [<-|Hm]; [left|right; by apply IH].
  simpl. apply (list_elem_of_fmap_2 (λ tl : term_loc_t, mk_bound lo tl.1 r tl.2)).
  done.
Qed.

Lemma bounds_find_elem (m : bounds_t) (r : Qc) (terms : list term_loc_t) :
  bounds_find m r = Some terms → (r, terms) ∈ m.
Proof.
  induction m as [|[k v] m IH]; simpl; [done|].
  destruct (decide (k = r)) as [->|_].
  - intros [= ->]. by left.
  - intros H. right. by apply IH.
Qed.

Section arith_more.
Context {ext : Type}.
Variable check_inductive :
  ext → pred_transformer → N → list expr → bool →
  bool * list expr * bool * ext.
Variable th_rewriter : expr → expr.

Lemma find_alias_elem (t1 : expr) (terms2 : list term_loc_t) (j : nat) :
  find_alias th_rewriter t1 terms2 = Some j → ∃ t2, (t2, j) ∈ terms2.
Proof.
  induction terms2 as [|[t2 j2] terms2 IH]; simpl; [done|].
  destruct (decide (t1 = t2)); [intros [= <-]; exists t2; by left|].
  destruct (is_true _); [intros [= <-]; exists t2; by left|].
  intros (t & Ht)%IH. exists t. by right.
Qed.

(** X9: Every equality [get_eqs] discovers names two distinct positions of the
    core, a lower-bound literal and an upper-bound literal, and a value of
    at least two. *)
Theorem get_eqs_entries_valid (core : list expr) :
  Forall (valid_entry (length core))
         (get_eqs th_rewriter core reset []).2.
Proof.
  unfold get_eqs. simpl.
  set (st := scan_core 0 core reset).
  assert (records_indexed (length core) st) as [Hidx Hdir].
  { apply (scan_core_indexed 0 core reset). split.
    - intros b Hb. by apply elem_of_nil in Hb.
    - intros b1 b2 Hb. by apply elem_of_nil in Hb. }
  apply (foldl_invariant _ (Forall (valid_entry (length core))));
    [|constructor].
  intros eqs [r terms1] Hentry Heqs.
  destruct (Qc_geb r (Qc_of_Z 2)) eqn:Hr; [|done].
  destruct (bounds_find (m_ub st) r) as [terms2|] eqn:Hfind; [|done].
  apply bounds_find_elem in Hfind.
  unfold pair_terms.
  apply (foldl_invariant _ (Forall (valid_entry (length core))));
    [|done].
  intros acc [x i] Ht Hacc. simpl.
  destruct (find_alias th_rewriter x terms2) as [j|] eqn:Hj; [|done].
  apply find_alias_elem in Hj as [t2 Ht2].
  apply Forall_app. split; [done|]. constructor; [|constructor].
  pose proof (records_of_elem true _ _ _ _ Hentry Ht) as Hlo.
  pose proof (records_of_elem false _ _ _ _ Hfind Ht2) as Hup.
  simpl in Hlo, Hup.
  assert (mk_bound true x r i ∈ bound_records st) as Hlo'
    by (apply elem_of_app; by left).
  assert (mk_bound false t2 r j ∈ bound_records st) as Hup'
    by (apply elem_of_app; by right).
  unfold valid_entry. simpl. repeat split.
  - apply (Hidx _ Hlo').
  - apply (Hidx _ Hup').
  - intros Heq. by pose proof (Hdir _ _ Hlo' Hup' Heq).
  - done.
Qed.

Lemma arith_new_core_length (r : Qc) (x : expr) (k l : nat)
    (core : list expr) :
  k < length core → l < length core →
  ∃ new_core, arith_new_core r x k l core = Some new_core
              ∧ length new_core = length core.
Proof.
  intros Hk Hl. unfold arith_new_core. rewrite length_imap.
  apply Nat.ltb_lt in Hk as ->. apply Nat.ltb_lt in Hl as ->. simpl.
  destruct (_ && _); eexists; (split; [done|]);
    by rewrite ?length_insert, length_imap.
Qed.

Lemma arith_loop_total (n : model_node) (len : nat) (eqs : list eq_entry)
    (core : list expr) (uses_level : bool) (w : world ext) :
  keeps_length check_inductive →
  Forall (valid_entry len) eqs →
  length core = len →
  ∃ out ul' w' calls,
    arith_loop check_inductive n eqs core uses_level w = Done (out, ul', w')
    ∧ length out = len
    ∧ w_ind w' = w_ind w ++ calls
    ∧ length calls = length eqs.
Proof.
  intros Hkl Hvalid. revert core uses_level w.
  induction Hvalid as [|e eqs (Hi & Hj & _) _ IH];
    intros core uses_level w Hlen; simpl.
  { exists core, uses_level, w, []. by rewrite app_nil_r. }
  destruct (arith_new_core_length (m_value e) (m_term e) (m_i e) (m_j e)
              core) as (nc & -> & Hnc); [lia..|].
  unfold call_check_inductive.
  pose proof (Hkl (w_ext w) (pt n) (level n) nc uses_level) as Hc.
  destruct (check_inductive _ _ _ _ _) as [[[res core2] ul2] x2].
  unfold ci_core in Hc. simpl in Hc.
  edestruct (IH (if res then core2 else core) ul2) as
    (out & ul' & w' & calls & -> & Hout & Hlog & Hcalls).
  { destruct res; lia. }
  exists out, ul', w',
    (mk_ind_call (pt n) (level n) nc res core2 :: calls).
  split; [done|]. split; [done|]. split; [|simpl; by rewrite Hcalls].
  rewrite Hlog. simpl. by rewrite <- app_assoc.
Qed.

(** X10: With an oracle that hands back cores of the length it received, the
    arithmetic generalizer never indexes out of range: it always returns, the
    output core has the size of the input core, and it has queried the oracle
    exactly once per discovered equality (not at all on a core of at most
    one literal). *)
Theorem arith_generalizer_total (n : model_node) (core : list expr)
    (uses_level : bool) (w : world ext) :
  keeps_length check_inductive →
  ∃ out ul' w' calls,
    core_arith_inductive_generalizer check_inductive th_rewriter n core
      uses_level w = Done (out, ul', w')
    ∧ length out = length core
    ∧ w_ind w' = w_ind w ++ calls
    ∧ length calls
      = if length core <=? 1 then 0
        else length (get_eqs th_rewriter core reset []).2.
Proof.
  intros Hkl. unfold core_arith_inductive_generalizer.
  destruct (length core <=? 1).
  { exists core, uses_level, w, []. by rewrite app_nil_r. }
  pose proof (get_eqs_entries_valid core) as Hvalid.
  destruct (get_eqs th_rewriter core reset []) as [st eqs]. simpl in *.
  by apply (arith_loop_total n (length core)).
Qed.

End arith_more.

Lemma arith_generalizer_total_witness :
  ∃ out ul' w' calls,
    core_arith_inductive_generalizer Sample.accept_all Sample.th_rewriter
      Sample.child
      [mk_ge Sample.int_x Sample.two_int; mk_le Sample.int_x Sample.two_int;
       Sample.lit_p] false Sample.w0 = Done (out, ul', w')
    ∧ length out = 3
    ∧ w_ind w' = w_ind Sample.w0 ++ calls
    ∧ length calls = 1.
Proof.
  apply (arith_generalizer_total Sample.accept_all Sample.th_rewriter
           Sample.child
           [mk_ge Sample.int_x Sample.two_int;
            mk_le Sample.int_x Sample.two_int; Sample.lit_p] false
           Sample.w0).
  by intros x p lvl core ul.
Defined.

(** *** Alias substitution *)

Lemma substitute_alias_unfold (r : Qc) (x e : expr) :
  substitute_alias r x e
  = match
      match e with
      | app d [e1] =>
          if decide (get_kind d = OP_NOT) then substitute_alias r x e1
          else None
      | _ => None
      end
    with
    | Some result => Some (mk_not result)
    | None => alias_bound r x e
    end.
Proof. by destruct e. Qed.

Lemma alias_bound_sound (r : Qc) (x e e' : expr) :
  alias_bound r x e = Some e' → alias_rewrite r x e e'.
Proof.
  unfold alias_bound.
  destruct (is_le e) as [[y z]|] eqn:Hle; simpl.
  - destruct (is_numeral z) as [r2|] eqn:Hnum; simpl.
    + destruct (decide (r = r2)) as [<-|Hne].
      * intros [= <-]. by eapply alias_le.
      * apply is_le_kind in Hle as (d & -> & Hk).
        unfold is_ge. by rewrite is_app_of_other by congruence.
    + apply is_le_kind in Hle as (d & -> & Hk).
      unfold is_ge. by rewrite is_app_of_other by congruence.
  - destruct (is_ge e) as [[y z]|] eqn:Hge; simpl; [|done].
    destruct (is_numeral z) as [r2|] eqn:Hnum; simpl; [|done].
    destruct (decide (r = r2)) as [<-|Hne]; [|done].
    intros [= <-]. by eapply alias_ge.
Qed.

Lemma substitute_alias_sound (r : Qc) (x : expr) :
  ∀ e e', substitute_alias r x e = Some e' → alias_rewrite r x e e'.
Proof.
  fix IH 1. intros e e'. rewrite substitute_alias_unfold.
  destruct e as [idx srt|d args|q ss ns b];
    [apply alias_bound_sound| |apply alias_bound_sound].
  destruct args as [|e1 [|e2 args]];
    [apply alias_bound_sound| |apply alias_bound_sound].
  destruct (decide (get_kind d = OP_NOT)) as [Hk|Hk];
    [|apply alias_bound_sound].
  destruct (substitute_alias r x e1) as [res|] eqn:H1;
    [|apply alias_bound_sound].
  intros [= <-]. apply (alias_not r x _ e1).
  - unfold is_not. simpl. by rewrite decide_True.
  - by apply IH.
Qed.

(** X11: [substitute_alias] rewrites exactly the bounds on the value [r], under
    any number of negations: the numeral is replaced by the term [x], the
    comparison and the negations are kept.  On every other literal it
    fails, so the caller keeps the literal verbatim. *)
Theorem substitute_alias_rewrites_bounds (r : Qc) (x e e' : expr) :
  substitute_alias r x e = Some e' ↔ alias_rewrite r x e e'.
Proof.
  split; [apply substitute_alias_sound|].
  induction 1 as [e y z Hle Hnum|e y z Hge Hnum|e e1 e1' Hn _ IH];
    rewrite substitute_alias_unfold.
  - apply is_le_kind in Hle as Hk. destruct Hk as (d & -> & Hk).
    unfold alias_bound. rewrite Hle. simpl. rewrite Hnum. simpl.
    by rewrite decide_True.
  - apply is_ge_kind in Hge as Hk. destruct Hk as (d & -> & Hk).
    unfold alias_bound. rewrite is_le_other by congruence. simpl.
    rewrite Hge. simpl. rewrite Hnum. simpl. by rewrite decide_True.
  - apply is_not_kind in Hn as (d & -> & Hk).
    by rewrite decide_True, IH.
Qed.

(** ** Pieces of the induction schema *)

Lemma append_inv_head (s a b : string) : s +:+ a = s +:+ b → a = b.
Proof. induction s as [|c s IH]; simpl; [done|]. intros [= H]. by apply IH. Qed.

Lemma occurs_append (c : Ascii.ascii) (s t : string) :
  occurs c (s +:+ String c t).
Proof. induction s as [|a s IH]; simpl; auto. Qed.

Lemma decimal_no_underscore (n : N) : ¬ occurs underscore (decimal n).
Proof.
  unfold decimal. generalize (N.to_uint n). intros d.
  induction d; simpl; [tauto|..]; intros [H|H]; try discriminate H; auto.
Qed.

Lemma decimal_inj (n m : N) : decimal n = decimal m → n = m.
Proof.
  unfold decimal. intros H. apply DecimalN.Unsigned.to_uint_inj.
  pose proof (NilEmpty.usu (N.to_uint n)) as Hn.
  pose proof (NilEmpty.usu (N.to_uint m)) as Hm.
  rewrite H in Hn. congruence.
Qed.

Lemma level_suffix_inj (s1 s2 d1 d2 : string) :
  ¬ occurs underscore d1 → ¬ occurs underscore d2 →
  s1 +:+ "_" +:+ d1 = s2 +:+ "_" +:+ d2 → s1 = s2 ∧ d1 = d2.
Proof.
  intros Hd1 Hd2. revert s2.
  induction s1 as [|c1 s1 IH]; intros [|c2 s2]; intros H; simpl in H.
  - injection H as Hs. change ("" +:+ d1) with d1 in Hs.
    change ("" +:+ d2) with d2 in Hs. by subst.
  - injection H as Hc Hs. change ("" +:+ d1) with d1 in Hs.
    destruct Hd1. subst d1 c2. apply (occurs_append underscore s2 d2).
  - injection H as Hc Hs. change ("" +:+ d2) with d2 in Hs.
    destruct Hd2. subst d2 c1. apply (occurs_append underscore s1 d1).
  - injection H as Hc Hs. subst c2. by destruct (IH _ Hs) as [-> ->].
Qed.

(** X12: The predicate [Q_level] made for a declaration determines the level and
    the printed name of the declaration: predicates made for different
    levels, or for declarations with different names, never coincide. *)
Theorem mk_pred_inj (l1 l2 : N) (f1 f2 : func_decl) :
  mk_pred l1 f1 = mk_pred l2 f2 →
  l1 = l2
  ∧ symbol_str (get_name f1) = symbol_str (get_name f2)
  ∧ get_domain f1 = get_domain f2
  ∧ get_range f1 = get_range f2.
Proof.
  unfold mk_pred. intros [= Hname Hdom Hrng].
  apply level_suffix_inj in Hname as [Hn Hd];
    [|apply decimal_no_underscore..].
  by apply decimal_inj in Hd.
Qed.

Lemma mk_pred_inj_witness :
  1%N = 1%N
  ∧ symbol_str (get_name Sample.P) = symbol_str (get_name Sample.P)
  ∧ get_domain Sample.P = get_domain Sample.P
  ∧ get_range Sample.P = get_range Sample.P.
Proof. apply (mk_pred_inj 1 1 Sample.P Sample.P). reflexivity. Defined.

(** X13: The levels of the induction hypotheses, computed with unsigned
    arithmetic: the [depth] levels below [level] when [level >= depth], and
    none at all when [level < depth] (the subtraction wraps around and the
    loop does not run).  In either case they are pairwise distinct and
    strictly below [level]. *)
Theorem ih_levels_unsigned (lvl depth : N) :
  (lvl < 2 ^ 32)%N → (depth < 2 ^ 32)%N →
  ih_levels lvl depth
  = (if (depth <=? lvl)%N
     then map (λ d, (lvl - depth + N.of_nat d)%N) (seq 0 (N.to_nat depth))
     else [])
  ∧ NoDup (ih_levels lvl depth)
  ∧ Forall (λ l, (lvl - depth ≤ l < lvl)%N) (ih_levels lvl depth).
Proof.
  intros Hl Hd. rewrite ih_levels_eq by done. split; [done|].
  destruct (N.leb_spec depth lvl) as [Hle|Hlt];
    [|split; constructor].
  split.
  - apply NoDup_fmap_2_strong; [|apply NoDup_seq].
    intros a b _ _. lia.
  - apply Forall_fmap, Forall_forall. intros d Hd'%elem_of_seq. simpl. lia.
Qed.

Lemma ih_levels_unsigned_witness :
  ih_levels 1 2 = [] ∧ NoDup (ih_levels 1 2)
  ∧ Forall (λ l, (1 - 2 ≤ l < 1)%N) (ih_levels 1 2).
Proof. apply (ih_levels_unsigned 1 2); by vm_compute. Defined.

Section schema_more.
Context {ext : Type}.
Variable mk_and : list expr → expr.
Variable o2n : func_decl → nat → func_decl.
Variable var_subst : bool → expr → list (option expr) → expr.
Variable get_free_vars : expr → list (option sort).
Variable expr_abstract : list expr → expr → expr.
Variable get_formulas : ext → pred_transformer → N → bool → expr.
Variable ctx : context.

Lemma bind_args_is_Some_inv (atom : app_atom) (todo : list expr) (i : nat)
    (conjs : list expr) (sub : list (option expr)) :
  todo ≠ [] →
  is_Some (bind_args atom i todo conjs sub) →
  i + length todo ≤ length (get_args atom).
Proof.
  revert i conjs sub.
  induction todo as [|rep todo IH]; intros i conjs sub Hne; [done|].
  simpl. destruct (get_args atom !! i) as [arg|] eqn:Harg; simpl;
    [|by intros [? [=]]].
  apply lookup_lt_Some in Harg.
  destruct todo as [|rep' todo]; [simpl; lia|].
  assert (∀ c s, is_Some (bind_args atom (S i) (rep' :: todo) c s) →
                 i + S (length (rep' :: todo)) ≤ length (get_args atom))
    as Hnext.
  { intros c s Hs. apply IH in Hs; [lia|done]. }
  destruct arg as [idx srt|d args|q ss ns b]; [|apply Hnext..].
  destruct (_ !! idx) as [[t|]|]; apply Hnext.
Qed.

(** X14: Translating a rule faults (reads a head argument that is not there)
    exactly when the head atom has fewer arguments than the predicate has
    positions, unless the rule is cut short at level 0 because it has an
    uninterpreted tail. *)
Theorem mk_transition_rule_defined (reps : list expr) (lvl : N) (r : rule) :
  is_Some (mk_transition_rule mk_and var_subst get_free_vars reps lvl r)
  ↔ (lvl = 0%N ∧ 0 < get_uninterpreted_tail_size r)
    ∨ length reps ≤ length (get_args (get_head r)).
Proof.
  split.
  - unfold mk_transition_rule.
    destruct (_ && _) eqn:Hcut.
    { apply andb_true_iff in Hcut as [?%N.eqb_eq ?%Nat.ltb_lt]. by left. }
    intros Hs. right.
    destruct reps as [|rep reps]; [simpl; lia|].
    destruct (bind_args _ _ _ _ _) as [[conjs sub]|] eqn:Hb;
      [|by destruct Hs as [? [=]]].
    apply (bind_args_is_Some_inv (get_head r) (rep :: reps) 0 [] []);
      [done|by rewrite Hb].
  - intros [[-> Hut]|Hlen].
    + unfold mk_transition_rule. apply Nat.ltb_lt in Hut as ->. by eexists.
    + by apply mk_transition_rule_is_Some.
Qed.

(** *** The queue of the goal construction *)

Lemma queue_keys_snoc (conjs : list expr) (pts : list pred_transformer)
    (levels : list N) (rt : pred_transformer) (l : N) :
  length pts = length levels →
  queue_keys (mk_goal_state conjs (pts ++ [rt]) (levels ++ [l]))
  = zip (map head pts) levels ++ [(head rt, l)].
Proof.
  intros Hlen. unfold queue_keys. simpl.
  rewrite map_app. simpl.
  by rewrite zip_with_app by (by rewrite length_map).
Qed.

Lemma queue_inv_snoc (lvl0 depth : N) (s : goal_state) (conjs : list expr)
    (rt : pred_transformer) (l : N) :
  queue_inv lvl0 depth s →
  (head rt, l) ∉ queue_keys s →
  (l ≤ lvl0 ∧ lvl0 ≤ l + depth + 1)%N →
  queue_inv lvl0 depth
    (mk_goal_state conjs (gs_pts s ++ [rt]) (gs_levels s ++ [l])).
Proof.
  intros (Hlen & Hnd & Hwin) Hfresh Hl. split; [|split].
  - simpl. rewrite !length_app. simpl. lia.
  - rewrite queue_keys_snoc by done. apply NoDup_app.
    split; [done|]. split; [|apply NoDup_singleton].
    intros x Hx ->%list_elem_of_singleton. done.
  - unfold in_window. simpl. apply Forall_app. split; [done|].
    by constructor.
Qed.

Lemma enqueue_tail_inv (lvl0 depth lvl : N) (s : goal_state)
    (atom : app_atom) :
  (lvl < 2 ^ 32)%N → (0 < lvl)%N → (lvl ≤ lvl0)%N → (lvl0 ≤ lvl + depth)%N →
  queue_inv lvl0 depth s →
  queue_inv lvl0 depth (enqueue_tail ctx lvl s atom).
Proof.
  intros Hb Hpos Hle Hwin Hinv. unfold enqueue_tail.
  set (rt := get_pred_transformers ctx (get_decl atom)).
  destruct (existsb _ _) eqn:Hfound; [done|].
  apply queue_inv_snoc; [done| |lia].
  intros Hin. unfold queue_keys in Hin.
  apply elem_of_lookup_zip_with in Hin as (i & x & y & [= Hx Hy] & Hi & Hj).
  rewrite list_lookup_fmap in Hi.
  destruct (gs_pts s !! i) as [q|] eqn:Hq; [|done].
  injection Hi as <-.
  assert (existsb
            (λ ql : pred_transformer * N,
               same_pt rt ql.1 && (wrap32 (Z.of_N ql.2 + 1) =? lvl)%N)
            (zip (gs_pts s) (gs_levels s)) = true) as Ht; [|congruence].
  apply existsb_exists. exists (q, y). split.
  - apply list_elem_of_In. by eapply (elem_of_lookup_zip_with_2 pair).
  - simpl. unfold same_pt. rewrite bool_decide_eq_true_2 by done. simpl.
    apply N.eqb_eq. subst y. unfold wrap32.
    change (2 ^ 32)%N with 4294967296%N in Hb.
    change (2 ^ 32)%Z with 4294967296%Z.
    rewrite Z.mod_small by lia. lia.
Qed.

Lemma enqueue_rules_inv (lvl0 depth lvl : N) (rs : list rule)
    (s : goal_state) :
  (lvl < 2 ^ 32)%N → (0 < lvl)%N → (lvl ≤ lvl0)%N → (lvl0 ≤ lvl + depth)%N →
  queue_inv lvl0 depth s →
  queue_inv lvl0 depth
    (foldl (λ s (r : rule),
              foldl (enqueue_tail ctx lvl) s (uninterpreted_tail r)) s rs).
Proof.
  intros Hb Hpos Hle Hwin.
  apply (foldl_invariant _ (queue_inv lvl0 depth)).
  intros acc r _.
  apply (foldl_invariant _ (queue_inv lvl0 depth)).
  intros acc' a _. by apply enqueue_tail_inv.
Qed.

Lemma transitions_body_inv (x : ext) (lvl0 depth : N) (qhead : nat)
    (s s' : goal_state) :
  (lvl0 + depth < 2 ^ 32)%N →
  transitions_body mk_and o2n var_subst get_free_vars expr_abstract
    get_formulas ctx x lvl0 depth qhead s = Some s' →
  queue_inv lvl0 depth s → queue_inv lvl0 depth s'.
Proof.
  intros Hb. unfold transitions_body.
  destruct (gs_pts s !! qhead) as [qt|]; [|done]. simpl.
  destruct (gs_levels s !! qhead) as [lvl|] eqn:Hlvl; [|done]. simpl.
  destruct (mk_transition_axiom _ _ _ _ _ _ _) as [ax|]; [|done]. simpl.
  intros Hs' Hinv.
  assert (lvl ≤ lvl0)%N as Hle.
  { destruct Hinv as (_ & _ & Hwin).
    by destruct (Forall_lookup_1 _ _ _ _ Hwin Hlvl). }
  set (s1 := mk_goal_state _ (gs_pts s) (gs_levels s)) in Hs'.
  assert (queue_inv lvl0 depth s1) as Hinv1 by done.
  destruct (_ || _) eqn:Hstop; injection Hs' as <-; [done|].
  apply orb_false_iff in Hstop as [Hw%N.ltb_ge Hnz%N.eqb_neq].
  change (2 ^ 32)%N with 4294967296%N in Hb.
  unfold wrap32 in Hw. change (2 ^ 32)%Z with 4294967296%Z in Hw.
  rewrite Z.mod_small in Hw by lia.
  apply enqueue_rules_inv; try done; lia.
Qed.

Lemma transitions_loop_inv (x : ext) (lvl0 depth : N) (fuel qhead : nat)
    (s s' : goal_state) :
  (lvl0 + depth < 2 ^ 32)%N →
  transitions_loop mk_and o2n var_subst get_free_vars expr_abstract
    get_formulas ctx x lvl0 depth fuel qhead s = Done s' →
  queue_inv lvl0 depth s → queue_inv lvl0 depth s'.
Proof.
  intros Hb. revert qhead s.
  induction fuel as [|fuel IH]; intros qhead s; simpl.
  - destruct (qhead <? _); [done|]. by intros [= <-].
  - destruct (qhead <? _); [|by intros [= <-]].
    destruct (transitions_body _ _ _ _ _ _ _ _ _ _ _ _) as [s1|] eqn:Hbody;
      [|done].
    intros Hl Hinv. eapply IH; [exact Hl|].
    by eapply transitions_body_inv.
Qed.

Lemma add_hypotheses_inv (p : pred_transformer) (lvl0 depth : N)
    (ls : list N) (s s' : goal_state) :
  NoDup ls →
  (∀ l, l ∈ ls → (l ≤ lvl0 ∧ lvl0 ≤ l + depth + 1)%N
                 ∧ (head p, l) ∉ queue_keys s) →
  queue_inv lvl0 depth s →
  foldl (add_hypothesis mk_and o2n var_subst get_free_vars expr_abstract p)
        (Some s) ls = Some s' →
  queue_inv lvl0 depth s'.
Proof.
  revert s. induction ls as [|l ls IH]; intros s Hnd Hls Hinv; simpl.
  { by intros [= <-]. }
  apply NoDup_cons in Hnd as [Hl Hnd].
  destruct (0 <? l)%N.
  - destruct (mk_blocked_transition _ _ _ _ _ _) as [psi|]; simpl.
    + apply IH; [done| |].
      * intros l' Hl'. destruct (Hls l') as [Hw Hfresh]; [by right|].
        split; [done|].
        rewrite queue_keys_snoc by apply Hinv.
        intros [?|[= ->]%list_elem_of_singleton]%elem_of_app; done.
      * apply queue_inv_snoc; [done|apply Hls; by left..].
    + clear. induction ls as [|a ls IH]; simpl; [done|apply IH].
  - apply IH; [done| |done]. intros l' Hl'. apply Hls. by right.
Qed.

(** X15: In the queue that [mk_induction_goal] works off, no (transformer,
    level) pair occurs twice, so each pair gets its transition axiom and its
    frame property once; and every level in it lies within the depth window
    [level - depth - 1 .. level] of the goal level. *)
Theorem induction_queue_invariant (x : ext) (p : pred_transformer)
    (lvl depth : N) (fuel : nat) (phi : expr) (s0 s : goal_state) :
  (lvl + depth < 2 ^ 32)%N →
  foldl (add_hypothesis mk_and o2n var_subst get_free_vars expr_abstract p)
        (Some (mk_goal_state
                 [mk_not (mk_predicate_property o2n expr_abstract lvl p phi)]
                 [p] [lvl]))
        (ih_levels lvl depth) = Some s0 →
  transitions_loop mk_and o2n var_subst get_free_vars expr_abstract
    get_formulas ctx x lvl depth fuel 0 s0 = Done s →
  length (gs_pts s) = length (gs_levels s)
  ∧ NoDup (queue_keys s)
  ∧ in_window lvl depth s.
Proof.
  intros Hb Hs0 Hs.
  apply (transitions_loop_inv x lvl depth fuel 0 s0 s Hb Hs).
  assert (lvl < 2 ^ 32 ∧ depth < 2 ^ 32)%N as [Hl Hd].
  { change (2 ^ 32)%N with 4294967296%N in *. lia. }
  destruct (ih_levels_unsigned lvl depth Hl Hd) as (Heq & Hnd & Hrange).
  eapply (add_hypotheses_inv p lvl depth (ih_levels lvl depth));
    [done| | |exact Hs0].
  - intros l Hin.
    assert (lvl - depth ≤ l < lvl)%N as Hr
      by (eapply Forall_forall in Hrange; [exact Hrange|done]).
    split; [lia|]. unfold queue_keys. simpl.
    intros [= ?]%list_elem_of_singleton. lia.
  - split; [done|]. split.
    + unfold queue_keys. simpl. apply NoDup_singleton.
    + unfold in_window. simpl. constructor; [lia|constructor].
Qed.

End schema_more.

Lemma mk_transition_rule_defined_witness :
  is_Some (mk_transition_rule Sample.mk_and Sample.var_subst
             Sample.get_free_vars [Sample.int_x] 1
             (mk_rule (mk_atom Sample.P [var 0 int_sort])
                      [mk_atom Sample.P [var 0 int_sort]] [])).
Proof.
  apply mk_transition_rule_defined. right. simpl. lia.
Defined.

Lemma induction_queue_invariant_witness :
  ∃ s0 s,
    foldl (add_hypothesis Sample.mk_and Sample.o2n Sample.var_subst
             Sample.get_free_vars Sample.expr_abstract Sample.pt_P)
          (Some (mk_goal_state
                   [mk_not (mk_predicate_property Sample.o2n
                              Sample.expr_abstract 2 Sample.pt_P mk_true)]
                   [Sample.pt_P] [2%N]))
          (ih_levels 2 2) = Some s0
    ∧ transitions_loop Sample.mk_and Sample.o2n Sample.var_subst
        Sample.get_free_vars Sample.expr_abstract Sample.get_formulas
        Sample.ctx_P tt 2 2 20 0 s0 = Done s
    ∧ length (gs_pts s) = length (gs_levels s)
    ∧ NoDup (queue_keys s)
    ∧ in_window 2 2 s.
Proof.
  destruct (foldl _ _ (ih_levels 2 2)) as [s0|] eqn:Hs0;
    [|by vm_compute in Hs0].
  destruct (transitions_loop Sample.mk_and Sample.o2n Sample.var_subst
              Sample.get_free_vars Sample.expr_abstract Sample.get_formulas
              Sample.ctx_P tt 2 2 20 0 s0) as [s| |] eqn:Hs.
  - exists s0, s. split; [done|]. split; [done|].
    eapply (induction_queue_invariant Sample.mk_and Sample.o2n
              Sample.var_subst Sample.get_free_vars Sample.expr_abstract
              Sample.get_formulas Sample.ctx_P tt Sample.pt_P 2 2 20 mk_true
              s0 s); [by vm_compute|exact Hs0|exact Hs].
  - vm_compute in Hs0. injection Hs0 as <-. by vm_compute in Hs.
  - vm_compute in Hs0. injection Hs0 as <-. by vm_compute in Hs.
Defined.

(** *** Magnitudes *)

Lemma scan_core_nonneg (i : nat) (core : list expr) (st : arith_state) :
  (∀ b, b ∈ bound_records st → (Qc_of_Z 0 <= br_value b)%Qc) →
  ∀ b, b ∈ bound_records (scan_core i core st) →
       (Qc_of_Z 0 <= br_value b)%Qc.
Proof.
  revert i st. induction core as [|e core IH]; intros i st Hst; simpl;
    [done|].
  apply IH. intros b.
  destruct (scan_literal_cases i e st) as [->|(lo & x & r & ->)]; [auto|].
  intros [Hb| ->]%insert_bound_records; [auto|].
  unfold normalize_bound. destruct (Qc_is_neg r); apply Qcabs_nonneg.
Qed.

(** X16: Every record the scan of [get_eqs] stores is keyed by a non-negative
    magnitude and carries the position of a literal of the core: negative
    bound values never reach the maps. *)
Theorem bound_records_canonical (core : list expr) (b : BoundRecord) :
  b ∈ bound_records (scan_core 0 core reset) →
  (Qc_of_Z 0 <= br_value b)%Qc ∧ is_Some (core !! br_index b).
Proof.
  intros Hb. split.
  - revert b Hb. apply scan_core_nonneg.
    intros b Hb. by apply elem_of_nil in Hb.
  - apply lookup_lt_is_Some_2.
    destruct (scan_core_indexed 0 core reset) as [Hidx _]; [|by apply Hidx].
    split.
    + intros b1 Hb1. by apply elem_of_nil in Hb1.
    + intros b1 b2 Hb1. by apply elem_of_nil in Hb1.
Qed.

Lemma bound_records_canonical_witness :
  (Qc_of_Z 0 <= br_value (mk_bound false Sample.real_x
                            (Qcabs (Qc_of_Z 2)) 0))%Qc
  ∧ is_Some ([mk_le Sample.real_x Sample.two_real]
               !! br_index (mk_bound false Sample.real_x
                              (Qcabs (Qc_of_Z 2)) 0)).
Proof.
  apply (bound_records_canonical [mk_le Sample.real_x Sample.two_real]).
  by left.
Defined.

(** *** Rules without uninterpreted tail *)

Section fact_rules.
Variable mk_and : list expr → expr.
Variable o2n : func_decl → nat → func_decl.
Variable var_subst : bool → expr → list (option expr) → expr.
Variable get_free_vars : expr → list (option sort).

Lemma mk_transition_rule_fact (reps : list expr) (l1 l2 : N) (r : rule) :
  uninterpreted_tail r = [] →
  mk_transition_rule mk_and var_subst get_free_vars reps l1 r
  = mk_transition_rule mk_and var_subst get_free_vars reps l2 r.
Proof.
  intros Hut. unfold mk_transition_rule, get_uninterpreted_tail_size.
  rewrite Hut. simpl. rewrite !andb_false_r.
  destruct (bind_args _ _ _ _ _) as [[conjs sub]|]; simpl; [|done].
  rewrite !app_nil_r. by destruct (0 <? l1)%N, (0 <? l2)%N.
Qed.

(** X17: The level enters the translation of a rule only through its
    uninterpreted tail: for a transformer all of whose rules have none, the
    blocked-transition formula is the same at every level. *)
Theorem mk_blocked_transition_fact (p : pred_transformer) (l1 l2 : N) :
  Forall (λ r, uninterpreted_tail r = []) (rules p) →
  mk_blocked_transition mk_and o2n var_subst get_free_vars p l1
  = mk_blocked_transition mk_and o2n var_subst get_free_vars p l2.
Proof.
  intros Hfact. unfold mk_blocked_transition.
  replace (mapM (mk_transition_rule mk_and var_subst get_free_vars
                   (mk_reps o2n p) l1) (rules p))
    with (mapM (mk_transition_rule mk_and var_subst get_free_vars
                  (mk_reps o2n p) l2) (rules p)); [done|].
  induction Hfact as [|r rs Hr _ IH]; simpl; [done|].
  by rewrite IH, (mk_transition_rule_fact _ l1 l2 r Hr).
Qed.

End fact_rules.

Lemma mk_blocked_transition_fact_witness :
  mk_blocked_transition Sample.mk_and Sample.o2n Sample.var_subst
    Sample.get_free_vars
    (mk_pt Sample.P (sig Sample.pt_P)
       [mk_rule (mk_atom Sample.P [var 0 int_sort]) []
                [mk_atom Sample.P [var 0 int_sort]]]) 0
  = mk_blocked_transition Sample.mk_and Sample.o2n Sample.var_subst
      Sample.get_free_vars
      (mk_pt Sample.P (sig Sample.pt_P)
         [mk_rule (mk_atom Sample.P [var 0 int_sort]) []
                  [mk_atom Sample.P [var 0 int_sort]]]) 7.
Proof.
  apply mk_blocked_transition_fact. repeat constructor.
Defined.
